(** * Layout generation and transition engine of the 3D tile viewer

    A shallow embedding of [layouts.js] (the five target-pose generators)
    and [transform.js] (the tween-driven transition between layouts).
    Of the two revisions of [layouts.js] that the repository carries, the
    one embedded is the later, which has the tetrahedron that [ui.js]
    offers.

    Conventions of the embedding.
    - A JavaScript number that carries a coordinate, an angle or a time is a
      real number ([R]): the formulas are read in exact arithmetic.
    - A JavaScript number that counts or indexes ([count], loop counters,
      [i % COLS], [Math.floor(..)]) is an integer ([Z]); it is injected with
      [IZR] where the source mixes it into a coordinate.
    - [Math.floor] and [Math.ceil] are [Zfloor] and [Zceil] applied to the
      real quotient, exactly as the source applies them to [a / b]. *)

From Stdlib Require Import Reals Lra Lia ZArith List Bool Arith.
From Equations Require Import Equations.
Import ListNotations.

Open Scope R_scope.

(** ** JavaScript outcomes *)

(** The error kinds the specification names.  The source never constructs
    one: they are here so that "the call fails with kind K" can be stated. *)
Inductive ErrorKind : Type :=
| InvalidArgument
| MismatchedLength.

(** How a call ends: it returns a value or it throws. *)
Inductive Completion (A : Type) : Type :=
| Return (v : A)
| Throw (e : ErrorKind).

Arguments Return {A} v.
Arguments Throw {A} e.

(** ** Numbers *)

Definition Math_floor (r : R) : Z := Zfloor r.
Definition Math_ceil (r : R) : Z := Zceil r.

(** JavaScript [a % b] on integers: the sign follows the dividend. *)
Definition js_rem (a b : Z) : Z := Z.rem a b.

(** The indices visited by [for (let i = 0; i < count; i++)]. *)
Definition loop_indices (count : Z) : list Z :=
  map Z.of_nat (seq 0 (Z.to_nat count)).

(** [for (let i = 0; i < count; i++) { targets.push(body(i)) }] starting from
    an empty [targets]. *)
Definition for_push {A : Type} (count : Z) (body : Z -> A) : list A :=
  map body (loop_indices count).

(** ** THREE.Vector3 and THREE.Object3D *)

Record Vector3 : Type := mkVector3 { vx : R; vy : R; vz : R }.

Definition multiplyScalar (v : Vector3) (s : R) : Vector3 :=
  mkVector3 (vx v * s) (vy v * s) (vz v * s).

Definition divideScalar (v : Vector3) (s : R) : Vector3 :=
  multiplyScalar v (1 / s).

Definition addVectors (a b : Vector3) : Vector3 :=
  mkVector3 (vx a + vx b) (vy a + vy b) (vz a + vz b).

Definition subVectors (a b : Vector3) : Vector3 :=
  mkVector3 (vx a - vx b) (vy a - vy b) (vz a - vz b).

Definition crossVectors (a b : Vector3) : Vector3 :=
  mkVector3 (vy a * vz b - vz a * vy b)
            (vz a * vx b - vx a * vz b)
            (vx a * vy b - vy a * vx b).

Definition addScaledVector (p v : Vector3) (s : R) : Vector3 :=
  mkVector3 (vx p + vx v * s) (vy p + vy v * s) (vz p + vz v * s).

Definition lerp (p v : Vector3) (alpha : R) : Vector3 :=
  mkVector3 (vx p + (vx v - vx p) * alpha)
            (vy p + (vy v - vy p) * alpha)
            (vz p + (vz v - vz p) * alpha).

Definition length3 (v : Vector3) : R :=
  sqrt (vx v * vx v + vy v * vy v + vz v * vz v).

(** [x || 1] on a number: [1] when [x] is zero. *)
Definition or_one (x : R) : R := if Req_dec_T x 0 then 1 else x.

(** [normalize()] is [divideScalar(length() || 1)]. *)
Definition normalize (v : Vector3) : Vector3 :=
  divideScalar v (or_one (length3 v)).

Definition zero3 : Vector3 := mkVector3 0 0 0.

(** How the generator fixes the orientation of a target: by
    [rotation.set(x, y, z)] or by [lookAt(point)] issued from the target's
    position.  The Euler angles three.js derives from a look-at are not
    expanded: no generator reads them back. *)
Inductive Orientation : Type :=
| RotationSet (rx ry rz : R)
| LookAt (eye point : Vector3).

Record Object3D : Type := mkObject3D {
  position : Vector3;
  orientation : Orientation
}.

(** ** layouts.js *)

Module TABLE.
Definition X_SPACING : R := 250.
Definition Y_SPACING : R := 320.
Definition COLS : Z := 20.
Definition ROWS : Z := 10.
End TABLE.

Module SPHERE.
Definition RADIUS : R := 800.
End SPHERE.

Module HELIX.
Definition RADIUS : R := 500.
Definition TURN_ANGLE : R := 3 / 10.
Definition VERTICAL_STEP : R := 40.
End HELIX.

Module GRID.
Definition X_SPACING : R := 250.
Definition Y_SPACING : R := 320.
Definition Z_SPACING : R := 250.
Definition X_COUNT : Z := 5.
Definition Y_COUNT : Z := 4.
Definition Z_COUNT : Z := 10.
End GRID.

Module TETRA.
Definition SCALE : R := 35 / 10.
Definition NORMAL_OFFSET : R := 50.
End TETRA.

(** Body of the loop of [generateTableLayout]. *)
Definition tableTarget (i : Z) : Object3D :=
  let col := js_rem i TABLE.COLS in
  let row := Math_floor (IZR i / IZR TABLE.COLS) in
  let x := (IZR col - IZR TABLE.COLS / 2 + 0.5) * TABLE.X_SPACING in
  let y := (IZR TABLE.ROWS / 2 - IZR row - 0.5) * TABLE.Y_SPACING in
  let z := 0 in
  mkObject3D (mkVector3 x y z) (RotationSet 0 0 0).

Definition generateTableLayout (count : Z) : list Object3D :=
  for_push count tableTarget.

(** Body of the loop of [generateSphereLayout]. *)
Definition sphereTarget (count i : Z) : Object3D :=
  let phi := acos (-1 + (2 * IZR i) / IZR count) in
  let theta := sqrt (IZR count * PI) * phi in
  let x := SPHERE.RADIUS * cos theta * sin phi in
  let y := SPHERE.RADIUS * sin theta * sin phi in
  let z := SPHERE.RADIUS * cos phi in
  let p := mkVector3 x y z in
  mkObject3D p (LookAt p (mkVector3 0 0 0)).

Definition generateSphereLayout (count : Z) : list Object3D :=
  for_push count (sphereTarget count).

(** [centerOffset] of [generateHelixLayout], computed before the loop. *)
Definition helixCenterOffset (count : Z) : R :=
  let strandSteps := Math_ceil (IZR count / 2) in
  ((IZR strandSteps - 1) * HELIX.VERTICAL_STEP) / 2.

(** Body of the loop of [generateHelixLayout]. *)
Definition helixTarget (count i : Z) : Object3D :=
  let centerOffset := helixCenterOffset count in
  let strand := js_rem i 2 in
  let k := Math_floor (IZR i / 2) in
  let angleOffset := if (strand =? 0)%Z then 0 else PI in
  let angle := IZR k * HELIX.TURN_ANGLE + angleOffset in
  let strandOffset := if (strand =? 0)%Z then 20 else -20 in
  let radiusWithOffset := HELIX.RADIUS + strandOffset in
  let x := radiusWithOffset * cos angle in
  let z := radiusWithOffset * sin angle in
  let y := IZR k * HELIX.VERTICAL_STEP - centerOffset in
  let p := mkVector3 x y z in
  mkObject3D p (LookAt p (mkVector3 0 y 0)).

Definition generateHelixLayout (count : Z) : list Object3D :=
  for_push count (helixTarget count).

(** Body of the loop of [generateGridLayout]. *)
Definition gridTarget (i : Z) : Object3D :=
  let x := js_rem i GRID.X_COUNT in
  let y := js_rem (Math_floor (IZR i / IZR GRID.X_COUNT)) GRID.Y_COUNT in
  let z := Math_floor (IZR i / (IZR GRID.X_COUNT * IZR GRID.Y_COUNT)) in
  let posX := (IZR x - IZR GRID.X_COUNT / 2 + 0.5) * GRID.X_SPACING in
  let posY := (IZR GRID.Y_COUNT / 2 - IZR y - 0.5) * GRID.Y_SPACING in
  let posZ := (IZR z - IZR GRID.Z_COUNT / 2 + 0.5) * GRID.Z_SPACING in
  mkObject3D (mkVector3 posX posY posZ) (RotationSet 0 0 0).

Definition generateGridLayout (count : Z) : list Object3D :=
  for_push count gridTarget.

(** *** Tetrahedron *)

Definition vertices : list Vector3 :=
  [ multiplyScalar (mkVector3 0 520 0) TETRA.SCALE;
    multiplyScalar (mkVector3 (-420) (-320) (-320)) TETRA.SCALE;
    multiplyScalar (mkVector3 420 (-320) (-320)) TETRA.SCALE;
    multiplyScalar (mkVector3 0 (-320) 520) TETRA.SCALE ].

Definition faces : list (nat * nat * nat) :=
  [ (0, 1, 2); (0, 2, 3); (0, 3, 1); (1, 3, 2) ]%nat.

(** The loop of [hammersley]:
    [for (let i = 0.5; t > 0; i *= 0.5) { p += (t % 2) * i; t = Math.floor(t / 2) }]. *)
Equations? hammersley_loop (t : Z) (i p : R) : R by wf (Z.to_nat t) lt :=
hammersley_loop t i p with Z_gt_dec t 0 := {
  | left _ => hammersley_loop (Math_floor (IZR t / 2)) (i * 0.5)
                              (p + IZR (js_rem t 2) * i);
  | right _ => p }.
Proof.
  unfold Math_floor.
  assert (Ht : 1 <= IZR t) by (apply IZR_le; lia).
  destruct (Zfloor_bound (IZR t / 2)) as [Hlo _].
  assert (Hnn : (0 <= Zfloor (IZR t / 2))%Z) by (apply Zfloor_lub; lra).
  assert (Hlt : (Zfloor (IZR t / 2) < t)%Z) by (apply lt_IZR; lra).
  lia.
Qed.

Definition hammersley (k n : Z) : R * R :=
  (IZR k / IZR n, hammersley_loop k 0.5 0).

Definition basePerFace (count : Z) : Z :=
  Math_floor (IZR count / IZR (Z.of_nat (length faces))).

Definition remainder (count : Z) : Z :=
  js_rem count (Z.of_nat (length faces)).

Definition itemsOnFace (count faceIndex : Z) : Z :=
  (basePerFace count + (if faceIndex <? remainder count then 1 else 0))%Z.

(** Body of the inner loop of [generateTetraLayout], for the face with
    corners [a], [b], [c]. *)
Definition tetraTarget (a b c : Vector3) (n i : Z) : Object3D :=
  let edge1 := subVectors b a in
  let edge2 := subVectors c a in
  let tangent1 := normalize edge1 in
  let tangent2 := normalize edge2 in
  let normal := normalize (crossVectors edge1 edge2) in
  let faceCenter :=
    divideScalar (addVectors (addVectors (addVectors zero3 a) b) c) 3 in
  let '(uRaw, vRaw) := hammersley i n in
  let u := sqrt uRaw in
  let v := vRaw * u in
  let weightA := 1 - u in
  let weightB := u - v in
  let weightC := v in
  let p0 := addScaledVector
              (addScaledVector (addScaledVector zero3 a weightA) b weightB)
              c weightC in
  let p1 := lerp p0 faceCenter 0.18 in
  let jitter1 := (uRaw - 0.5) * 30 in
  let jitter2 := (vRaw - 0.5) * 24 in
  let p2 := addScaledVector p1 tangent1 jitter1 in
  let p3 := addScaledVector p2 tangent2 jitter2 in
  let tp := addScaledVector p3 normal TETRA.NORMAL_OFFSET in
  mkObject3D tp (LookAt tp (addVectors p3 normal)).

(** The targets pushed by one iteration of the loop over the faces. *)
Definition faceTargets (count faceIndex : Z) : list Object3D :=
  let n := itemsOnFace count faceIndex in
  if (n =? 0)%Z then []
  else
    let '(aIdx, bIdx, cIdx) := nth (Z.to_nat faceIndex) faces (0, 0, 0)%nat in
    let a := nth aIdx vertices zero3 in
    let b := nth bIdx vertices zero3 in
    let c := nth cIdx vertices zero3 in
    for_push n (tetraTarget a b c n).

Definition generateTetraLayout (count : Z) : list Object3D :=
  concat (for_push (Z.of_nat (length faces)) (faceTargets count)).

(** *** The five layouts together *)

Inductive LayoutName : Type := table | sphere | helix | grid | tetra.

(** The object literal returned by [generateLayoutTargets]. *)
Record LayoutTargets : Type := mkLayoutTargets {
  lt_table : list Object3D;
  lt_sphere : list Object3D;
  lt_helix : list Object3D;
  lt_grid : list Object3D;
  lt_tetra : list Object3D
}.

(** Property access [targets[layout]]. *)
Definition layout_get (t : LayoutTargets) (name : LayoutName) : list Object3D :=
  match name with
  | table => lt_table t
  | sphere => lt_sphere t
  | helix => lt_helix t
  | grid => lt_grid t
  | tetra => lt_tetra t
  end.

Definition generateLayoutTargets (count : Z) : Completion LayoutTargets :=
  Return (mkLayoutTargets (generateTableLayout count)
                          (generateSphereLayout count)
                          (generateHelixLayout count)
                          (generateGridLayout count)
                          (generateTetraLayout count)).

(** ** transform.js *)

(** The part of a [CSS3DObject] (and of a target [Object3D]) that a
    transition reads and writes: [position.{x,y,z}] and [rotation.{x,y,z}]. *)
Record Pose : Type := mkPose {
  pose_position : Vector3;
  pose_rotation : Vector3
}.

(** The pose [transform] reads off a generated target.  [euler] stands for
    the Euler angles three.js keeps in [rotation] after a [lookAt]. *)
Definition pose_of (euler : Vector3 -> Vector3 -> Vector3) (o : Object3D) : Pose :=
  match orientation o with
  | RotationSet rx ry rz => mkPose (position o) (mkVector3 rx ry rz)
  | LookAt eye point => mkPose (position o) (euler eye point)
  end.

(** Objects are identified by reference. *)
Definition ObjRef : Type := nat.

(** Which member of the object a tween drives: [object.position] or
    [object.rotation]. *)
Inductive Channel : Type := PositionOf | RotationOf.

Definition get_channel (ch : Channel) (p : Pose) : Vector3 :=
  match ch with
  | PositionOf => pose_position p
  | RotationOf => pose_rotation p
  end.

Definition set_channel (ch : Channel) (v : Vector3) (p : Pose) : Pose :=
  match ch with
  | PositionOf => mkPose v (pose_rotation p)
  | RotationOf => mkPose (pose_position p) v
  end.

(** A started tween: the spec's ActiveTransition for one channel. *)
Record Tween : Type := mkTween {
  tween_id : nat;
  tween_object : ObjRef;
  tween_channel : Channel;
  valuesStart : Vector3;
  valuesEnd : Vector3;
  tween_duration : R;
  startTime : R
}.

Inductive LogEntry : Type :=
| ErrorInvalidParameters
| WarnNoObjects
| WarnMismatch (nObjects nTargets : nat)
| WarnInvalidAt (index : nat).

(** Everything [transform.js] and the tween engine read or write. *)
Record World : Type := mkWorld {
  poses : ObjRef -> Pose;       (* live pose of every object *)
  activeTweens : list nat;      (* [let activeTweens], by tween identity *)
  group : list Tween;           (* the engine's playing tweens, oldest first *)
  nextId : nat;                 (* identity of the next tween created *)
  clock : R;                    (* the engine's clock, in milliseconds *)
  console : list LogEntry       (* console output, oldest first *)
}.

Definition set_poses (f : ObjRef -> Pose) (w : World) : World :=
  mkWorld f (activeTweens w) (group w) (nextId w) (clock w) (console w).

Definition set_activeTweens (l : list nat) (w : World) : World :=
  mkWorld (poses w) l (group w) (nextId w) (clock w) (console w).

Definition set_group (g : list Tween) (w : World) : World :=
  mkWorld (poses w) (activeTweens w) g (nextId w) (clock w) (console w).

Definition set_nextId (n : nat) (w : World) : World :=
  mkWorld (poses w) (activeTweens w) (group w) n (clock w) (console w).

Definition log (e : LogEntry) (w : World) : World :=
  mkWorld (poses w) (activeTweens w) (group w) (nextId w) (clock w)
          (console w ++ [e]).

(** Time passing between two calls: the clock moves, nothing else does. *)
Definition elapse (dt : R) (w : World) : World :=
  mkWorld (poses w) (activeTweens w) (group w) (nextId w) (clock w + dt)
          (console w).

Definition write_pose (o : ObjRef) (p : Pose) (f : ObjRef -> Pose) : ObjRef -> Pose :=
  fun o' => if Nat.eqb o' o then p else f o'.

(** *** The tween engine *)

(** Modelled from the spec: the tween engine.  [transform.js] imports it
    from the package [@tweenjs/tween.js], which is not under src/.  Section
    4.2 fixes what is used of it: starting a transition captures the item's
    current pose as interpolation start together with the start timestamp
    and the duration, and touches no pose (poses are written during
    [advance] only).  The engine keeps the playing tweens in creation
    order. *)
Definition Tween_start (object : ObjRef) (ch : Channel) (to : Vector3)
    (duration : R) (w : World) : nat * World :=
  let id := nextId w in
  let tw := mkTween id object ch (get_channel ch (poses w object)) to
                    duration (clock w) in
  (id, set_nextId (S id) (set_group (group w ++ [tw]) w)).

(** Modelled from the spec: a tween leaves the playing set. *)
Definition Group_remove (id : nat) (w : World) : World :=
  set_group (filter (fun tw => negb (Nat.eqb (tween_id tw) id)) (group w)) w.

(** Modelled from the spec: cancelling a transition ([tween.stop()]) removes
    it from the playing set without completing it; the pose is left where
    it is and no callback of [transform.js] runs. *)
Definition Tween_stop (id : nat) (w : World) : World :=
  Group_remove id w.

(** Modelled from the spec: the ease-in-out cubic curve
    ([TWEEN.Easing.Cubic.InOut]): cubic acceleration on the first half,
    mirrored deceleration on the second. *)
Definition Cubic_InOut (amount : R) : R :=
  let a := amount * 2 in
  if Rlt_dec a 1 then 0.5 * a * a * a
  else let a' := a - 2 in 0.5 * (a' * a' * a' + 2).

Definition interpolate (s e : Vector3) (value : R) : Vector3 :=
  mkVector3 (vx s + (vx e - vx s) * value)
            (vy s + (vy e - vy s) * value)
            (vz s + (vz e - vz s) * value).

(** [activeTweens.indexOf(t)] followed by [splice(index, 1)] when found. *)
Fixpoint remove_first (id : nat) (l : list nat) : list nat :=
  match l with
  | [] => []
  | x :: rest => if Nat.eqb x id then rest else x :: remove_first id rest
  end.

(** The [onComplete] callback that [createTweensForObject] installs on both
    tweens. *)
Definition onComplete (id : nat) (w : World) : World :=
  set_activeTweens (remove_first id (activeTweens w)) w.

(** A tween has run its course at elapsed time [e]. *)
Definition finished (duration e : R) : bool :=
  if Req_dec_T duration 0 then true
  else if Rle_dec duration e then true else false.

(** Modelled from the spec: one tween at one [advance] (section 4.2):
    elapsed = now - start, t = min(1, elapsed/duration) with duration 0
    meaning a snap, the eased t applied to every component, the result
    written into the live pose; at t = 1 the transition completes and its
    completion callback runs.  The result tells whether the tween still
    plays. *)
Definition Tween_update (time : R) (tw : Tween) (w : World) : World * bool :=
  if Rlt_dec time (startTime tw) then (w, true)
  else
    let elapsedTime := time - startTime tw in
    let portion :=
      if Req_dec_T (tween_duration tw) 0 then 1
      else Rmin 1 (elapsedTime / tween_duration tw) in
    let value := Cubic_InOut portion in
    let o := tween_object tw in
    let v := interpolate (valuesStart tw) (valuesEnd tw) value in
    let w1 := set_poses
                (write_pose o (set_channel (tween_channel tw) v (poses w o))
                            (poses w)) w in
    if finished (tween_duration tw) elapsedTime
    then (onComplete (tween_id tw) w1, false)
    else (w1, true).

(** Modelled from the spec: [advance] visits every playing tween once, in
    order, and drops from the playing set those that completed. *)
Fixpoint Group_update_loop (time : R) (tweens : list Tween) (w : World) : World :=
  match tweens with
  | [] => w
  | tw :: rest =>
      let '(w1, playing) := Tween_update time tw w in
      let w2 := if playing then w1 else Group_remove (tween_id tw) w1 in
      Group_update_loop time rest w2
  end.

(** Modelled from the spec: [TWEEN.update(time)]; without a timestamp the
    engine samples its own clock. *)
Definition TWEEN_update (time : option R) (w : World) : World :=
  let now := match time with Some t => t | None => clock w end in
  Group_update_loop now (group w) w.

(** *** transform.js proper *)

Definition DEFAULT_DURATION : R := 2000.

(** A JavaScript argument expected to be an array: anything else, or an
    array whose entries may be [null]/[undefined]. *)
Inductive JsArg (A : Type) : Type :=
| NotAnArray
| JsArray (elems : list (option A)).

Arguments NotAnArray {A}.
Arguments JsArray {A} elems.

(** An array without holes. *)
Definition arrayOf {A : Type} (l : list A) : JsArg A := JsArray (map Some l).

Definition createTweensForObject (object : ObjRef) (target : Pose)
    (duration : R) (w : World) : World :=
  let '(positionTween, w1) :=
    Tween_start object PositionOf (pose_position target) duration w in
  let '(rotationTween, w2) :=
    Tween_start object RotationOf (pose_rotation target) duration w1 in
  set_activeTweens (activeTweens w2 ++ [positionTween; rotationTween]) w2.

Definition stopAllTweens (w : World) : World :=
  set_activeTweens []
    (fold_left (fun acc id => Tween_stop id acc) (activeTweens w) w).

(** [objects.forEach((object, index) => ...)] of [transform], from [index]
    on. *)
Fixpoint forEach_create (objects : list (option ObjRef)) (index : nat)
    (targets : list (option Pose)) (duration : R) (w : World) : World :=
  match objects with
  | [] => w
  | object :: rest =>
      let w1 :=
        match object, nth_error targets index with
        | Some o, Some (Some target) => createTweensForObject o target duration w
        | _, _ => log (WarnInvalidAt index) w
        end in
      forEach_create rest (S index) targets duration w1
  end.

Definition transform (objects : JsArg ObjRef) (targets : JsArg Pose)
    (duration : option R) (w : World) : Completion unit * World :=
  let duration := match duration with Some d => d | None => DEFAULT_DURATION end in
  match objects, targets with
  | JsArray objs, JsArray tgts =>
      if Nat.eqb (length objs) 0 then (Return tt, log WarnNoObjects w)
      else if negb (Nat.eqb (length objs) (length tgts))
      then (Return tt, log (WarnMismatch (length objs) (length tgts)) w)
      else (Return tt, forEach_create objs 0 tgts duration (stopAllTweens w))
  | _, _ => (Return tt, log ErrorInvalidParameters w)
  end.

(** [export function update(time)]. *)
Definition update (time : option R) (w : World) : World :=
  TWEEN_update time w.

(** *** Vocabulary of the statements *)

(** A world as the module can produce it: every playing tween is tracked in
    [activeTweens], and identities already handed out are below [nextId]. *)
Definition World_ok (w : World) : Prop :=
  (forall tw, In tw (group w) -> In (tween_id tw) (activeTweens w)) /\
  (forall id, In id (activeTweens w) -> (id < nextId w)%nat).

(** The two tweens [createTweensForObject] starts for each item, for items
    at the poses [store], started at time [now] with identities from [id]. *)
Fixpoint created_tweens (store : ObjRef -> Pose) (now duration : R) (id : nat)
    (items : list ObjRef) (targets : list Pose) : list Tween :=
  match items, targets with
  | o :: items', t :: targets' =>
      mkTween id o PositionOf (pose_position (store o)) (pose_position t)
              duration now
      :: mkTween (S id) o RotationOf (pose_rotation (store o)) (pose_rotation t)
                 duration now
      :: created_tweens store now duration (S (S id)) items' targets'
  | _, _ => []
  end.

(** The identities still wanted after stopping those of [ids]. *)
Definition not_among (ids : list nat) (tw : Tween) : bool :=
  forallb (fun id => negb (Nat.eqb (tween_id tw) id)) ids.

(** At [time] the tween has started and run for its whole duration. *)
Definition due (time : R) (tw : Tween) : Prop :=
  startTime tw <= time /\ 0 <= tween_duration tw <= time - startTime tw.

(** The poses after each tween of [tws], in order, wrote its end values. *)
Definition writes (tws : list Tween) (store : ObjRef -> Pose) : ObjRef -> Pose :=
  fold_left
    (fun f tw =>
       write_pose (tween_object tw)
                  (set_channel (tween_channel tw) (valuesEnd tw)
                               (f (tween_object tw))) f)
    tws store.

(** The duration a call to [transform] works with. *)
Definition effective_duration (duration : option R) : R :=
  match duration with Some d => d | None => DEFAULT_DURATION end.

(** The world before anything was loaded. *)
Definition initial_world : World :=
  mkWorld (fun _ => mkPose zero3 zero3) [] [] 0 0 [].

(** *** Geometry used in the statements *)

Definition dot (a b : Vector3) : R :=
  vx a * vx b + vy a * vy b + vz a * vz b.

(** The corners [a], [b], [c] of a face, as the loop over the faces reads
    them. *)
Definition faceCorners (faceIndex : Z) : Vector3 * Vector3 * Vector3 :=
  let '(aIdx, bIdx, cIdx) := nth (Z.to_nat faceIndex) faces (0, 0, 0)%nat in
  (nth aIdx vertices zero3, nth bIdx vertices zero3, nth cIdx vertices zero3).

(** The [normal] the loop over the faces computes for a face. *)
Definition faceNormal (faceIndex : Z) : Vector3 :=
  let '(a, b, c) := faceCorners faceIndex in
  normalize (crossVectors (subVectors b a) (subVectors c a)).

(** The centre of the tetrahedron: the mean of its four corners. *)
Definition tetraCentroid : Vector3 :=
  divideScalar
    (addVectors (addVectors (addVectors (nth 0 vertices zero3)
                                        (nth 1 vertices zero3))
                            (nth 2 vertices zero3))
                (nth 3 vertices zero3)) 4.

(** ** ui.js *)

Definition TRANSITION_DURATION : R := 2000.

Definition layout_eqb (a b : LayoutName) : bool :=
  match a, b with
  | table, table | sphere, sphere | helix, helix | grid, grid
  | tetra, tetra => true
  | _, _ => false
  end.

(** The entries of [LAYOUTS], in the order [Object.values] lists them. *)
Definition LAYOUTS : list LayoutName := [table; sphere; helix; grid; tetra].

(** [layout.default]: set for the table only. *)
Definition layout_default (l : LayoutName) : bool := layout_eqb l table.

(** What [ui.js] writes to the console. *)
Inductive UiLog : Type :=
| ErrorInvalidInitUI
| WarnButtonNotFound (l : LayoutName)
| ErrorLayoutNotFound (l : LayoutName)
| WarnNoObjectsToTransform
| ErrorSwitching (l : LayoutName) (e : ErrorKind).

(** The module variables of [ui.js], together with what it touches of the
    page: which layout buttons carry the class [active]. *)
Record Ui : Type := mkUi {
  currentLayout : LayoutName;
  ui_objects : JsArg ObjRef;
  layoutTargets : option (LayoutName -> option (JsArg Pose));
  buttons : LayoutName -> bool;     (* [buttons[id]] is set *)
  active : LayoutName -> bool;      (* the button of that layout is [active] *)
  ui_console : list UiLog
}.

Definition ui_log (e : UiLog) (u : Ui) : Ui :=
  mkUi (currentLayout u) (ui_objects u) (layoutTargets u) (buttons u)
       (active u) (ui_console u ++ [e]).

(** The module before [initUI], on a page whose buttons carry [active] as
    [page_active] says. *)
Definition initial_ui (page_active : LayoutName -> bool) : Ui :=
  mkUi table (JsArray []) None (fun _ => false) page_active [].

(** One turn of the [forEach] of [initUI]; [page_has l] tells whether the
    page has the button of layout [l]. *)
Definition initUI_button (page_has : LayoutName -> bool) (u : Ui)
    (l : LayoutName) : Ui :=
  if page_has l then
    let registered := fun l' => if layout_eqb l' l then true else buttons u l' in
    if layout_default l then
      mkUi l (ui_objects u) (layoutTargets u) registered
           (fun l' => if layout_eqb l' l then true else active u l')
           (ui_console u)
    else
      mkUi (currentLayout u) (ui_objects u) (layoutTargets u) registered
           (active u) (ui_console u)
  else ui_log (WarnButtonNotFound l) u.

(** [initUI(targets, sceneObjects)]; [None] is a missing ([null],
    [undefined]) argument. *)
Definition initUI (page_has : LayoutName -> bool)
    (targets : option (LayoutName -> option (JsArg Pose)))
    (sceneObjects : option (JsArg ObjRef)) (u : Ui) : Ui :=
  match targets, sceneObjects with
  | Some tg, Some objs =>
      fold_left (initUI_button page_has) LAYOUTS
                (mkUi (currentLayout u) objs (Some tg) (buttons u) (active u)
                      (ui_console u))
  | _, _ => ui_log ErrorInvalidInitUI u
  end.

(** [updateActiveButton(layoutId)]: every registered button loses [active],
    then the button of [layoutId], if registered, gets it. *)
Definition updateActiveButton (layoutId : LayoutName) (u : Ui) : Ui :=
  mkUi (currentLayout u) (ui_objects u) (layoutTargets u) (buttons u)
       (fun l => if buttons u l then layout_eqb l layoutId else active u l)
       (ui_console u).

(** [objects.length === 0]. *)
Definition no_objects (objs : JsArg ObjRef) : bool :=
  match objs with
  | JsArray [] => true
  | _ => false
  end.

(** [switchLayout(layoutId)], the click handler of the layout buttons. *)
Definition switchLayout (layoutId : LayoutName) (u : Ui) (w : World)
    : Ui * World :=
  if layout_eqb (currentLayout u) layoutId then (u, w)
  else
    match layoutTargets u with
    | None => (ui_log (ErrorLayoutNotFound layoutId) u, w)
    | Some tg =>
        match tg layoutId with
        | None => (ui_log (ErrorLayoutNotFound layoutId) u, w)
        | Some targets =>
            if no_objects (ui_objects u)
            then (ui_log WarnNoObjectsToTransform u, w)
            else
              let u1 := updateActiveButton layoutId u in
              let '(r, w') := transform (ui_objects u) targets
                                        (Some TRANSITION_DURATION) w in
              match r with
              | Return _ =>
                  (mkUi layoutId (ui_objects u1) (layoutTargets u1)
                        (buttons u1) (active u1) (ui_console u1), w')
              | Throw e => (ui_log (ErrorSwitching layoutId e) u1, w')
              end
        end
    end.

(** The [layoutTargets] that [main.js] hands to [initUI]: what
    [generateLayoutTargets] returned, each target read as [transform] reads
    it. *)
Definition targets_of (euler : Vector3 -> Vector3 -> Vector3)
    (r : LayoutTargets) : LayoutName -> option (JsArg Pose) :=
  fun l => Some (arrayOf (map (pose_of euler) (layout_get r l))).

(** The buttons and the record of the current layout agree: a registered
    button is [active] exactly when it is the current layout's. *)
Definition Ui_consistent (u : Ui) : Prop :=
  forall l, buttons u l = true ->
            (active u l = true <-> l = currentLayout u).

(** ** sheets.js: finding a column *)

(** A JavaScript string: its sequence of UTF-16 code units. *)
Definition JsString : Type := list nat.

(** [a === b] on strings. *)
Fixpoint string_eqb (a b : JsString) : bool :=
  match a, b with
  | [], [] => true
  | x :: a', y :: b' => Nat.eqb x y && string_eqb a' b'
  | _, _ => false
  end.

(** [sub] occurs in [s] at position 0. *)
Fixpoint starts_with (s sub : JsString) : bool :=
  match sub with
  | [] => true
  | c :: sub' =>
      match s with
      | [] => false
      | d :: s' => Nat.eqb c d && starts_with s' sub'
      end
  end.

(** [s.includes(sub)]: [sub] occurs somewhere in [s]. *)
Fixpoint includes (s sub : JsString) : bool :=
  starts_with s sub
  || match s with
     | [] => false
     | _ :: s' => includes s' sub
     end.

(** [array.findIndex(p)], the first element being number [i]. *)
Fixpoint findIndex_from {A : Type} (p : A -> bool) (l : list A) (i : Z) : Z :=
  match l with
  | [] => -1
  | x :: rest => if p x then i else findIndex_from p rest (i + 1)
  end.

Definition findIndex {A : Type} (p : A -> bool) (l : list A) : Z :=
  findIndex_from p l 0.

(** [headers.indexOf(name)]. *)
Definition indexOf (headers : list JsString) (name : JsString) : Z :=
  findIndex (fun h => string_eqb h name) headers.

(** [for (const name of names) { const index = f(name); if (index !== -1)
    return index; }], with [-1] when the loop runs out. *)
Fixpoint first_index (f : JsString -> Z) (names : list JsString) : Z :=
  match names with
  | [] => -1
  | name :: rest =>
      let index := f name in
      if (index =? -1)%Z then first_index f rest else index
  end.

(** The test of the partial match:
    [h.includes(name) || name.includes(h) || h === name]. *)
Definition partial_match (name h : JsString) : bool :=
  includes h name || includes name h || string_eqb h name.

Definition findColumnIndex (headers possibleNames : list JsString) : Z :=
  let exactIndex := first_index (indexOf headers) possibleNames in
  if (exactIndex =? -1)%Z
  then first_index (fun name => findIndex (partial_match name) headers)
                   possibleNames
  else exactIndex.

(** *** scene.js: the animation loop *)

(** One turn of [animate], [dt] milliseconds after the previous one, as far
    as the tiles go: [updateTween()] without a timestamp.  The camera
    controls and the renderer that [animate] also drives read the poses of
    the tiles and write none. *)
Definition animate_frame (dt : R) (w : World) : World :=
  update None (elapse dt w).

(** The turns of [animate] that [requestAnimationFrame] schedules, given the
    time between each and the one before. *)
Definition animate (dts : list R) (w : World) : World :=
  fold_left (fun acc dt => animate_frame dt acc) dts w.

Definition sum_R (l : list R) : R := fold_right Rplus 0 l.

(** The eased share of the way that a transition of duration [d] has
    covered [e] milliseconds after its start. *)
Definition progress (d e : R) : R :=
  Cubic_InOut (if Req_dec_T d 0 then 1 else Rmin 1 (e / d)).

(** The pose at share [v] of the way between two poses, position and
    rotation taken component by component. *)
Definition pose_between (from to : Pose) (v : R) : Pose :=
  mkPose (interpolate (pose_position from) (pose_position to) v)
         (interpolate (pose_rotation from) (pose_rotation to) v).

(** [x] lies between [a] and [b], whichever of them is the smaller. *)
Definition between (a b x : R) : Prop := Rmin a b <= x <= Rmax a b.

(** [p] lies in the box spanned by [from] and [to]. *)
Definition in_box (from to p : Vector3) : Prop :=
  between (vx from) (vx to) (vx p) /\
  between (vy from) (vy to) (vy p) /\
  between (vz from) (vz to) (vz p).

(** *** The states the module can be in *)

(** What can happen to the world: a call of [transform], a call of
    [update], time passing. *)
Inductive Step : World -> World -> Prop :=
| step_transform (objects : JsArg ObjRef) (targets : JsArg Pose)
    (duration : option R) (w : World) :
    Step w (snd (transform objects targets duration w))
| step_update (time : option R) (w : World) : Step w (update time w)
| step_elapse (dt : R) (w : World) : Step w (elapse dt w).

Inductive Reachable : World -> Prop :=
| reach_initial : Reachable initial_world
| reach_step (w w' : World) : Reachable w -> Step w w' -> Reachable w'.

(** [activeTweens] lists the playing tweens, each once, in the engine's
    order, and every identity in use is below [nextId]. *)
Definition Synced (w : World) : Prop :=
  activeTweens w = map tween_id (group w) /\
  NoDup (activeTweens w) /\
  (forall id, In id (activeTweens w) -> (id < nextId w)%nat).

(** With respect to the tweens [created] by a call of [transform]: those
    still playing are among them, each once, and each of them either still
    plays or has left its end value in the pose it drives. *)
Definition Settling (created : list Tween) (w : World) : Prop :=
  NoDup (group w) /\
  incl (group w) created /\
  (forall tw, In tw created ->
     In tw (group w) \/
     get_channel (tween_channel tw) (poses w (tween_object tw)) = valuesEnd tw).

(** * Properties *)

(** ** Arithmetic of the loops *)

Lemma Math_floor_div (a b : Z) :
  (0 < b)%Z -> Math_floor (IZR a / IZR b) = (a / b)%Z.
Proof.
  intros Hb. unfold Math_floor. apply Zfloor_eq.
  assert (Hb' : 0 < IZR b) by (apply IZR_lt; lia).
  pose proof (Z.div_mod a b ltac:(lia)) as Hdm.
  pose proof (Z.mod_pos_bound a b Hb) as [Hlo Hhi].
  apply IZR_le in Hlo. apply IZR_lt in Hhi.
  assert (Ha : IZR a = IZR b * IZR (a / b) + IZR (a mod b)).
  { rewrite <- mult_IZR, <- plus_IZR. f_equal. exact Hdm. }
  assert (Hq : IZR a / IZR b = IZR (a / b) + IZR (a mod b) / IZR b).
  { rewrite Ha. field. lra. }
  rewrite Hq. split.
  - assert (0 <= IZR (a mod b) / IZR b).
    { apply Rmult_le_pos; [lra|]. left. now apply Rinv_0_lt_compat. }
    lra.
  - assert (IZR (a mod b) / IZR b < 1).
    { apply Rmult_lt_reg_r with (IZR b); [lra|].
      unfold Rdiv. rewrite Rmult_assoc, Rinv_l by lra. lra. }
    lra.
Qed.

Lemma Math_floor_half (a : Z) : Math_floor (IZR a / 2) = (a / 2)%Z.
Proof. exact (Math_floor_div a 2 eq_refl). Qed.

Lemma Math_ceil_half (n : Z) : Math_ceil (IZR n / 2) = ((n + 1) / 2)%Z.
Proof.
  unfold Math_ceil, Zceil.
  replace (- (IZR n / 2)) with (IZR (- n) / IZR 2)
    by (rewrite opp_IZR; field).
  change (Zfloor (IZR (- n) / IZR 2)) with (Math_floor (IZR (- n) / IZR 2)).
  rewrite Math_floor_div by lia.
  Z.div_mod_to_equations. lia.
Qed.

Lemma js_rem_nonneg (a b : Z) :
  (0 <= a)%Z -> (0 < b)%Z -> js_rem a b = (a mod b)%Z.
Proof. intros Ha Hb. unfold js_rem. apply Z.rem_mod_nonneg; lia. Qed.

Lemma loop_indices_range (count i : Z) :
  In i (loop_indices count) <-> (0 <= i < count)%Z.
Proof.
  unfold loop_indices. rewrite in_map_iff. split.
  - intros [n [<- Hn]]. apply in_seq in Hn. lia.
  - intros Hi. exists (Z.to_nat i). split; [lia|]. apply in_seq. lia.
Qed.

Lemma loop_indices_nonpos (count : Z) :
  (count <= 0)%Z -> loop_indices count = [].
Proof.
  intros H. unfold loop_indices.
  replace (Z.to_nat count) with 0%nat by lia. reflexivity.
Qed.

Lemma for_push_length {A : Type} (count : Z) (body : Z -> A) :
  length (for_push count body) = Z.to_nat count.
Proof.
  unfold for_push, loop_indices. now rewrite !length_map, length_seq.
Qed.

Lemma for_push_nth {A : Type} (count i : Z) (body : Z -> A) :
  (0 <= i < count)%Z ->
  nth_error (for_push count body) (Z.to_nat i) = Some (body i).
Proof.
  intros Hi. unfold for_push, loop_indices.
  rewrite !nth_error_map, nth_error_seq.
  destruct (Nat.ltb_spec (Z.to_nat i) (Z.to_nat count)) as [_|Hge]; [|lia].
  cbn. now rewrite Z2Nat.id by lia.
Qed.

Lemma for_push_nonpos {A : Type} (count : Z) (body : Z -> A) :
  (count <= 0)%Z -> for_push count body = [].
Proof.
  intros H. unfold for_push. now rewrite loop_indices_nonpos.
Qed.

(** ** Tetrahedron bookkeeping *)

Lemma basePerFace_div (count : Z) : basePerFace count = (count / 4)%Z.
Proof. unfold basePerFace. now rewrite Math_floor_div. Qed.

Lemma itemsOnFace_nonneg (count f : Z) :
  (0 <= count)%Z ->
  itemsOnFace count f
  = (count / 4 + (if (f <? count mod 4)%Z then 1 else 0))%Z.
Proof.
  intros Hc. unfold itemsOnFace, remainder.
  rewrite basePerFace_div. change (Z.of_nat (length faces)) with 4%Z.
  now rewrite js_rem_nonneg by lia.
Qed.

Lemma faceTargets_length (count f : Z) :
  length (faceTargets count f) = Z.to_nat (itemsOnFace count f).
Proof.
  unfold faceTargets.
  destruct (Z.eqb_spec (itemsOnFace count f) 0) as [E|_].
  - now rewrite E.
  - destruct (nth (Z.to_nat f) faces (0, 0, 0)%nat) as [[aIdx bIdx] cIdx].
    apply for_push_length.
Qed.

Lemma generateTetraLayout_faces (count : Z) :
  generateTetraLayout count
  = faceTargets count 0 ++ faceTargets count 1
    ++ faceTargets count 2 ++ faceTargets count 3.
Proof.
  unfold generateTetraLayout, for_push.
  change (loop_indices (Z.of_nat (length faces))) with [0; 1; 2; 3]%Z.
  cbn [map concat]. now rewrite app_nil_r.
Qed.

Lemma generateTetraLayout_length (count : Z) :
  (0 <= count)%Z ->
  Z.of_nat (length (generateTetraLayout count)) = count.
Proof.
  intros Hc. rewrite generateTetraLayout_faces, !length_app.
  rewrite !faceTargets_length, !itemsOnFace_nonneg by assumption.
  pose proof (Z.div_mod count 4 ltac:(lia)) as Hdm.
  pose proof (Z.mod_pos_bound count 4 ltac:(lia)) as Hm.
  assert (Hq : (0 <= count / 4)%Z) by (apply Z.div_pos; lia).
  destruct (Z.ltb_spec 0 (count mod 4)), (Z.ltb_spec 1 (count mod 4)),
    (Z.ltb_spec 2 (count mod 4)), (Z.ltb_spec 3 (count mod 4)); lia.
Qed.

(** ** Layout generator *)

(** C1.  For every [count >= 0], [generateLayoutTargets count] returns, and
    under each of the five layout names the returned sequence has exactly
    [count] elements; for the tetrahedron the numbers of items pushed for
    the four faces add up to [count]. *)
Theorem layout_lengths (count : Z) :
  (0 <= count)%Z ->
  exists r,
    generateLayoutTargets count = Return r /\
    (forall name, Z.of_nat (length (layout_get r name)) = count) /\
    (Z.of_nat (length (faceTargets count 0))
     + Z.of_nat (length (faceTargets count 1))
     + Z.of_nat (length (faceTargets count 2))
     + Z.of_nat (length (faceTargets count 3)) = count)%Z.
Proof.
  intros Hc. eexists. split; [reflexivity|]. split.
  - intros []; cbn [layout_get lt_table lt_sphere lt_helix lt_grid lt_tetra].
    + unfold generateTableLayout. rewrite for_push_length. lia.
    + unfold generateSphereLayout. rewrite for_push_length. lia.
    + unfold generateHelixLayout. rewrite for_push_length. lia.
    + unfold generateGridLayout. rewrite for_push_length. lia.
    + now apply generateTetraLayout_length.
  - pose proof (generateTetraLayout_length count Hc) as H.
    rewrite generateTetraLayout_faces, !length_app in H. lia.
Qed.

Lemma layout_lengths_witness :
  exists r,
    generateLayoutTargets 7 = Return r /\
    (forall name, Z.of_nat (length (layout_get r name)) = 7%Z) /\
    (Z.of_nat (length (faceTargets 7 0))
     + Z.of_nat (length (faceTargets 7 1))
     + Z.of_nat (length (faceTargets 7 2))
     + Z.of_nat (length (faceTargets 7 3)) = 7)%Z.
Proof. apply (layout_lengths 7). lia. Defined.

(** C5, as the code has it.  A negative [count] is not rejected:
    [generateLayoutTargets] returns normally and every layout is empty. *)
Theorem negative_count_returns_empty (count : Z) :
  (count < 0)%Z ->
  generateLayoutTargets count = Return (mkLayoutTargets [] [] [] [] []).
Proof.
  intros Hc. unfold generateLayoutTargets. do 2 f_equal.
  - apply for_push_nonpos. lia.
  - apply for_push_nonpos. lia.
  - apply for_push_nonpos. lia.
  - apply for_push_nonpos. lia.
  - rewrite generateTetraLayout_faces.
    assert (Hf : forall f, faceTargets count f = []).
    { intros f. unfold faceTargets.
      destruct (Z.eqb_spec (itemsOnFace count f) 0) as [|_]; [reflexivity|].
      destruct (nth (Z.to_nat f) faces (0, 0, 0)%nat) as [[aIdx bIdx] cIdx].
      apply for_push_nonpos.
      unfold itemsOnFace. rewrite basePerFace_div.
      assert (count / 4 < 0)%Z by (apply Z.div_lt_upper_bound; lia).
      destruct (f <? remainder count)%Z; lia. }
    now rewrite !Hf.
Qed.

Lemma negative_count_returns_empty_witness :
  generateLayoutTargets (-1) = Return (mkLayoutTargets [] [] [] [] []).
Proof. apply (negative_count_returns_empty (-1)). lia. Defined.

(** C5, as stated, fails: at [count = -1] the call does not end in an
    [InvalidArgument] error. *)
Lemma negative_count_not_rejected :
  (-1 < 0)%Z /\ generateLayoutTargets (-1) <> Throw InvalidArgument.
Proof. split; [lia|]. unfold generateLayoutTargets. discriminate. Qed.

(** C6.  For [count = 0] the sphere, helix and tetrahedron generators return
    the empty sequence.  The per-item formula is not evaluated: a counting
    loop to [0] pushes nothing whatever its body is, the body of a loop to
    [count] runs at indices [0 <= i < count] only, so that the divisor
    [count] of the sphere formula is never zero, and a face with no item is
    skipped before the divisor [itemsOnFace] of the tetrahedron is used. *)
Theorem zero_count_skips_formula :
  generateSphereLayout 0 = [] /\
  generateHelixLayout 0 = [] /\
  generateTetraLayout 0 = [] /\
  (forall (A : Type) (body : Z -> A), for_push 0 body = []) /\
  (forall count i, In i (loop_indices count) -> IZR count <> 0) /\
  (forall count f i,
     In i (if (itemsOnFace count f =? 0)%Z then []
           else loop_indices (itemsOnFace count f)) ->
     IZR (itemsOnFace count f) <> 0).
Proof.
  split; [reflexivity|]. split; [reflexivity|]. split.
  - rewrite generateTetraLayout_faces.
    assert (Hf : forall f, (0 <= f)%Z -> faceTargets 0 f = []).
    { intros f Hf. unfold faceTargets.
      assert (E : itemsOnFace 0 f = 0%Z).
      { rewrite itemsOnFace_nonneg by lia. change (0 mod 4)%Z with 0%Z.
        destruct (Z.ltb_spec f 0); [lia|reflexivity]. }
      now rewrite E. }
    now rewrite !Hf by lia.
  - split; [reflexivity|]. split.
    + intros count i Hi. apply loop_indices_range in Hi.
      apply not_0_IZR. lia.
    + intros count f i Hi.
      destruct (Z.eqb_spec (itemsOnFace count f) 0) as [|Hn]; [destruct Hi|].
      now apply not_0_IZR.
Qed.

(** C7.  In the table layout, item [i < count] sits in column [i mod 20] and
    row [floor(i / 20)], at [x = (col - 20/2 + 0.5) * X_SPACING],
    [y = (10/2 - row - 0.5) * Y_SPACING], [z = 0], with identity rotation;
    for [count = 7], item 0 is at [x = (0 - 10 + 0.5) * X_SPACING],
    [y = (5 - 0 - 0.5) * Y_SPACING]. *)
Theorem table_layout_formula (count i : Z) :
  (0 <= i < count)%Z ->
  let col := (i mod 20)%Z in
  let row := (i / 20)%Z in
  nth_error (generateTableLayout count) (Z.to_nat i)
  = Some (mkObject3D
            (mkVector3 ((IZR col - 20 / 2 + 0.5) * TABLE.X_SPACING)
                       ((10 / 2 - IZR row - 0.5) * TABLE.Y_SPACING)
                       0)
            (RotationSet 0 0 0))
  /\ nth_error (generateTableLayout 7) 0
     = Some (mkObject3D
               (mkVector3 ((0 - 10 + 0.5) * TABLE.X_SPACING)
                          ((5 - 0 - 0.5) * TABLE.Y_SPACING)
                          0)
               (RotationSet 0 0 0)).
Proof.
  intros Hi col row.
  assert (Hgen : forall c j, (0 <= j < c)%Z ->
            nth_error (generateTableLayout c) (Z.to_nat j)
            = Some (mkObject3D
                      (mkVector3
                         ((IZR (j mod 20) - 20 / 2 + 0.5) * TABLE.X_SPACING)
                         ((10 / 2 - IZR (j / 20) - 0.5) * TABLE.Y_SPACING) 0)
                      (RotationSet 0 0 0))).
  { intros c j Hj. unfold generateTableLayout. rewrite for_push_nth by exact Hj.
    unfold tableTarget. rewrite Math_floor_div by reflexivity.
    rewrite js_rem_nonneg by (unfold TABLE.COLS; lia).
    reflexivity. }
  split; [now apply Hgen|].
  change 0%nat with (Z.to_nat 0). rewrite Hgen by lia.
  change (0 mod 20)%Z with 0%Z. change (0 / 20)%Z with 0%Z.
  do 3 f_equal; lra.
Qed.

Lemma table_layout_formula_witness :
  nth_error (generateTableLayout 30) (Z.to_nat 23)
  = Some (mkObject3D
            (mkVector3 ((IZR (23 mod 20) - 20 / 2 + 0.5) * TABLE.X_SPACING)
                       ((10 / 2 - IZR (23 / 20) - 0.5) * TABLE.Y_SPACING)
                       0)
            (RotationSet 0 0 0)).
Proof. apply (table_layout_formula 30 23). lia. Defined.

(** C8.  In the helix layout, item [i < count] lies on strand [i mod 2] at
    step [k = floor(i / 2)], at angle [k * TURN_ANGLE], plus [PI] on the odd
    strand, at radius [RADIUS + 20] on the even strand and [RADIUS - 20] on
    the odd one, with [x = radius * cos angle], [z = radius * sin angle] and
    [y = k * VERTICAL_STEP - centerOffset], where
    [centerOffset = (ceil(count / 2) - 1) * VERTICAL_STEP / 2]. *)
Theorem helix_layout_formula (count i : Z) :
  (0 <= i < count)%Z ->
  let strand := (i mod 2)%Z in
  let k := (i / 2)%Z in
  let ceil_half := ((count + 1) / 2)%Z in
  let angle := IZR k * HELIX.TURN_ANGLE + (if (strand =? 1)%Z then PI else 0) in
  let delta := 20 in
  let radius := HELIX.RADIUS + (if (strand =? 1)%Z then - delta else delta) in
  let centerOffset := (IZR ceil_half - 1) * HELIX.VERTICAL_STEP / 2 in
  exists t,
    nth_error (generateHelixLayout count) (Z.to_nat i) = Some t /\
    vx (position t) = radius * cos angle /\
    vz (position t) = radius * sin angle /\
    vy (position t) = IZR k * HELIX.VERTICAL_STEP - centerOffset.
Proof.
  intros Hi strand k ceil_half angle delta radius centerOffset.
  eexists. split.
  { unfold generateHelixLayout. apply for_push_nth. exact Hi. }
  unfold helixTarget, helixCenterOffset. cbn [position vx vy vz].
  rewrite Math_floor_half, Math_ceil_half, js_rem_nonneg by lia.
  fold strand k ceil_half.
  assert (Hs : (strand = 0 \/ strand = 1)%Z).
  { unfold strand. pose proof (Z.mod_pos_bound i 2 ltac:(lia)). lia. }
  unfold angle, radius, centerOffset, delta.
  destruct Hs as [-> | ->]; cbn [Z.eqb Pos.eqb]; repeat split;
    try reflexivity; f_equal; lra.
Qed.

Lemma helix_layout_formula_witness :
  exists t,
    nth_error (generateHelixLayout 9) (Z.to_nat 5) = Some t /\
    vx (position t)
    = (HELIX.RADIUS + (if (5 mod 2 =? 1)%Z then - 20 else 20))
      * cos (IZR (5 / 2) * HELIX.TURN_ANGLE
             + (if (5 mod 2 =? 1)%Z then PI else 0)) /\
    vz (position t)
    = (HELIX.RADIUS + (if (5 mod 2 =? 1)%Z then - 20 else 20))
      * sin (IZR (5 / 2) * HELIX.TURN_ANGLE
             + (if (5 mod 2 =? 1)%Z then PI else 0)) /\
    vy (position t)
    = IZR (5 / 2) * HELIX.VERTICAL_STEP
      - (IZR ((9 + 1) / 2) - 1) * HELIX.VERTICAL_STEP / 2.
Proof. apply (helix_layout_formula 9 5). lia. Defined.

(** C9.  For every [count >= 0] the tetrahedron layout is the items of face
    0, then of face 1, 2 and 3; each face receives [floor(count / 4)] items,
    and each of the first [count mod 4] faces one more; for [count = 4] each
    face receives exactly one item. *)
Theorem tetra_face_shares (count : Z) :
  (0 <= count)%Z ->
  generateTetraLayout count
  = faceTargets count 0 ++ faceTargets count 1
    ++ faceTargets count 2 ++ faceTargets count 3 /\
  (forall f, (0 <= f < 4)%Z ->
     Z.of_nat (length (faceTargets count f))
     = (count / 4 + (if (f <? count mod 4)%Z then 1 else 0))%Z) /\
  (forall f, (0 <= f < 4)%Z -> length (faceTargets 4 f) = 1%nat).
Proof.
  intros Hc. split; [apply generateTetraLayout_faces|].
  assert (Hlen : forall c f, (0 <= c)%Z ->
            Z.of_nat (length (faceTargets c f))
            = (c / 4 + (if (f <? c mod 4)%Z then 1 else 0))%Z).
  { intros c f Hc0. rewrite faceTargets_length, itemsOnFace_nonneg by assumption.
    assert (0 <= c / 4)%Z by (apply Z.div_pos; lia).
    destruct (f <? c mod 4)%Z; lia. }
  split.
  - intros f _. now apply Hlen.
  - intros f Hf. apply Nat2Z.inj. rewrite Hlen by lia.
    change (4 mod 4)%Z with 0%Z. change (4 / 4)%Z with 1%Z.
    destruct (Z.ltb_spec f 0); lia.
Qed.

Lemma tetra_face_shares_witness :
  generateTetraLayout 6
  = faceTargets 6 0 ++ faceTargets 6 1 ++ faceTargets 6 2 ++ faceTargets 6 3 /\
  (forall f, (0 <= f < 4)%Z ->
     Z.of_nat (length (faceTargets 6 f))
     = (6 / 4 + (if (f <? 6 mod 4)%Z then 1 else 0))%Z) /\
  (forall f, (0 <= f < 4)%Z -> length (faceTargets 4 f) = 1%nat).
Proof. apply (tetra_face_shares 6). lia. Defined.

(** ** Transition engine *)

(** *** Records and lists *)

Lemma World_eta (w : World) :
  mkWorld (poses w) (activeTweens w) (group w) (nextId w) (clock w) (console w)
  = w.
Proof. now destruct w. Qed.

Lemma Pose_eta (p : Pose) : mkPose (pose_position p) (pose_rotation p) = p.
Proof. now destruct p. Qed.

Lemma filter_twice {A : Type} (f g : A -> bool) (l : list A) :
  filter f (filter g l) = filter (fun x => g x && f x) l.
Proof.
  induction l as [|a l IH]; [reflexivity|]. cbn.
  destruct (g a); cbn; [destruct (f a)|]; now rewrite IH.
Qed.

Lemma filter_none {A : Type} (f : A -> bool) (l : list A) :
  (forall x, In x l -> f x = false) -> filter f l = [].
Proof.
  induction l as [|a l IH]; intros H; [reflexivity|]. cbn.
  rewrite (H a) by now left. apply IH. intros x Hx. apply H. now right.
Qed.

Lemma In_remove_first (id x : nat) (l : list nat) :
  In x (remove_first id l) -> In x l.
Proof.
  induction l as [|a l IH]; cbn; [tauto|].
  destruct (Nat.eqb a id); cbn; tauto.
Qed.

Lemma In_remove_first_other (id x : nat) (l : list nat) :
  x <> id -> In x l -> In x (remove_first id l).
Proof.
  intros Hne. induction l as [|a l IH]; cbn; [tauto|].
  destruct (Nat.eqb_spec a id) as [->|_]; cbn; intuition congruence.
Qed.

Lemma not_among_false (ids : list nat) (tw : Tween) :
  In (tween_id tw) ids -> not_among ids tw = false.
Proof.
  intros H. unfold not_among. induction ids as [|a ids IH]; [destruct H|].
  cbn. destruct H as [->|H].
  - now rewrite Nat.eqb_refl.
  - rewrite (IH H). apply andb_false_r.
Qed.

(** *** stopAllTweens *)

Lemma stop_each (ids : list nat) (w : World) :
  fold_left (fun acc id => Tween_stop id acc) ids w
  = set_group (filter (not_among ids) (group w)) w.
Proof.
  revert w. induction ids as [|id ids IH]; intros w.
  - cbn. unfold set_group.
    replace (filter (not_among []) (group w)) with (group w).
    + now rewrite World_eta.
    + symmetry. apply forallb_filter_id. now apply forallb_forall.
  - cbn [fold_left]. rewrite IH. unfold Tween_stop, Group_remove, set_group.
    cbn. now rewrite filter_twice.
Qed.

Lemma stopAllTweens_tracked (w : World) :
  World_ok w ->
  stopAllTweens w = mkWorld (poses w) [] [] (nextId w) (clock w) (console w).
Proof.
  intros [Htracked _]. unfold stopAllTweens. rewrite stop_each.
  unfold set_activeTweens, set_group. cbn. f_equal.
  apply filter_none. intros tw Htw. apply not_among_false. now apply Htracked.
Qed.

(** *** createTweensForObject and the loop over the items *)

Lemma createTweensForObject_spec (o : ObjRef) (t : Pose) (d : R) (w : World) :
  createTweensForObject o t d w
  = mkWorld (poses w)
            (activeTweens w ++ [nextId w; S (nextId w)])
            (group w
             ++ created_tweens (poses w) (clock w) d
                               (nextId w) [o] [t])
            (S (S (nextId w))) (clock w) (console w).
Proof.
  unfold createTweensForObject, Tween_start, set_activeTweens, set_nextId,
    set_group. cbn. now rewrite <- app_assoc.
Qed.

Lemma created_tweens_cons store now d id o items t ts :
  created_tweens store now d id (o :: items) (t :: ts)
  = created_tweens store now d id [o] [t]
    ++ created_tweens store now d (S (S id)) items ts.
Proof. reflexivity. Qed.

Lemma created_tweens_length store now d id items ts :
  length ts = length items ->
  length (created_tweens store now d id items ts) = (2 * length items)%nat.
Proof.
  revert id ts. induction items as [|o items IH]; intros id [|t ts] Hl;
    try discriminate; [reflexivity|].
  cbn [created_tweens length]. rewrite IH by (cbn in Hl; lia). lia.
Qed.

Lemma forEach_create_spec (items : list ObjRef) :
  forall (ts : list Pose) (k : nat) (tgts : list (option Pose)) (d : R)
         (w : World),
    length ts = length items ->
    (forall j t, nth_error ts j = Some t ->
                 nth_error tgts (k + j) = Some (Some t)) ->
    forEach_create (map Some items) k tgts d w
    = let created := created_tweens (poses w) (clock w) d
                                    (nextId w) items ts in
      mkWorld (poses w)
              (activeTweens w ++ map tween_id created)
              (group w ++ created)
              (nextId w + 2 * length items) (clock w) (console w).
Proof.
  induction items as [|o items IH]; intros ts k tgts d w Hl Hn.
  - destruct ts; [|discriminate]. cbn.
    rewrite !app_nil_r, Nat.add_0_r. symmetry. apply World_eta.
  - destruct ts as [|t ts]; [discriminate|].
    cbn [map forEach_create].
    pose proof (Hn 0%nat t eq_refl) as H0. rewrite Nat.add_0_r in H0.
    rewrite H0, createTweensForObject_spec.
    rewrite (IH ts); cbn [poses clock nextId activeTweens group console].
    + cbv zeta.
      rewrite (created_tweens_cons _ _ _ _ o items t ts), map_app, <- !app_assoc.
      cbn [length created_tweens map tween_id app]. f_equal. lia.
    + cbn in Hl. lia.
    + intros j t' Hj. replace (S k + j)%nat with (k + S j)%nat by lia.
      now apply Hn.
Qed.

Lemma transform_started (items : list ObjRef) (ts : list Pose)
    (duration : option R) (w : World) :
  World_ok w -> items <> [] -> length ts = length items ->
  transform (arrayOf items) (arrayOf ts) duration w
  = let created := created_tweens (poses w) (clock w)
                                  (effective_duration duration)
                                  (nextId w) items ts in
    (Return tt,
     mkWorld (poses w) (map tween_id created) created
             (nextId w + 2 * length items) (clock w) (console w)).
Proof.
  intros Hok Hne Hl. unfold transform, arrayOf. rewrite !length_map.
  destruct (Nat.eqb_spec (length items) 0) as [E|_].
  { destruct items; [congruence|discriminate]. }
  rewrite Hl, Nat.eqb_refl. cbn [negb].
  rewrite stopAllTweens_tracked by assumption.
  rewrite (forEach_create_spec items ts); [reflexivity|assumption|].
  intros j t Hj. cbn. rewrite nth_error_map, Hj. reflexivity.
Qed.

(** *** One advance over tweens that have run their course *)

Lemma Cubic_InOut_end : Cubic_InOut 1 = 1.
Proof.
  unfold Cubic_InOut. destruct (Rlt_dec (1 * 2) 1) as [H|_]; [lra|].
  cbv zeta. lra.
Qed.

Lemma interpolate_end (s e : Vector3) : interpolate s e 1 = e.
Proof. destruct s, e. unfold interpolate. cbn. f_equal; ring. Qed.

Lemma finished_due (d e : R) : 0 <= d <= e -> finished d e = true.
Proof.
  intros H. unfold finished.
  destruct (Req_dec_T d 0); [reflexivity|].
  destruct (Rle_dec d e); [reflexivity|lra].
Qed.

Lemma Tween_update_due (time : R) (tw : Tween) (w : World) :
  due time tw ->
  Tween_update time tw w
  = (onComplete (tween_id tw)
       (set_poses
          (write_pose (tween_object tw)
             (set_channel (tween_channel tw) (valuesEnd tw)
                          (poses w (tween_object tw)))
             (poses w)) w),
     false).
Proof.
  intros [Hs Hd]. unfold Tween_update.
  destruct (Rlt_dec time (startTime tw)) as [H|_]; [lra|].
  rewrite finished_due by exact Hd.
  assert (Hp : (if Req_dec_T (tween_duration tw) 0 then 1
                else Rmin 1 ((time - startTime tw) / tween_duration tw)) = 1).
  { destruct (Req_dec_T (tween_duration tw) 0) as [|Hn]; [reflexivity|].
    apply Rmin_left.
    apply Rmult_le_reg_r with (tween_duration tw); [lra|].
    unfold Rdiv. rewrite Rmult_assoc, Rinv_l by exact Hn. lra. }
  now rewrite Hp, Cubic_InOut_end, interpolate_end.
Qed.

Lemma Group_update_loop_due (time : R) (tws : list Tween) :
  Forall (due time) tws ->
  forall w,
    Group_update_loop time tws w
    = mkWorld (writes tws (poses w))
              (fold_left (fun l tw => remove_first (tween_id tw) l) tws
                         (activeTweens w))
              (filter (not_among (map tween_id tws)) (group w))
              (nextId w) (clock w) (console w).
Proof.
  induction 1 as [|tw tws Htw _ IH]; intros w.
  - cbn. replace (filter (not_among []) (group w)) with (group w).
    + symmetry. apply World_eta.
    + symmetry. apply forallb_filter_id. now apply forallb_forall.
  - cbn [Group_update_loop]. rewrite Tween_update_due by exact Htw.
    rewrite IH. unfold Group_remove, onComplete, set_group, set_activeTweens,
      set_poses. cbn. now rewrite filter_twice.
Qed.

Lemma remove_each_self (tws : list Tween) (l : list nat) :
  fold_left (fun l tw => remove_first (tween_id tw) l) tws
            (map tween_id tws ++ l) = l.
Proof.
  induction tws as [|tw tws IH]; [reflexivity|].
  cbn. now rewrite Nat.eqb_refl.
Qed.

Lemma created_tweens_due store now d id items ts time :
  now <= time -> 0 <= d <= time - now ->
  Forall (due time) (created_tweens store now d id items ts).
Proof.
  intros Hn Hd. revert id ts.
  induction items as [|o items IH]; intros id [|t ts]; cbn [created_tweens];
    try apply Forall_nil.
  apply Forall_cons; [unfold due; cbn; lra|].
  apply Forall_cons; [unfold due; cbn; lra|]. apply IH.
Qed.

Lemma writes_created store0 now d (items : list ObjRef) :
  forall (ts : list Pose) (id : nat) (store : ObjRef -> Pose),
    length ts = length items ->
    (forall o, ~ In o items ->
       writes (created_tweens store0 now d id items ts) store o = store o) /\
    (NoDup items ->
     forall i o t, nth_error items i = Some o -> nth_error ts i = Some t ->
       writes (created_tweens store0 now d id items ts) store o = t).
Proof.
  induction items as [|o0 items IH]; intros ts id store Hl.
  - split; [reflexivity|]. intros _ [|i] o t Hi; discriminate Hi.
  - destruct ts as [|t0 ts]; [discriminate|].
    cbn [created_tweens]. unfold writes. cbn [fold_left].
    cbn [tween_object tween_channel valuesEnd].
    set (store2 := write_pose o0 _ (write_pose o0 _ store)).
    assert (H0 : store2 o0 = t0).
    { unfold store2, write_pose. rewrite !Nat.eqb_refl. cbn. apply Pose_eta. }
    assert (Hother : forall o, o <> o0 -> store2 o = store o).
    { intros o Hne. unfold store2, write_pose.
      destruct (Nat.eqb_spec o o0); [contradiction|reflexivity]. }
    destruct (IH ts (S (S id)) store2 ltac:(cbn in Hl; lia)) as [IHout IHin].
    fold (writes (created_tweens store0 now d (S (S id)) items ts) store2).
    clearbody store2. split.
    + intros o Ho. rewrite IHout by (intros Hin; apply Ho; now right).
      apply Hother. intros ->. apply Ho. now left.
    + intros Hnd i o t Hi Ht. inversion Hnd as [|? ? Hnotin Hnd']; subst.
      destruct i as [|i]; cbn in Hi, Ht.
      * injection Hi as <-. injection Ht as <-.
        now rewrite IHout by exact Hnotin.
      * now apply (IHin Hnd' i).
Qed.

Lemma created_tweens_ids store now d (items : list ObjRef) :
  forall (ts : list Pose) (id x : nat),
    In x (map tween_id (created_tweens store now d id items ts)) ->
    (id <= x < id + 2 * length items)%nat.
Proof.
  induction items as [|o items IH]; intros [|t ts] id x Hx;
    try (now destruct Hx).
  cbn in Hx. destruct Hx as [<-|[<-|Hx]]; cbn [length]; try lia.
  apply IH in Hx. lia.
Qed.

Lemma created_tweens_nth store now d (items : list ObjRef) :
  forall (ts : list Pose) (id i : nat) (o : ObjRef) (t : Pose),
    nth_error items i = Some o -> nth_error ts i = Some t ->
    nth_error (created_tweens store now d id items ts) (2 * i)
    = Some (mkTween (id + 2 * i) o PositionOf (pose_position (store o))
                    (pose_position t) d now) /\
    nth_error (created_tweens store now d id items ts) (S (2 * i))
    = Some (mkTween (S (id + 2 * i)) o RotationOf (pose_rotation (store o))
                    (pose_rotation t) d now).
Proof.
  induction items as [|o0 items IH]; intros ts id i o t Hi Ht.
  - destruct i; discriminate Hi.
  - destruct ts as [|t0 ts]; [destruct i; discriminate Ht|].
    destruct i as [|i]; cbn in Hi, Ht.
    + injection Hi as <-. injection Ht as <-. cbn.
      now rewrite Nat.add_0_r.
    + destruct (IH ts (S (S id)) i o t Hi Ht) as [Hp Hr].
      replace (2 * S i)%nat with (S (S (2 * i))) by lia.
      cbn [created_tweens nth_error].
      replace (id + S (S (2 * i)))%nat with (S (S id) + 2 * i)%nat by lia.
      now split.
Qed.

(** After [transform] on a well-formed world, one advance at a time by which
    the duration has run out leaves every item at its target and no tween
    behind. *)
Lemma transform_then_due_update (items : list ObjRef) (ts : list Pose)
    (duration : option R) (w : World) (dt : R) :
  World_ok w -> items <> [] -> length ts = length items ->
  0 <= effective_duration duration <= dt ->
  update None (elapse dt (snd (transform (arrayOf items) (arrayOf ts) duration w)))
  = mkWorld
      (writes (created_tweens (poses w) (clock w) (effective_duration duration)
                              (nextId w) items ts) (poses w))
      [] [] (nextId w + 2 * length items) (clock w + dt) (console w).
Proof.
  intros Hok Hne Hl [Hd0 Hdt].
  rewrite transform_started by assumption. cbv zeta. cbn [snd].
  unfold update, TWEEN_update, elapse.
  cbn [clock group poses activeTweens nextId console].
  rewrite Group_update_loop_due by (apply created_tweens_due; lra).
  cbn [clock group poses activeTweens nextId console]. f_equal.
  - rewrite <- (app_nil_r (map tween_id _)) at 1. apply remove_each_self.
  - apply filter_none. intros tw Htw. apply not_among_false.
    now apply in_map.
Qed.

Lemma update_idle (time : option R) (w : World) :
  group w = [] -> update time w = w.
Proof. intros H. unfold update, TWEEN_update. now rewrite H. Qed.

(** *** The module invariant *)

Lemma initial_world_ok : World_ok initial_world.
Proof. split; intros ? []. Qed.

Lemma elapse_ok (dt : R) (w : World) : World_ok w -> World_ok (elapse dt w).
Proof. intros H. exact H. Qed.

Lemma log_ok (e : LogEntry) (w : World) : World_ok w -> World_ok (log e w).
Proof. intros H. exact H. Qed.

Lemma createTweensForObject_ok (o : ObjRef) (t : Pose) (d : R) (w : World) :
  World_ok w -> World_ok (createTweensForObject o t d w).
Proof.
  intros [Htr Hid]. rewrite createTweensForObject_spec. split; cbn.
  - intros tw Htw. apply in_app_iff in Htw. apply in_app_iff.
    destruct Htw as [Htw|[<-|[<-|[]]]]; cbn; auto.
  - intros id Hin. apply in_app_iff in Hin.
    destruct Hin as [Hin|[<-|[<-|[]]]]; [apply Hid in Hin|..]; lia.
Qed.

Lemma forEach_create_ok (objs : list (option ObjRef)) :
  forall (k : nat) (tgts : list (option Pose)) (d : R) (w : World),
    World_ok w -> World_ok (forEach_create objs k tgts d w).
Proof.
  induction objs as [|object objs IH]; intros k tgts d w Hok; [exact Hok|].
  cbn [forEach_create]. apply IH.
  destruct object as [o|]; [|now apply log_ok].
  destruct (nth_error tgts k) as [[t|]|]; try now apply log_ok.
  now apply createTweensForObject_ok.
Qed.

Lemma stopAllTweens_ok (w : World) : World_ok w -> World_ok (stopAllTweens w).
Proof.
  intros Hok. rewrite stopAllTweens_tracked by exact Hok.
  split; intros ? [].
Qed.

(** [transform] keeps the invariant, whatever it is called with. *)
Lemma transform_ok (objects : JsArg ObjRef) (targets : JsArg Pose)
    (duration : option R) (w : World) :
  World_ok w -> World_ok (snd (transform objects targets duration w)).
Proof.
  intros Hok. unfold transform.
  destruct objects as [|objs], targets as [|tgts]; try now apply log_ok.
  destruct (Nat.eqb (length objs) 0); [now apply log_ok|].
  destruct (negb (Nat.eqb (length objs) (length tgts))); [now apply log_ok|].
  cbn [snd]. apply forEach_create_ok. now apply stopAllTweens_ok.
Qed.

Lemma Tween_update_ok (time : R) (tw : Tween) (w : World) :
  World_ok w ->
  World_ok (if snd (Tween_update time tw w) then fst (Tween_update time tw w)
            else Group_remove (tween_id tw) (fst (Tween_update time tw w))).
Proof.
  intros [Htr Hid]. unfold Tween_update.
  destruct (Rlt_dec time (startTime tw)); [now split|].
  destruct (finished _ _); cbn [fst snd]; [|now split].
  split; cbn.
  - intros tw' Hin. apply filter_In in Hin. destruct Hin as [Hin Hne].
    apply In_remove_first_other; [|now apply Htr].
    intros E. rewrite E, Nat.eqb_refl in Hne. discriminate Hne.
  - intros id Hin. apply Hid. now apply In_remove_first in Hin.
Qed.

Lemma Group_update_loop_ok (time : R) (tws : list Tween) :
  forall w, World_ok w -> World_ok (Group_update_loop time tws w).
Proof.
  induction tws as [|tw tws IH]; intros w Hok; [exact Hok|].
  cbn [Group_update_loop].
  pose proof (Tween_update_ok time tw w Hok) as Hstep.
  destruct (Tween_update time tw w) as [w1 playing]. cbn [fst snd] in Hstep.
  now apply IH.
Qed.

(** [update] keeps the invariant. *)
Lemma update_ok (time : option R) (w : World) :
  World_ok w -> World_ok (update time w).
Proof. intros Hok. now apply Group_update_loop_ok. Qed.

(** *** Claims on [transform] *)

(** C3, as the code has it.  [transform] with duration 0 writes no pose: it
    starts one position tween and one rotation tween of duration 0 per item.
    The first update after it, however soon, puts every item exactly at its
    target in one step, with no interpolated pose in between, and leaves no
    tween behind; from then on an update changes nothing. *)
Theorem zero_duration_snaps_on_first_update
    (w : World) (items : list ObjRef) (ts : list Pose) (dt : R) :
  World_ok w -> NoDup items -> items <> [] -> length ts = length items ->
  0 <= dt ->
  let w1 := snd (transform (arrayOf items) (arrayOf ts) (Some 0) w) in
  let w2 := update None (elapse dt w1) in
  poses w1 = poses w /\
  group w1 = created_tweens (poses w) (clock w) 0 (nextId w) items ts /\
  length (group w1) = (2 * length items)%nat /\
  (forall i item t,
     nth_error items i = Some item -> nth_error ts i = Some t ->
     poses w2 item = t) /\
  group w2 = [] /\ activeTweens w2 = [] /\
  (forall time, update time w2 = w2).
Proof.
  intros Hok Hnd Hne Hl Hdt w1 w2.
  assert (E0 : effective_duration (Some 0) = 0).
  { reflexivity. }
  assert (H2 : w2 = update None (elapse dt w1)) by reflexivity.
  unfold w1 in H2.
  rewrite transform_then_due_update in H2
    by (try assumption; rewrite E0; lra).
  unfold w1. rewrite transform_started by assumption. cbv zeta.
  cbn [snd poses group]. rewrite E0.
  split; [reflexivity|]. split; [reflexivity|].
  split; [now apply created_tweens_length|].
  rewrite H2. cbn [poses group activeTweens]. split.
  - intros i item t Hi Ht. rewrite E0.
    now apply (proj2 (writes_created _ _ _ items ts _ _ Hl) Hnd i).
  - split; [reflexivity|]. split; [reflexivity|].
    intros time. now apply update_idle.
Qed.

Lemma zero_duration_snaps_on_first_update_witness :
  let t := mkPose (mkVector3 1 2 3) zero3 in
  let w1 := snd (transform (arrayOf [0%nat]) (arrayOf [t]) (Some 0)
                           initial_world) in
  let w2 := update None (elapse 16 w1) in
  poses w1 = poses initial_world /\
  poses w2 0%nat = t /\
  (forall time, update time w2 = w2).
Proof.
  intros t w1 w2.
  assert (Hok : World_ok initial_world) by (split; intros ? []).
  assert (Hnd : NoDup [0%nat]) by (constructor; [intros []|constructor]).
  assert (Hne : [0%nat] <> []) by discriminate.
  assert (Hd : 0 <= 16) by lra.
  destruct (zero_duration_snaps_on_first_update initial_world [0%nat] [t] 16
              Hok Hnd Hne eq_refl Hd) as (H1 & _ & _ & H2 & _ & _ & H3).
  split; [exact H1|]. split; [|exact H3].
  exact (H2 0%nat 0%nat t eq_refl eq_refl).
Defined.

(** C3, as stated, fails: after [transform] with duration 0 the item is not
    at its target, and the next update is not a no-op for it. *)
Lemma zero_duration_not_immediate :
  let t := mkPose (mkVector3 1 2 3) zero3 in
  let w1 := snd (transform (arrayOf [0%nat]) (arrayOf [t]) (Some 0)
                           initial_world) in
  poses w1 0%nat <> t /\
  poses (update None w1) 0%nat <> poses w1 0%nat.
Proof.
  intros t w1.
  assert (Hok : World_ok initial_world) by (split; intros ? []).
  assert (E0 : effective_duration (Some 0) = 0).
  { reflexivity. }
  assert (P1 : poses w1 0%nat = mkPose zero3 zero3).
  { unfold w1. now rewrite transform_started. }
  assert (P2 : poses (update None w1) 0%nat = t).
  { replace w1 with (elapse 0 w1).
    - unfold w1. rewrite transform_then_due_update;
        [reflexivity|exact Hok|discriminate|reflexivity|rewrite E0; lra].
    - unfold elapse. rewrite Rplus_0_r. apply World_eta. }
  rewrite P1, P2. split; intros E; injection E as E; lra.
Qed.

(** C4, as the code has it.  When the two arrays differ in length,
    [transform] returns normally: it logs one warning to the console (that
    there are no objects when [objects] is empty, the mismatch otherwise)
    and changes neither a pose nor a tween. *)
Theorem mismatched_lengths_warn_only
    (objs : list (option ObjRef)) (tgts : list (option Pose))
    (duration : option R) (w : World) :
  length objs <> length tgts ->
  let r := transform (JsArray objs) (JsArray tgts) duration w in
  fst r = Return tt /\
  snd r = log (if Nat.eqb (length objs) 0 then WarnNoObjects
               else WarnMismatch (length objs) (length tgts)) w /\
  poses (snd r) = poses w /\
  activeTweens (snd r) = activeTweens w /\
  group (snd r) = group w.
Proof.
  intros Hne r. unfold r, transform.
  destruct (Nat.eqb (length objs) 0); [now repeat split|].
  destruct (Nat.eqb_spec (length objs) (length tgts)) as [E|_];
    [contradiction|]. now repeat split.
Qed.

Lemma mismatched_lengths_warn_only_witness :
  let p1 := mkPose (mkVector3 1 0 0) zero3 in
  let r := transform (JsArray [Some 0%nat; Some 1%nat]) (JsArray [Some p1])
                     (Some 1000) initial_world in
  fst r = Return tt /\
  snd r = log (WarnMismatch 2 1) initial_world /\
  poses (snd r) = poses initial_world /\
  activeTweens (snd r) = activeTweens initial_world /\
  group (snd r) = group initial_world.
Proof.
  intros p1.
  apply (mismatched_lengths_warn_only [Some 0%nat; Some 1%nat] [Some p1]
           (Some 1000) initial_world).
  cbn. lia.
Defined.

(** C4, as stated, fails: with two items and one target the call does not
    end in a [MismatchedLength] error. *)
Lemma mismatched_lengths_not_thrown :
  let p1 := mkPose (mkVector3 1 0 0) zero3 in
  length [0%nat; 1%nat] <> length [p1] /\
  fst (transform (arrayOf [0%nat; 1%nat]) (arrayOf [p1]) (Some 1000)
                 initial_world)
  <> Throw MismatchedLength.
Proof. intros p1. split; cbn; discriminate. Qed.

(** C10.  A call of [transform] that gets past its guards (arrays of the
    same non-zero length, no hole) stops every tween of the active set,
    whatever object it animates, and leaves as active set, in the module
    and in the engine, exactly the tweens it created: for the item at
    index [i], a position tween and a rotation tween toward its target. *)
Theorem transform_replaces_active_set
    (w : World) (items : list ObjRef) (ts : list Pose) (duration : option R) :
  World_ok w -> items <> [] -> length ts = length items ->
  let r := transform (arrayOf items) (arrayOf ts) duration w in
  let d := effective_duration duration in
  let created := created_tweens (poses w) (clock w) d (nextId w) items ts in
  fst r = Return tt /\
  activeTweens (snd r) = map tween_id created /\
  group (snd r) = created /\
  length created = (2 * length items)%nat /\
  (forall i o t,
     nth_error items i = Some o -> nth_error ts i = Some t ->
     nth_error created (2 * i)
     = Some (mkTween (nextId w + 2 * i) o PositionOf
                     (pose_position (poses w o)) (pose_position t) d (clock w))
     /\
     nth_error created (S (2 * i))
     = Some (mkTween (S (nextId w + 2 * i)) o RotationOf
                     (pose_rotation (poses w o)) (pose_rotation t) d (clock w)))
  /\
  (forall id, In id (activeTweens w) -> ~ In id (activeTweens (snd r))) /\
  (forall tw, In tw (group w) ->
     ~ In tw (group (snd r)) /\ ~ In (tween_id tw) (activeTweens (snd r))).
Proof.
  intros Hok Hne Hl r d created. unfold r.
  rewrite transform_started by assumption. cbv zeta.
  cbn [fst snd activeTweens group]. fold d. fold created.
  assert (Hfresh : forall id, In id (activeTweens w) ->
                              ~ In id (map tween_id created)).
  { intros id Hin Hnew. apply (proj2 Hok) in Hin.
    apply created_tweens_ids in Hnew. lia. }
  repeat split.
  - now apply created_tweens_length.
  - now apply created_tweens_nth.
  - now apply created_tweens_nth.
  - exact Hfresh.
  - intros Hin. apply (Hfresh (tween_id tw)).
    + now apply (proj1 Hok).
    + now apply in_map.
  - apply Hfresh. now apply (proj1 Hok).
Qed.

Lemma transform_replaces_active_set_witness :
  let a := mkPose (mkVector3 1 0 0) zero3 in
  let b := mkPose (mkVector3 0 1 0) zero3 in
  let busy := snd (transform (arrayOf [7%nat]) (arrayOf [a]) None
                             initial_world) in
  let r := transform (arrayOf [0%nat; 1%nat]) (arrayOf [a; b]) (Some 500)
                     busy in
  activeTweens busy = [0%nat; 1%nat] /\
  map tween_object (group busy) = [7%nat; 7%nat] /\
  activeTweens (snd r) = [2%nat; 3%nat; 4%nat; 5%nat] /\
  map tween_id (group (snd r)) = [2%nat; 3%nat; 4%nat; 5%nat] /\
  map tween_object (group (snd r)) = [0%nat; 0%nat; 1%nat; 1%nat].
Proof.
  intros a b busy r.
  assert (Hok0 : World_ok initial_world) by (split; intros ? []).
  assert (Hbusy : World_ok busy) by (unfold busy; now apply transform_ok).
  assert (Hne : [0%nat; 1%nat] <> []) by discriminate.
  destruct (transform_replaces_active_set busy [0%nat; 1%nat] [a; b]
              (Some 500) Hbusy Hne eq_refl) as (_ & Ha & Hg & _).
  split; [reflexivity|]. split; [reflexivity|].
  split; [etransitivity; [exact Ha|reflexivity]|].
  split; (etransitivity; [|reflexivity]).
  - exact (f_equal (map tween_id) Hg).
  - exact (f_equal (map tween_object) Hg).
Defined.

(** ** The definitions at work *)

Example loop_indices_3 : loop_indices 3 = [0; 1; 2]%Z.
Proof. reflexivity. Qed.

Example loop_indices_negative : loop_indices (-2) = [].
Proof. reflexivity. Qed.

Lemma hammersley_loop_step (t : Z) (i p : R) :
  (0 < t)%Z ->
  hammersley_loop t i p
  = hammersley_loop (t / 2) (i * 0.5) (p + IZR (t mod 2) * i).
Proof.
  intros Ht. rewrite (hammersley_loop_equation_1 t).
  destruct (Z_gt_dec t 0) as [Hgt|H]; [|lia].
  rewrite hammersley_loop_clause_1_equation_1.
  now rewrite Math_floor_half, js_rem_nonneg by lia.
Qed.

Lemma hammersley_loop_stop (i p : R) : hammersley_loop 0 i p = p.
Proof. now simp hammersley_loop. Qed.

(** The radical inverse of 3 (binary 11) is 0.11 in binary. *)
Example hammersley_3_of_4 : hammersley 3 4 = (3 / 4, 3 / 4).
Proof.
  unfold hammersley. f_equal.
  rewrite hammersley_loop_step by lia. change (3 / 2)%Z with 1%Z.
  rewrite hammersley_loop_step by lia. change (1 / 2)%Z with 0%Z.
  rewrite hammersley_loop_stop.
  change (3 mod 2)%Z with 1%Z. change (1 mod 2)%Z with 1%Z. lra.
Qed.

Example itemsOnFace_6 : map (itemsOnFace 6) [0; 1; 2; 3]%Z = [2; 2; 1; 1]%Z.
Proof. cbn [map]. now rewrite !itemsOnFace_nonneg by lia. Qed.

Example itemsOnFace_negative : itemsOnFace (-1) 0 = (-1)%Z.
Proof. unfold itemsOnFace. now rewrite basePerFace_div. Qed.

Example Cubic_InOut_start : Cubic_InOut 0 = 0.
Proof.
  unfold Cubic_InOut. destruct (Rlt_dec (0 * 2) 1); cbv zeta; lra.
Qed.

Example Cubic_InOut_middle : Cubic_InOut (1 / 2) = 1 / 2.
Proof.
  unfold Cubic_InOut. destruct (Rlt_dec (1 / 2 * 2) 1); cbv zeta; lra.
Qed.

Example remove_first_once : remove_first 4 [3; 4; 5; 4]%nat = [3; 5; 4]%nat.
Proof. reflexivity. Qed.

(** A tween half way: the position is the midpoint and the tween goes on
    playing. *)
Example Tween_update_half_way :
  let tw := mkTween 0%nat 0%nat PositionOf zero3 (mkVector3 10 20 30) 1000 0 in
  let w := mkWorld (fun _ => mkPose zero3 zero3) [0%nat] [tw] 1%nat 500 [] in
  let w' := update None w in
  pose_position (poses w' 0%nat) = mkVector3 5 10 15 /\ group w' = [tw].
Proof.
  intros tw w w'. unfold w', update, TWEEN_update. cbn [clock group w].
  cbn [Group_update_loop]. unfold Tween_update. cbn [startTime tween_duration tw].
  destruct (Rlt_dec 500 0) as [H|_]; [lra|].
  assert (Hf : finished 1000 (500 - 0) = false).
  { unfold finished. destruct (Req_dec_T 1000 0); [lra|].
    destruct (Rle_dec 1000 (500 - 0)); [lra|reflexivity]. }
  rewrite Hf.
  destruct (Req_dec_T 1000 0) as [H|_]; [lra|].
  replace (Rmin 1 ((500 - 0) / 1000)) with (1 / 2)
    by (rewrite Rmin_right; lra).
  rewrite Cubic_InOut_middle. split; [|reflexivity].
  cbn. unfold interpolate. cbn. f_equal; lra.
Qed.

(** The start of [main.js]: the table layout is generated for the loaded
    items and handed to [transform] with duration 0; the first frame finds
    every item on its table cell, unrotated. *)
Lemma initial_table_layout_reached
    (euler : Vector3 -> Vector3 -> Vector3) (n : nat) (w : World) (dt : R)
    (i : Z) :
  World_ok w -> (0 <= i < Z.of_nat n)%Z -> 0 <= dt ->
  let objects := seq 0 n in
  let targets := map (pose_of euler) (generateTableLayout (Z.of_nat n)) in
  let w1 := snd (transform (arrayOf objects) (arrayOf targets) (Some 0) w) in
  poses (update None (elapse dt w1)) (Z.to_nat i)
  = mkPose (position (tableTarget i)) zero3.
Proof.
  intros Hok Hi Hdt objects targets w1.
  assert (Hl : length targets = length objects).
  { unfold targets, objects, generateTableLayout.
    rewrite length_map, for_push_length, length_seq. lia. }
  assert (Hne : objects <> []).
  { unfold objects. destruct n; [lia|discriminate]. }
  assert (E0 : effective_duration (Some 0) = 0).
  { reflexivity. }
  unfold w1. rewrite transform_then_due_update
    by (try assumption; rewrite E0; lra).
  cbn [poses].
  apply (proj2 (writes_created _ _ _ objects targets _ _ Hl)
               (seq_NoDup n 0) (Z.to_nat i)).
  - unfold objects. rewrite nth_error_seq.
    destruct (Nat.ltb_spec (Z.to_nat i) n); [reflexivity|lia].
  - unfold targets, generateTableLayout.
    rewrite nth_error_map, for_push_nth by exact Hi. reflexivity.
Qed.

(** * Further properties of the code *)

(** ** layouts.js: where the items go *)

(** X1.  In the grid layout, item [i < count] occupies the lattice cell
    [(i mod 5, floor(i / 5) mod 4, floor(i / 20))], centred like the table:
    the depth index grows with [i] and is not wrapped at [Z_COUNT]. *)
Theorem grid_layout_formula (count i : Z) :
  (0 <= i < count)%Z ->
  let cx := (i mod 5)%Z in
  let cy := ((i / 5) mod 4)%Z in
  let cz := (i / 20)%Z in
  nth_error (generateGridLayout count) (Z.to_nat i)
  = Some (mkObject3D
            (mkVector3 ((IZR cx - 5 / 2 + 0.5) * GRID.X_SPACING)
                       ((4 / 2 - IZR cy - 0.5) * GRID.Y_SPACING)
                       ((IZR cz - 10 / 2 + 0.5) * GRID.Z_SPACING))
            (RotationSet 0 0 0)).
Proof.
  intros Hi cx cy cz. unfold generateGridLayout.
  rewrite for_push_nth by exact Hi. unfold gridTarget.
  rewrite <- mult_IZR, !Math_floor_div by reflexivity.
  assert (Hq : (0 <= i / GRID.X_COUNT)%Z) by (apply Z.div_pos; [lia|reflexivity]).
  rewrite !js_rem_nonneg by (try exact Hq; try reflexivity; lia).
  reflexivity.
Qed.

Lemma grid_layout_formula_witness :
  nth_error (generateGridLayout 250) (Z.to_nat 237)
  = Some (mkObject3D
            (mkVector3 ((IZR (237 mod 5) - 5 / 2 + 0.5) * GRID.X_SPACING)
                       ((4 / 2 - IZR ((237 / 5) mod 4) - 0.5) * GRID.Y_SPACING)
                       ((IZR (237 / 20) - 10 / 2 + 0.5) * GRID.Z_SPACING))
            (RotationSet 0 0 0)).
Proof. apply (grid_layout_formula 250 237). lia. Defined.

Lemma tableTarget_position (i : Z) :
  (0 <= i)%Z ->
  position (tableTarget i)
  = mkVector3 ((IZR (i mod 20) - 20 / 2 + 0.5) * 250)
              ((10 / 2 - IZR (i / 20) - 0.5) * 320) 0.
Proof.
  intros Hi. unfold tableTarget. cbn [position].
  rewrite Math_floor_div by reflexivity.
  rewrite js_rem_nonneg by (unfold TABLE.COLS; lia). reflexivity.
Qed.

(** X2.  The table layout puts no two items at the same place, however
    many items there are: rows past the tenth go on below. *)
Theorem table_layout_injective (count i j : Z) (a b : Object3D) :
  (0 <= i < count)%Z -> (0 <= j < count)%Z -> i <> j ->
  nth_error (generateTableLayout count) (Z.to_nat i) = Some a ->
  nth_error (generateTableLayout count) (Z.to_nat j) = Some b ->
  position a <> position b.
Proof.
  intros Hi Hj Hne Ha Hb Hp. apply Hne. unfold generateTableLayout in Ha, Hb.
  rewrite for_push_nth in Ha, Hb by assumption.
  injection Ha as <-. injection Hb as <-.
  rewrite !tableTarget_position in Hp by lia.
  injection Hp as Hx Hy.
  assert (Hm : (i mod 20 = j mod 20)%Z) by (apply eq_IZR; lra).
  assert (Hq : (i / 20 = j / 20)%Z) by (apply eq_IZR; lra).
  rewrite (Z.div_mod i 20), (Z.div_mod j 20) by lia. now rewrite Hm, Hq.
Qed.

Lemma table_layout_injective_witness :
  (3 <> 223)%Z /\ position (tableTarget 3) <> position (tableTarget 223).
Proof.
  split; [lia|].
  apply (table_layout_injective 300 3 223); try lia.
  - apply (for_push_nth 300 3 tableTarget). lia.
  - apply (for_push_nth 300 223 tableTarget). lia.
Defined.

Lemma gridTarget_position (i : Z) :
  (0 <= i)%Z ->
  position (gridTarget i)
  = mkVector3 ((IZR (i mod 5) - 5 / 2 + 0.5) * 250)
              ((4 / 2 - IZR ((i / 5) mod 4) - 0.5) * 320)
              ((IZR (i / 20) - 10 / 2 + 0.5) * 250).
Proof.
  intros Hi. unfold gridTarget. cbn [position].
  rewrite <- mult_IZR, !Math_floor_div by reflexivity.
  assert (Hq : (0 <= i / GRID.X_COUNT)%Z) by (apply Z.div_pos; [lia|reflexivity]).
  rewrite !js_rem_nonneg by (try exact Hq; try reflexivity; lia).
  reflexivity.
Qed.

(** X3.  The grid layout puts no two items at the same place, however many
    items there are: layers past the tenth go on behind. *)
Theorem grid_layout_injective (count i j : Z) (a b : Object3D) :
  (0 <= i < count)%Z -> (0 <= j < count)%Z -> i <> j ->
  nth_error (generateGridLayout count) (Z.to_nat i) = Some a ->
  nth_error (generateGridLayout count) (Z.to_nat j) = Some b ->
  position a <> position b.
Proof.
  intros Hi Hj Hne Ha Hb Hp. apply Hne. unfold generateGridLayout in Ha, Hb.
  rewrite for_push_nth in Ha, Hb by assumption.
  injection Ha as <-. injection Hb as <-.
  rewrite !gridTarget_position in Hp by lia.
  injection Hp as Hx Hy Hz.
  assert (Hcx : (i mod 5 = j mod 5)%Z) by (apply eq_IZR; lra).
  assert (Hcy : ((i / 5) mod 4 = (j / 5) mod 4)%Z) by (apply eq_IZR; lra).
  assert (Hcz : (i / 20 = j / 20)%Z) by (apply eq_IZR; lra).
  clear Hx Hy Hz Hne. Z.div_mod_to_equations. lia.
Qed.

Lemma grid_layout_injective_witness :
  (7 <> 207)%Z /\ position (gridTarget 7) <> position (gridTarget 207).
Proof.
  split; [lia|].
  apply (grid_layout_injective 300 7 207); try lia.
  - apply (for_push_nth 300 7 gridTarget). lia.
  - apply (for_push_nth 300 207 gridTarget). lia.
Defined.

(** X4.  Every target of the sphere layout lies on the sphere of radius
    [RADIUS] about the origin and looks at the origin; the heights [z] are
    evenly spaced, from [-RADIUS] for the first item upward. *)
Theorem sphere_layout_on_sphere (count i : Z) :
  (0 <= i < count)%Z ->
  exists t,
    nth_error (generateSphereLayout count) (Z.to_nat i) = Some t /\
    dot (position t) (position t) = SPHERE.RADIUS * SPHERE.RADIUS /\
    vz (position t) = SPHERE.RADIUS * (-1 + 2 * IZR i / IZR count) /\
    orientation t = LookAt (position t) (mkVector3 0 0 0).
Proof.
  intros Hi. eexists. split.
  { unfold generateSphereLayout. apply for_push_nth. exact Hi. }
  unfold sphereTarget. cbn [position orientation vx vy vz]. unfold dot.
  cbn [vx vy vz]. split; [|split; [|reflexivity]].
  - set (phi := acos _). set (theta := sqrt _ * phi).
    pose proof (sin2_cos2 phi) as Hphi. pose proof (sin2_cos2 theta) as Hth.
    unfold Rsqr in Hphi, Hth.
    replace (SPHERE.RADIUS * cos theta * sin phi
             * (SPHERE.RADIUS * cos theta * sin phi)
             + SPHERE.RADIUS * sin theta * sin phi
               * (SPHERE.RADIUS * sin theta * sin phi)
             + SPHERE.RADIUS * cos phi * (SPHERE.RADIUS * cos phi))
      with (SPHERE.RADIUS * SPHERE.RADIUS
            * ((sin theta * sin theta + cos theta * cos theta)
               * (sin phi * sin phi) + cos phi * cos phi)) by ring.
    rewrite Hth, Rmult_1_l, Hphi. ring.
  - assert (Hc : 0 < IZR count) by (apply IZR_lt; lia).
    assert (Hi0 : 0 <= IZR i) by (apply IZR_le; lia).
    assert (Hic : IZR i < IZR count) by (apply IZR_lt; lia).
    assert (Hq : 0 <= IZR i / IZR count < 1).
    { split.
      - apply Rmult_le_pos; [exact Hi0|]. left. now apply Rinv_0_lt_compat.
      - apply Rmult_lt_reg_r with (IZR count); [exact Hc|].
        unfold Rdiv. rewrite Rmult_assoc, Rinv_l by lra. lra. }
    rewrite cos_acos; [f_equal; lra|].
    replace (2 * IZR i / IZR count) with (2 * (IZR i / IZR count)) by
      (unfold Rdiv; ring).
    lra.
Qed.

Lemma sphere_layout_on_sphere_witness :
  exists t,
    nth_error (generateSphereLayout 12) (Z.to_nat 5) = Some t /\
    dot (position t) (position t) = SPHERE.RADIUS * SPHERE.RADIUS /\
    vz (position t) = SPHERE.RADIUS * (-1 + 2 * IZR 5 / IZR 12) /\
    orientation t = LookAt (position t) (mkVector3 0 0 0).
Proof. apply (sphere_layout_on_sphere 12 5). lia. Defined.

Lemma helixTarget_position (count i : Z) :
  (0 <= i)%Z ->
  let even := (i mod 2 =? 0)%Z in
  let angle := IZR (i / 2) * HELIX.TURN_ANGLE + (if even then 0 else PI) in
  let radius := HELIX.RADIUS + (if even then 20 else -20) in
  position (helixTarget count i)
  = mkVector3 (radius * cos angle)
              (IZR (i / 2) * HELIX.VERTICAL_STEP
               - (IZR ((count + 1) / 2) - 1) * HELIX.VERTICAL_STEP / 2)
              (radius * sin angle).
Proof.
  intros Hi even angle radius.
  unfold helixTarget, helixCenterOffset. cbn [position].
  rewrite Math_floor_half, Math_ceil_half, js_rem_nonneg by lia.
  reflexivity.
Qed.

(** X5.  Every target of the helix lies at distance [RADIUS + 20] (even
    index) or [RADIUS - 20] (odd index) from the vertical axis, and looks at
    the point of that axis at its own height. *)
Theorem helix_layout_around_axis (count i : Z) :
  (0 <= i < count)%Z ->
  exists t,
    nth_error (generateHelixLayout count) (Z.to_nat i) = Some t /\
    (let r := if (i mod 2 =? 0)%Z then HELIX.RADIUS + 20 else HELIX.RADIUS - 20 in
     vx (position t) * vx (position t) + vz (position t) * vz (position t)
     = r * r) /\
    orientation t = LookAt (position t) (mkVector3 0 (vy (position t)) 0).
Proof.
  intros Hi. eexists. split.
  { unfold generateHelixLayout. apply for_push_nth. exact Hi. }
  split; [|reflexivity].
  rewrite helixTarget_position by lia. cbv zeta. cbn [vx vz].
  set (a := IZR (i / 2) * HELIX.TURN_ANGLE + _).
  pose proof (sin2_cos2 a) as Ha. unfold Rsqr in Ha.
  destruct (i mod 2 =? 0)%Z.
  - replace (_ + _) with ((HELIX.RADIUS + 20) * (HELIX.RADIUS + 20)
                          * (sin a * sin a + cos a * cos a)) by ring.
    rewrite Ha. ring.
  - replace (_ + _) with ((HELIX.RADIUS + -20) * (HELIX.RADIUS + -20)
                          * (sin a * sin a + cos a * cos a)) by ring.
    rewrite Ha. ring.
Qed.

Lemma helix_layout_around_axis_witness :
  exists t,
    nth_error (generateHelixLayout 9) (Z.to_nat 4) = Some t /\
    (let r := if (4 mod 2 =? 0)%Z then HELIX.RADIUS + 20 else HELIX.RADIUS - 20 in
     vx (position t) * vx (position t) + vz (position t) * vz (position t)
     = r * r) /\
    orientation t = LookAt (position t) (mkVector3 0 (vy (position t)) 0).
Proof. apply (helix_layout_around_axis 9 4). lia. Defined.

(** X6.  The helix is centred vertically: its first item is the lowest, its
    last item the highest, and the two are at opposite heights. *)
Theorem helix_layout_centred (count : Z) :
  (1 <= count)%Z ->
  exists first last,
    nth_error (generateHelixLayout count) 0 = Some first /\
    nth_error (generateHelixLayout count) (Z.to_nat (count - 1)) = Some last /\
    vy (position first) = - vy (position last) /\
    (forall i t,
       (0 <= i < count)%Z ->
       nth_error (generateHelixLayout count) (Z.to_nat i) = Some t ->
       vy (position first) <= vy (position t) <= vy (position last)).
Proof.
  intros Hc. exists (helixTarget count 0), (helixTarget count (count - 1)).
  unfold generateHelixLayout.
  split; [apply (for_push_nth count 0); lia|].
  split; [apply for_push_nth; lia|].
  assert (Hlast : ((count - 1) / 2 = (count + 1) / 2 - 1)%Z)
    by (Z.div_mod_to_equations; lia).
  rewrite !helixTarget_position by lia. cbv zeta. cbn [vy].
  change (0 / 2)%Z with 0%Z. rewrite Hlast, minus_IZR.
  unfold HELIX.VERTICAL_STEP. split; [lra|].
  intros i t Hi Ht. rewrite for_push_nth in Ht by exact Hi.
  injection Ht as <-. rewrite helixTarget_position by lia. cbv zeta. cbn [vy].
  assert (H0 : 0 <= IZR (i / 2)) by (apply IZR_le; apply Z.div_pos; lia).
  assert (H1 : IZR (i / 2) <= IZR ((count + 1) / 2) - 1).
  { rewrite <- minus_IZR. apply IZR_le. Z.div_mod_to_equations. lia. }
  unfold HELIX.VERTICAL_STEP. lra.
Qed.

Lemma helix_layout_centred_witness :
  exists first last,
    nth_error (generateHelixLayout 9) 0 = Some first /\
    nth_error (generateHelixLayout 9) (Z.to_nat (9 - 1)) = Some last /\
    vy (position first) = - vy (position last) /\
    (forall i t,
       (0 <= i < 9)%Z ->
       nth_error (generateHelixLayout 9) (Z.to_nat i) = Some t ->
       vy (position first) <= vy (position t) <= vy (position last)).
Proof. apply (helix_layout_centred 9). lia. Defined.

(** X7.  The helix puts no two items at the same place: two steps differ in
    height, and the two strands of one step are on opposite sides of the
    axis. *)
Theorem helix_layout_injective (count i j : Z) (a b : Object3D) :
  (0 <= i < count)%Z -> (0 <= j < count)%Z -> i <> j ->
  nth_error (generateHelixLayout count) (Z.to_nat i) = Some a ->
  nth_error (generateHelixLayout count) (Z.to_nat j) = Some b ->
  position a <> position b.
Proof.
  intros Hi Hj Hne Ha Hb Hp. unfold generateHelixLayout in Ha, Hb.
  rewrite for_push_nth in Ha, Hb by assumption.
  injection Ha as <-. injection Hb as <-.
  rewrite !helixTarget_position in Hp by lia. cbv zeta in Hp.
  injection Hp as Hx Hy Hz.
  assert (Hk : (i / 2 = j / 2)%Z).
  { apply eq_IZR. unfold HELIX.VERTICAL_STEP in Hy. lra. }
  rewrite Hk in Hx, Hz.
  pose proof (sin2_cos2 (IZR (j / 2) * HELIX.TURN_ANGLE)) as Hsc.
  unfold Rsqr in Hsc. unfold HELIX.RADIUS in Hx, Hz.
  destruct (Z.eqb_spec (i mod 2) 0) as [Ei|Ei],
           (Z.eqb_spec (j mod 2) 0) as [Ej|Ej].
  - apply Hne. Z.div_mod_to_equations. lia.
  - rewrite Rplus_0_r, neg_cos in Hx. rewrite Rplus_0_r, neg_sin in Hz. nra.
  - rewrite Rplus_0_r, neg_cos in Hx. rewrite Rplus_0_r, neg_sin in Hz. nra.
  - apply Hne. Z.div_mod_to_equations. lia.
Qed.

Lemma helix_layout_injective_witness :
  (4 <> 5)%Z /\ position (helixTarget 9 4) <> position (helixTarget 9 5).
Proof.
  split; [lia|].
  apply (helix_layout_injective 9 4 5); try lia.
  - apply (for_push_nth 9 4 (helixTarget 9)). lia.
  - apply (for_push_nth 9 5 (helixTarget 9)). lia.
Defined.

(** ** layouts.js: the tetrahedron *)

Lemma hammersley_loop_nonpos (t : Z) (i p : R) :
  (t <= 0)%Z -> hammersley_loop t i p = p.
Proof.
  intros Ht. rewrite (hammersley_loop_equation_1 t).
  destruct (Z_gt_dec t 0) as [Hgt|Hle]; [lia|reflexivity].
Qed.

Lemma hammersley_loop_bounds (t : Z) :
  forall i p, 0 < i -> p <= hammersley_loop t i p < p + 2 * i.
Proof.
  destruct (Z_le_gt_dec t 0) as [Hneg|Hpos].
  { intros i p Hi. rewrite hammersley_loop_nonpos by exact Hneg. lra. }
  apply (Z_lt_induction
           (fun t => forall i p, 0 < i ->
                       p <= hammersley_loop t i p < p + 2 * i)); [|lia].
  clear t Hpos. intros t IH i p Hi.
  destruct (Z_le_gt_dec t 0) as [Hle|Hgt].
  - rewrite hammersley_loop_nonpos by exact Hle. lra.
  - rewrite hammersley_loop_step by lia.
    assert (Hhalf : (0 <= t / 2 < t)%Z) by (Z.div_mod_to_equations; lia).
    specialize (IH (t / 2)%Z Hhalf (i * 0.5)
                   (p + IZR (t mod 2) * i) ltac:(lra)).
    assert (Hb : (t mod 2 = 0 \/ t mod 2 = 1)%Z)
      by (Z.div_mod_to_equations; lia).
    destruct Hb as [Hb|Hb]; rewrite Hb in IH |- *; lra.
Qed.

(** X8.  The sample [hammersley(k, n)] of the tetrahedron, for an item
    index [0 <= k < n], lies in the unit square: both coordinates are at
    least 0 and below 1.  (The loop that reverses the binary digits of [k]
    ends for every [k].) *)
Theorem hammersley_in_unit_square (k n : Z) :
  (0 <= k < n)%Z ->
  0 <= fst (hammersley k n) < 1 /\ 0 <= snd (hammersley k n) < 1.
Proof.
  intros Hk. unfold hammersley. cbn [fst snd]. split.
  - assert (Hn : 0 < IZR n) by (apply IZR_lt; lia).
    assert (Hk0 : 0 <= IZR k) by (apply IZR_le; lia).
    assert (Hkn : IZR k < IZR n) by (apply IZR_lt; lia).
    split.
    + apply Rmult_le_pos; [exact Hk0|]. left. now apply Rinv_0_lt_compat.
    + apply Rmult_lt_reg_r with (IZR n); [exact Hn|].
      unfold Rdiv. rewrite Rmult_assoc, Rinv_l by lra. lra.
  - pose proof (hammersley_loop_bounds k 0.5 0 ltac:(lra)). lra.
Qed.

Lemma hammersley_in_unit_square_witness :
  0 <= fst (hammersley 5 8) < 1 /\ 0 <= snd (hammersley 5 8) < 1.
Proof. apply (hammersley_in_unit_square 5 8). lia. Defined.

Lemma or_one_pos (x : R) : 0 <= x -> 0 < or_one x.
Proof.
  intros Hx. unfold or_one. destruct (Req_dec_T x 0); lra.
Qed.

Lemma length3_nonneg (v : Vector3) : 0 <= length3 v.
Proof. apply sqrt_pos. Qed.

Lemma normalize_unit (v : Vector3) :
  dot v v <> 0 -> dot (normalize v) (normalize v) = 1.
Proof.
  intros Hv. destruct v as [x y z]. unfold dot in *. cbn [vx vy vz] in *.
  assert (Hs : 0 < x * x + y * y + z * z) by nra.
  unfold normalize, divideScalar, multiplyScalar, length3, or_one.
  cbn [vx vy vz].
  set (L := sqrt (x * x + y * y + z * z)).
  assert (HL : 0 < L) by now apply sqrt_lt_R0.
  assert (HLL : L * L = x * x + y * y + z * z) by (apply sqrt_sqrt; lra).
  destruct (Req_dec_T L 0) as [E|_]; [lra|].
  replace (x * (1 / L) * (x * (1 / L)) + y * (1 / L) * (y * (1 / L))
           + z * (1 / L) * (z * (1 / L)))
    with ((x * x + y * y + z * z) / (L * L)) by (field; lra).
  rewrite HLL. field. lra.
Qed.

Lemma dot_normalize (v w : Vector3) :
  dot v (normalize w) = dot v w * (1 / or_one (length3 w)).
Proof.
  unfold dot, normalize, divideScalar, multiplyScalar. cbn [vx vy vz]. ring.
Qed.

(** Before the push along the normal, the point of [tetraTarget] is in the
    plane of the face; the push moves it by [NORMAL_OFFSET] along the unit
    normal, and the look-at point is one unit from the plane. *)
Lemma tetraTarget_offset (a b c : Vector3) (n i : Z) :
  let cr := crossVectors (subVectors b a) (subVectors c a) in
  dot cr cr <> 0 ->
  dot (subVectors (position (tetraTarget a b c n i)) a) (normalize cr)
  = TETRA.NORMAL_OFFSET /\
  exists point,
    orientation (tetraTarget a b c n i)
    = LookAt (position (tetraTarget a b c n i)) point /\
    subVectors point (position (tetraTarget a b c n i))
    = multiplyScalar (normalize cr) (1 - TETRA.NORMAL_OFFSET).
Proof.
  intros cr Hcr.
  pose proof (normalize_unit cr Hcr) as Hunit.
  unfold tetraTarget. destruct (hammersley i n) as [uRaw vRaw].
  cbn [position orientation]. fold cr.
  set (nrm := normalize cr) in *.
  set (t1 := normalize (subVectors b a)).
  set (t2 := normalize (subVectors c a)).
  set (u := sqrt uRaw).
  assert (Hin : forall p3 k1 k2 al be,
            p3 = addScaledVector
                   (addScaledVector
                      (lerp (addScaledVector
                               (addScaledVector
                                  (addScaledVector zero3 a (1 - al))
                                  b (al - be)) c be)
                            (divideScalar
                               (addVectors
                                  (addVectors (addVectors zero3 a) b) c) 3)
                            0.18)
                      (multiplyScalar (subVectors b a) k1)
                      ((uRaw - 0.5) * 30))
                   (multiplyScalar (subVectors c a) k2)
                   ((vRaw - 0.5) * 24) ->
            dot (subVectors p3 a) cr = 0).
  { intros p3 k1 k2 al be ->. unfold cr, dot, crossVectors, subVectors,
      addScaledVector, lerp, divideScalar, multiplyScalar, addVectors, zero3.
    destruct a, b, c. cbn [vx vy vz]. field. }
  split.
  - set (p3 := addScaledVector (addScaledVector _ t1 _) t2 _).
    assert (Hp3 : dot (subVectors p3 a) cr = 0).
    { apply (Hin p3 (1 / or_one (length3 (subVectors b a)))
                 (1 / or_one (length3 (subVectors c a))) u (vRaw * u)).
      reflexivity. }
    assert (Hsplit :
              dot (subVectors (addScaledVector p3 nrm TETRA.NORMAL_OFFSET) a) nrm
              = dot (subVectors p3 a) nrm + TETRA.NORMAL_OFFSET * dot nrm nrm).
    { unfold dot, subVectors, addScaledVector. cbn [vx vy vz]. ring. }
    rewrite Hsplit, Hunit. unfold nrm at 1. rewrite dot_normalize, Hp3. ring.
  - eexists. split; [reflexivity|].
    unfold subVectors, addVectors, addScaledVector, multiplyScalar.
    cbn [vx vy vz]. f_equal; ring.
Qed.

Lemma faceTargets_items (count f : Z) (t : Object3D) :
  In t (faceTargets count f) ->
  exists i,
    t = tetraTarget (fst (fst (faceCorners f))) (snd (fst (faceCorners f)))
                    (snd (faceCorners f)) (itemsOnFace count f) i.
Proof.
  unfold faceTargets, faceCorners.
  destruct (itemsOnFace count f =? 0)%Z; [intros []|].
  destruct (nth (Z.to_nat f) faces (0, 0, 0)%nat) as [[aIdx bIdx] cIdx].
  cbn [fst snd]. unfold for_push. intros Hin. apply in_map_iff in Hin.
  destruct Hin as [i [<- _]]. now exists i.
Qed.

Lemma face_nondegenerate_inward (f : Z) :
  (0 <= f < 4)%Z ->
  let a := fst (fst (faceCorners f)) in
  let b := snd (fst (faceCorners f)) in
  let c := snd (faceCorners f) in
  let cr := crossVectors (subVectors b a) (subVectors c a) in
  dot cr cr <> 0 /\ 0 < dot (subVectors tetraCentroid a) cr.
Proof.
  intros Hf.
  assert (Hcases : f = 0%Z \/ f = 1%Z \/ f = 2%Z \/ f = 3%Z) by lia.
  destruct Hcases as [-> | [-> | [-> | ->]]];
    cbv [faceCorners faces vertices nth Z.to_nat Pos.to_nat Pos.iter_op
         Nat.add fst snd tetraCentroid divideScalar multiplyScalar
         addVectors subVectors crossVectors dot zero3 vx vy vz TETRA.SCALE];
    split; lra.
Qed.

(** X9.  Every target of a face of the tetrahedron lies exactly
    [NORMAL_OFFSET] away from the plane of that face, on the side the
    face's [normal] points to, and looks back along that normal (its
    look-at point is [NORMAL_OFFSET - 1] behind it).  For each of the four
    faces, [normal] (edge1 x edge2, normalised) points to the side of the
    tetrahedron's centre: the targets stand inside the faces, not outside. *)
Theorem tetra_targets_offset_inward (count f : Z) (t : Object3D) :
  (0 <= f < 4)%Z -> In t (faceTargets count f) ->
  let a := fst (fst (faceCorners f)) in
  dot (subVectors (position t) a) (faceNormal f) = TETRA.NORMAL_OFFSET /\
  0 < dot (subVectors tetraCentroid a) (faceNormal f) /\
  exists point,
    orientation t = LookAt (position t) point /\
    subVectors point (position t)
    = multiplyScalar (faceNormal f) (1 - TETRA.NORMAL_OFFSET).
Proof.
  intros Hf Hin a.
  destruct (faceTargets_items count f t Hin) as [i ->].
  destruct (face_nondegenerate_inward f Hf) as [Hnd Hinw].
  assert (Hn : faceNormal f
               = normalize (crossVectors
                              (subVectors (snd (fst (faceCorners f))) a)
                              (subVectors (snd (faceCorners f)) a))).
  { unfold faceNormal, a. now destruct (faceCorners f) as [[? ?] ?]. }
  rewrite Hn.
  destruct (tetraTarget_offset a (snd (fst (faceCorners f)))
              (snd (faceCorners f)) (itemsOnFace count f) i Hnd)
    as [Hoff Hlook].
  split; [exact Hoff|]. split; [|exact Hlook].
  rewrite dot_normalize. apply Rmult_lt_0_compat; [exact Hinw|].
  unfold Rdiv. rewrite Rmult_1_l. apply Rinv_0_lt_compat.
  apply or_one_pos, length3_nonneg.
Qed.

Lemma tetra_targets_offset_inward_witness :
  let t := tetraTarget (fst (fst (faceCorners 1))) (snd (fst (faceCorners 1)))
                       (snd (faceCorners 1)) 2 1 in
  In t (faceTargets 6 1) /\
  dot (subVectors (position t) (fst (fst (faceCorners 1)))) (faceNormal 1)
  = TETRA.NORMAL_OFFSET /\
  0 < dot (subVectors tetraCentroid (fst (fst (faceCorners 1)))) (faceNormal 1).
Proof.
  intros t.
  assert (Hin : In t (faceTargets 6 1)).
  { unfold faceTargets. rewrite itemsOnFace_nonneg by lia.
    change (6 / 4 + (if (1 <? 6 mod 4)%Z then 1 else 0))%Z with 2%Z.
    cbn [Z.eqb]. right. left. reflexivity. }
  split; [exact Hin|].
  destruct (tetra_targets_offset_inward 6 1 t ltac:(lia) Hin) as (H1 & H2 & _).
  split; [exact H1|exact H2].
Defined.

(** ** transform.js: bookkeeping of the active tweens *)

Lemma Synced_ok (w : World) : Synced w -> World_ok w.
Proof.
  intros (Ha & _ & Hid). split; [|exact Hid].
  intros tw Htw. rewrite Ha. now apply in_map.
Qed.

Lemma initial_world_synced : Synced initial_world.
Proof. split; [reflexivity|]. split; [constructor|intros ? []]. Qed.

Lemma createTweensForObject_synced (o : ObjRef) (t : Pose) (d : R) (w : World) :
  Synced w -> Synced (createTweensForObject o t d w).
Proof.
  intros (Ha & Hnd & Hid). rewrite createTweensForObject_spec.
  split; [|split]; cbn [activeTweens group nextId].
  - rewrite map_app, Ha. reflexivity.
  - apply NoDup_app; [exact Hnd| |].
    + constructor; [cbn; lia|]. constructor; [intros []|constructor].
    + intros id Hin [<-|[<-|[]]]; apply Hid in Hin; lia.
  - intros id Hin. apply in_app_iff in Hin.
    destruct Hin as [Hin|[<-|[<-|[]]]]; [apply Hid in Hin|..]; lia.
Qed.

Lemma forEach_create_synced (objs : list (option ObjRef)) :
  forall (k : nat) (tgts : list (option Pose)) (d : R) (w : World),
    Synced w -> Synced (forEach_create objs k tgts d w).
Proof.
  induction objs as [|object objs IH]; intros k tgts d w Hs; [exact Hs|].
  cbn [forEach_create]. apply IH.
  destruct object as [o|]; [|exact Hs].
  destruct (nth_error tgts k) as [[t|]|]; try exact Hs.
  now apply createTweensForObject_synced.
Qed.

Lemma transform_synced (objects : JsArg ObjRef) (targets : JsArg Pose)
    (duration : option R) (w : World) :
  Synced w -> Synced (snd (transform objects targets duration w)).
Proof.
  intros Hs. unfold transform.
  destruct objects as [|objs], targets as [|tgts]; try exact Hs.
  destruct (Nat.eqb (length objs) 0); [exact Hs|].
  destruct (negb (Nat.eqb (length objs) (length tgts))); [exact Hs|].
  cbn [snd]. apply forEach_create_synced.
  rewrite stopAllTweens_tracked by now apply Synced_ok.
  split; [reflexivity|]. split; [constructor|intros ? []].
Qed.

Lemma filter_other_ids (id : nat) (g : list Tween) :
  ~ In id (map tween_id g) ->
  filter (fun tw => negb (Nat.eqb (tween_id tw) id)) g = g.
Proof.
  intros Hnotin. apply forallb_filter_id. apply forallb_forall.
  intros tw Htw. destruct (Nat.eqb_spec (tween_id tw) id) as [E|]; [|reflexivity].
  exfalso. apply Hnotin. rewrite <- E. now apply in_map.
Qed.

Lemma remove_first_filter (id : nat) (g : list Tween) :
  NoDup (map tween_id g) ->
  map tween_id (filter (fun tw => negb (Nat.eqb (tween_id tw) id)) g)
  = remove_first id (map tween_id g).
Proof.
  induction g as [|tw g IH]; intros Hnd; [reflexivity|].
  cbn [map] in Hnd. inversion Hnd as [|? ? Hnotin Hnd']; subst.
  cbn [filter map remove_first].
  destruct (Nat.eqb_spec (tween_id tw) id) as [E|Hne]; cbn [negb].
  - subst id. now rewrite filter_other_ids.
  - cbn [map]. now rewrite IH.
Qed.

Lemma Tween_update_synced (time : R) (tw : Tween) (w : World) :
  Synced w ->
  Synced (if snd (Tween_update time tw w) then fst (Tween_update time tw w)
          else Group_remove (tween_id tw) (fst (Tween_update time tw w))).
Proof.
  intros (Ha & Hnd & Hid). unfold Tween_update.
  destruct (Rlt_dec time (startTime tw)); [now repeat split|].
  destruct (finished _ _); cbn [fst snd]; [|now repeat split].
  split; [|split]; cbn [activeTweens group nextId Group_remove onComplete
                         set_group set_activeTweens set_poses].
  - rewrite remove_first_filter by (rewrite <- Ha; exact Hnd). now rewrite Ha.
  - rewrite Ha, <- remove_first_filter by (rewrite <- Ha; exact Hnd).
    rewrite Ha in Hnd. clear Ha Hid. revert Hnd.
    induction (group w) as [|x g IH]; intros Hnd; [constructor|].
    cbn [map] in Hnd. inversion Hnd as [|? ? Hnotin Hnd']; subst.
    cbn [filter]. destruct (negb _); [|now apply IH].
    cbn [map]. constructor; [|now apply IH].
    intros Hin. apply Hnotin. apply in_map_iff in Hin.
    destruct Hin as [y [Ey Hy]]. apply filter_In in Hy.
    rewrite <- Ey. apply in_map. exact (proj1 Hy).
  - intros id Hin. apply Hid. now apply In_remove_first in Hin.
Qed.

Lemma Group_update_loop_synced (time : R) (tws : list Tween) :
  forall w, Synced w -> Synced (Group_update_loop time tws w).
Proof.
  induction tws as [|tw tws IH]; intros w Hs; [exact Hs|].
  cbn [Group_update_loop].
  pose proof (Tween_update_synced time tw w Hs) as Hstep.
  destruct (Tween_update time tw w) as [w1 playing]. cbn [fst snd] in Hstep.
  now apply IH.
Qed.

Lemma update_synced (time : option R) (w : World) :
  Synced w -> Synced (update time w).
Proof. intros Hs. now apply Group_update_loop_synced. Qed.

Lemma Step_synced (w w' : World) : Step w w' -> Synced w -> Synced w'.
Proof.
  intros [objects targets duration w0|time w0|dt w0] Hs.
  - now apply transform_synced.
  - now apply update_synced.
  - exact Hs.
Qed.

(** X10.  In every state the module can reach (by calls of [transform] with
    any arguments, calls of [update], and time passing), [activeTweens]
    holds exactly the tweens that still play, each once and in the order
    they were started: what [stopAllTweens] stops and what completes is
    forgotten on both sides, and nothing else is. *)
Theorem reachable_synced (w : World) : Reachable w -> Synced w.
Proof.
  induction 1 as [|w w' _ IH Hstep]; [exact initial_world_synced|].
  exact (Step_synced w w' Hstep IH).
Qed.

Lemma reachable_synced_witness :
  let t := mkPose (mkVector3 1 2 3) zero3 in
  let w1 := snd (transform (arrayOf [0%nat; 1%nat]) (arrayOf [t; t])
                           (Some 1000) initial_world) in
  let w2 := update None (elapse 400 w1) in
  Reachable w2 /\ Synced w2.
Proof.
  intros t w1 w2.
  assert (Hr : Reachable w2).
  { apply (reach_step (elapse 400 w1)); [|apply step_update].
    apply (reach_step w1); [|apply step_elapse].
    apply (reach_step initial_world); [apply reach_initial|].
    apply step_transform. }
  split; [exact Hr|]. exact (reachable_synced w2 Hr).
Defined.

(** ** transform.js: arrays with holes *)

Lemma forEach_create_frame (objs : list (option ObjRef)) :
  forall (k : nat) (tgts : list (option Pose)) (d : R) (w : World),
    poses (forEach_create objs k tgts d w) = poses w /\
    clock (forEach_create objs k tgts d w) = clock w /\
    incl (group w) (group (forEach_create objs k tgts d w)) /\
    incl (console w) (console (forEach_create objs k tgts d w)).
Proof.
  induction objs as [|object objs IH]; intros k tgts d w.
  - cbn. repeat split; apply incl_refl.
  - cbn [forEach_create].
    set (w1 := match object with
               | Some o => _
               | None => _
               end).
    destruct (IH (S k) tgts d w1) as (Hp & Hc & Hg & Hl).
    assert (H1 : poses w1 = poses w /\ clock w1 = clock w /\
                 incl (group w) (group w1) /\ incl (console w) (console w1)).
    { unfold w1. destruct object as [o|];
        [destruct (nth_error tgts k) as [[t|]|]|];
        try rewrite createTweensForObject_spec; cbn;
        repeat split; try apply incl_refl; try apply incl_appl, incl_refl. }
    destruct H1 as (Hp1 & Hc1 & Hg1 & Hl1).
    rewrite Hp, Hc. repeat split; try assumption.
    + exact (incl_tran Hg1 Hg).
    + exact (incl_tran Hl1 Hl).
Qed.

Lemma forEach_create_valid (objs : list (option ObjRef)) :
  forall (k : nat) (tgts : list (option Pose)) (d : R) (w : World)
         (j : nat) (o : ObjRef) (t : Pose),
    nth_error objs j = Some (Some o) ->
    nth_error tgts (k + j) = Some (Some t) ->
    exists id,
      In (mkTween id o PositionOf (pose_position (poses w o))
                  (pose_position t) d (clock w))
         (group (forEach_create objs k tgts d w)) /\
      In (mkTween (S id) o RotationOf (pose_rotation (poses w o))
                  (pose_rotation t) d (clock w))
         (group (forEach_create objs k tgts d w)).
Proof.
  induction objs as [|object objs IH]; intros k tgts d w j o t Ho Ht.
  - destruct j; discriminate Ho.
  - cbn [forEach_create].
    set (w1 := match object with
               | Some o => _
               | None => _
               end).
    destruct j as [|j]; cbn [nth_error] in Ho.
    + injection Ho as ->. rewrite Nat.add_0_r in Ht.
      unfold w1. rewrite Ht, createTweensForObject_spec.
      match goal with
      | |- context [forEach_create objs (S k) tgts d ?w2] =>
          destruct (forEach_create_frame objs (S k) tgts d w2)
            as (_ & _ & Hg & _)
      end.
      cbn [group] in Hg. exists (nextId w).
      split; apply Hg, in_app_iff; right; cbn; auto.
    + assert (H1 : poses w1 = poses w /\ clock w1 = clock w).
      { unfold w1. destruct object as [o'|];
          [destruct (nth_error tgts k) as [[t'|]|]|];
          try rewrite createTweensForObject_spec; now cbn. }
      destruct H1 as [Hp1 Hc1].
      replace (k + S j)%nat with (S k + j)%nat in Ht by lia.
      destruct (IH (S k) tgts d w1 j o t Ho Ht) as [id Hid].
      rewrite Hp1, Hc1 in Hid. now exists id.
Qed.

Lemma forEach_create_hole (objs : list (option ObjRef)) :
  forall (k : nat) (tgts : list (option Pose)) (d : R) (w : World) (j : nat),
    (j < length objs)%nat ->
    nth_error objs j = Some None \/ nth_error tgts (k + j) = Some None ->
    In (WarnInvalidAt (k + j)) (console (forEach_create objs k tgts d w)).
Proof.
  induction objs as [|object objs IH]; intros k tgts d w j Hj Hhole.
  - cbn in Hj. lia.
  - cbn [forEach_create].
    set (w1 := match object with
               | Some o => _
               | None => _
               end).
    destruct j as [|j]; cbn [nth_error] in Hhole.
    + rewrite Nat.add_0_r in *.
      destruct (forEach_create_frame objs (S k) tgts d w1) as (_ & _ & _ & Hl).
      apply Hl. unfold w1.
      destruct Hhole as [E|E].
      * injection E as ->. cbn. apply in_app_iff. right. now left.
      * rewrite E. destruct object; cbn; apply in_app_iff; right; now left.
    + replace (k + S j)%nat with (S k + j)%nat in * by lia.
      apply IH; [cbn in Hj; lia|exact Hhole].
Qed.

Lemma forEach_create_only (objs : list (option ObjRef)) :
  forall (k : nat) (tgts : list (option Pose)) (d : R) (w : World) (tw : Tween),
    In tw (group (forEach_create objs k tgts d w)) ->
    In tw (group w) \/
    exists j t,
      nth_error objs j = Some (Some (tween_object tw)) /\
      nth_error tgts (k + j) = Some (Some t) /\
      valuesEnd tw = get_channel (tween_channel tw) t.
Proof.
  induction objs as [|object objs IH]; intros k tgts d w tw Hin.
  - now left.
  - cbn [forEach_create] in Hin. apply IH in Hin.
    destruct Hin as [Hin|(j & t & Ho & Ht & Hv)].
    + destruct object as [o|]; [|now left].
      destruct (nth_error tgts k) as [[t|]|] eqn:Et; try now left.
      rewrite createTweensForObject_spec in Hin. cbn [group] in Hin.
      apply in_app_iff in Hin. destruct Hin as [Hin|[<-|[<-|[]]]];
        [now left|right; exists 0%nat, t..];
        rewrite Nat.add_0_r; now cbn.
    + right. exists (S j), t. replace (k + S j)%nat with (S k + j)%nat by lia.
      now cbn.
Qed.

(** X11.  A hole in [objects] or in [targets] does not stop the call: the
    index is reported on the console and skipped, every other item gets its
    position and its rotation tween toward its own target, and no tween is
    started for anything else.  No pose is written. *)
Theorem transform_skips_holes
    (objs : list (option ObjRef)) (tgts : list (option Pose))
    (duration : option R) (w : World) :
  World_ok w -> objs <> [] -> length objs = length tgts ->
  let w' := snd (transform (JsArray objs) (JsArray tgts) duration w) in
  let d := effective_duration duration in
  poses w' = poses w /\
  (forall i o t,
     nth_error objs i = Some (Some o) -> nth_error tgts i = Some (Some t) ->
     exists id,
       In (mkTween id o PositionOf (pose_position (poses w o))
                   (pose_position t) d (clock w)) (group w') /\
       In (mkTween (S id) o RotationOf (pose_rotation (poses w o))
                   (pose_rotation t) d (clock w)) (group w')) /\
  (forall i,
     nth_error objs i = Some None \/ nth_error tgts i = Some None ->
     In (WarnInvalidAt i) (console w')) /\
  (forall tw, In tw (group w') ->
     exists i t,
       nth_error objs i = Some (Some (tween_object tw)) /\
       nth_error tgts i = Some (Some t) /\
       valuesEnd tw = get_channel (tween_channel tw) t).
Proof.
  intros Hok Hne Hl w' d.
  assert (Hw' : w' = forEach_create objs 0 tgts
                       (match duration with
                        | Some x => x
                        | None => DEFAULT_DURATION
                        end)
                       (mkWorld (poses w) [] [] (nextId w) (clock w)
                                (console w))).
  { unfold w', transform.
    destruct (Nat.eqb_spec (length objs) 0) as [E|_].
    { destruct objs; [congruence|discriminate]. }
    rewrite Hl, Nat.eqb_refl. cbn [negb snd].
    now rewrite stopAllTweens_tracked. }
  rewrite Hw'. split; [|split; [|split]].
  - match goal with
    | |- poses (forEach_create ?a ?b ?c ?e ?w0) = _ =>
        exact (proj1 (forEach_create_frame a b c e w0))
    end.
  - intros i o t Ho Ht.
    exact (forEach_create_valid objs 0 tgts _ _ i o t Ho Ht).
  - intros i Hhole. apply (forEach_create_hole objs 0); [|exact Hhole].
    destruct Hhole as [E|E].
    + apply nth_error_Some. congruence.
    + rewrite Hl. apply nth_error_Some. congruence.
  - intros tw Hin. apply forEach_create_only in Hin.
    destruct Hin as [[]|Hin]. exact Hin.
Qed.

Lemma transform_skips_holes_witness :
  let t := mkPose (mkVector3 1 2 3) zero3 in
  let w' := snd (transform (JsArray [Some 4%nat; None; Some 6%nat])
                           (JsArray [Some t; Some t; None]) (Some 500)
                           initial_world) in
  In (WarnInvalidAt 1) (console w') /\
  In (WarnInvalidAt 2) (console w') /\
  poses w' = poses initial_world.
Proof.
  intros t w'.
  assert (Hok : World_ok initial_world) by (split; intros ? []).
  destruct (transform_skips_holes [Some 4%nat; None; Some 6%nat]
              [Some t; Some t; None] (Some 500) initial_world Hok
              ltac:(discriminate) eq_refl) as (Hp & _ & Hh & _).
  split; [apply (Hh 1%nat); now left|].
  split; [apply (Hh 2%nat); now right|exact Hp].
Defined.

(** ** scene.js and transform.js: a transition over many frames *)

Lemma get_other_cell (o o' : ObjRef) (ch ch' : Channel) (v : Vector3)
    (f : ObjRef -> Pose) :
  ~ (o' = o /\ ch' = ch) ->
  get_channel ch' (write_pose o (set_channel ch v (f o)) f o')
  = get_channel ch' (f o').
Proof.
  intros Hne. unfold write_pose.
  destruct (Nat.eqb_spec o' o) as [->|_]; [|reflexivity].
  destruct ch, ch'; try reflexivity; exfalso; apply Hne; now split.
Qed.

Lemma get_same_cell (o : ObjRef) (ch : Channel) (v : Vector3)
    (f : ObjRef -> Pose) :
  get_channel ch (write_pose o (set_channel ch v (f o)) f o) = v.
Proof.
  unfold write_pose. rewrite Nat.eqb_refl. now destruct ch.
Qed.

Lemma Tween_update_cases (time : R) (tw : Tween) (w : World) :
  0 <= tween_duration tw ->
  Tween_update time tw w = (w, true) \/
  (exists v,
     Tween_update time tw w
     = (set_poses
          (write_pose (tween_object tw)
             (set_channel (tween_channel tw) v (poses w (tween_object tw)))
             (poses w)) w, true)) \/
  due time tw.
Proof.
  intros Hd. unfold Tween_update.
  destruct (Rlt_dec time (startTime tw)) as [Hlt|Hge]; [now left|].
  right. destruct (finished (tween_duration tw) (time - startTime tw)) eqn:Hf.
  - right. unfold finished in Hf. unfold due.
    destruct (Req_dec_T (tween_duration tw) 0) as [E|_]; [lra|].
    destruct (Rle_dec (tween_duration tw) (time - startTime tw));
      [lra|discriminate Hf].
  - left. eexists. reflexivity.
Qed.

Section Settle.

Variable created : list Tween.

Hypothesis created_ids :
  forall a b, In a created -> In b created -> tween_id a = tween_id b -> a = b.

Hypothesis created_cells :
  forall a b, In a created -> In b created ->
    tween_object a = tween_object b -> tween_channel a = tween_channel b ->
    a = b.

Hypothesis created_durations :
  forall a, In a created -> 0 <= tween_duration a.

Lemma same_cell_dec (a b : Tween) :
  {tween_object a = tween_object b /\ tween_channel a = tween_channel b}
  + {~ (tween_object a = tween_object b /\ tween_channel a = tween_channel b)}.
Proof.
  destruct (Nat.eq_dec (tween_object a) (tween_object b)) as [Eo|Ho];
    [|right; tauto].
  destruct (tween_channel a), (tween_channel b);
    (left; now split) || (right; intros [_ E]; discriminate E).
Qed.

Lemma Settling_write (tw : Tween) (v : Vector3) (w : World) :
  Settling created w -> In tw (group w) ->
  Settling created
    (set_poses
       (write_pose (tween_object tw)
          (set_channel (tween_channel tw) v (poses w (tween_object tw)))
          (poses w)) w).
Proof.
  intros (Hnd & Hincl & Hcell) Hin. split; [exact Hnd|]. split; [exact Hincl|].
  intros tw' Htw'. cbn [group poses set_poses].
  destruct (same_cell_dec tw' tw) as [[Eo Ec]|Hother].
  - left. assert (E : tw' = tw) by (apply created_cells; auto).
    now rewrite E.
  - destruct (Hcell tw' Htw') as [Hplay|Hdone]; [now left|].
    right. now rewrite get_other_cell.
Qed.

Lemma Settling_complete (tw : Tween) (w : World) :
  Settling created w -> In tw (group w) ->
  Settling created
    (Group_remove (tween_id tw)
       (onComplete (tween_id tw)
          (set_poses
             (write_pose (tween_object tw)
                (set_channel (tween_channel tw) (valuesEnd tw)
                             (poses w (tween_object tw)))
                (poses w)) w))).
Proof.
  intros (Hnd & Hincl & Hcell) Hin.
  split; [|split]; cbn [group poses Group_remove onComplete set_group
                         set_activeTweens set_poses].
  - now apply NoDup_filter.
  - intros x Hx. apply filter_In in Hx. apply Hincl. exact (proj1 Hx).
  - intros tw' Htw'.
    destruct (same_cell_dec tw' tw) as [[Eo Ec]|Hother].
    + right. rewrite Eo, Ec, get_same_cell.
      assert (E : tw' = tw) by (apply created_cells; auto). now rewrite E.
    + rewrite get_other_cell by exact Hother.
      destruct (Hcell tw' Htw') as [Hplay|Hdone]; [left|now right].
      apply filter_In. split; [exact Hplay|].
      destruct (Nat.eqb_spec (tween_id tw') (tween_id tw)) as [E|]; [|reflexivity].
      exfalso. apply Hother.
      assert (E' : tw' = tw) by (apply created_ids; auto). now rewrite E'.
Qed.

Lemma Settling_step (time : R) (tw : Tween) (w : World) :
  Settling created w -> In tw (group w) ->
  Settling created
    (if snd (Tween_update time tw w) then fst (Tween_update time tw w)
     else Group_remove (tween_id tw) (fst (Tween_update time tw w))) /\
  (forall tw', In tw' (group w) -> tw' <> tw ->
     In tw'
        (group (if snd (Tween_update time tw w)
                then fst (Tween_update time tw w)
                else Group_remove (tween_id tw)
                                  (fst (Tween_update time tw w))))).
Proof.
  intros Hs Hin.
  assert (Hd : 0 <= tween_duration tw).
  { apply created_durations. now apply (proj1 (proj2 Hs)). }
  destruct (Tween_update_cases time tw w Hd) as [E|[[v E]|Hdue]].
  - rewrite E. cbn [fst snd]. split; [exact Hs|auto].
  - rewrite E. cbn [fst snd]. split; [now apply Settling_write|auto].
  - rewrite Tween_update_due by exact Hdue. cbn [fst snd].
    split; [now apply Settling_complete|].
    intros tw' Hin' Hne.
    cbn [group Group_remove onComplete set_group set_activeTweens set_poses].
    apply filter_In. split; [exact Hin'|].
    destruct (Nat.eqb_spec (tween_id tw') (tween_id tw)) as [E|]; [|reflexivity].
    exfalso. apply Hne. destruct Hs as (_ & Hincl & _).
    apply created_ids; auto.
Qed.

Lemma Settling_loop (time : R) (tws : list Tween) :
  forall w,
    Settling created w -> incl tws (group w) -> NoDup tws ->
    Settling created (Group_update_loop time tws w).
Proof.
  induction tws as [|tw tws IH]; intros w Hs Hincl Hnd; [exact Hs|].
  cbn [Group_update_loop].
  inversion Hnd as [|? ? Hnotin Hnd']; subst.
  destruct (Settling_step time tw w Hs (Hincl tw (or_introl eq_refl)))
    as [Hs' Hrest].
  destruct (Tween_update time tw w) as [w1 playing]. cbn [fst snd] in Hs', Hrest.
  apply IH; [exact Hs'| |exact Hnd'].
  intros x Hx. apply Hrest; [apply Hincl; now right|].
  intros ->. contradiction.
Qed.

Lemma Settling_update (time : option R) (w : World) :
  Settling created w -> Settling created (update time w).
Proof.
  intros Hs. apply Settling_loop; [exact Hs|apply incl_refl|exact (proj1 Hs)].
Qed.

Lemma Settling_animate (dts : list R) :
  forall w, Settling created w -> Settling created (animate dts w).
Proof.
  induction dts as [|dt dts IH]; intros w Hs; [exact Hs|].
  cbn [animate fold_left]. apply IH. unfold animate_frame.
  now apply Settling_update.
Qed.

End Settle.

Lemma created_tweens_in store now d (items : list ObjRef) :
  forall (ts : list Pose) (id : nat) (tw : Tween),
    In tw (created_tweens store now d id items ts) ->
    exists i o t,
      nth_error items i = Some o /\ nth_error ts i = Some t /\
      (tw = mkTween (id + 2 * i) o PositionOf (pose_position (store o))
                    (pose_position t) d now \/
       tw = mkTween (S (id + 2 * i)) o RotationOf (pose_rotation (store o))
                    (pose_rotation t) d now).
Proof.
  induction items as [|o items IH]; intros [|t ts] id tw Hin; try now destruct Hin.
  cbn [created_tweens] in Hin. destruct Hin as [<-|[<-|Hin]].
  - exists 0%nat, o, t. rewrite Nat.add_0_r. cbn. auto.
  - exists 0%nat, o, t. rewrite Nat.add_0_r. cbn. auto.
  - destruct (IH ts (S (S id)) tw Hin) as (i & o' & t' & Ho & Ht & Hform).
    exists (S i), o', t'. cbn [nth_error].
    replace (id + 2 * S i)%nat with (S (S id) + 2 * i)%nat by lia. auto.
Qed.

Lemma created_tweens_distinct_ids store now d items ts id (a b : Tween) :
  In a (created_tweens store now d id items ts) ->
  In b (created_tweens store now d id items ts) ->
  tween_id a = tween_id b -> a = b.
Proof.
  intros Ha Hb E.
  apply created_tweens_in in Ha. apply created_tweens_in in Hb.
  destruct Ha as (i & o & t & Ho & Ht & Ha), Hb as (j & o' & t' & Ho' & Ht' & Hb).
  assert (Hij : i = j).
  { destruct Ha as [-> | ->], Hb as [-> | ->]; cbn in E; lia. }
  subst j. rewrite Ho in Ho'. rewrite Ht in Ht'.
  injection Ho' as <-. injection Ht' as <-.
  destruct Ha as [-> | ->], Hb as [-> | ->]; cbn in E; try lia; reflexivity.
Qed.

Lemma created_tweens_distinct_cells store now d items ts id (a b : Tween) :
  NoDup items ->
  In a (created_tweens store now d id items ts) ->
  In b (created_tweens store now d id items ts) ->
  tween_object a = tween_object b -> tween_channel a = tween_channel b ->
  a = b.
Proof.
  intros Hnd Ha Hb Eo Ec.
  apply created_tweens_in in Ha. apply created_tweens_in in Hb.
  destruct Ha as (i & o & t & Ho & Ht & Ha), Hb as (j & o' & t' & Ho' & Ht' & Hb).
  assert (Eoo : o = o').
  { destruct Ha as [-> | ->], Hb as [-> | ->]; exact Eo. }
  subst o'.
  assert (Hij : i = j).
  { apply (proj1 (NoDup_nth_error items) Hnd).
    - apply nth_error_Some. congruence.
    - congruence. }
  subst j. rewrite Ht in Ht'. injection Ht' as <-.
  destruct Ha as [-> | ->], Hb as [-> | ->]; try discriminate Ec; reflexivity.
Qed.

Lemma created_tweens_NoDup store now d items ts id :
  NoDup (created_tweens store now d id items ts).
Proof.
  revert ts id. induction items as [|o items IH]; intros [|t ts] id;
    try constructor.
  - intros [E|Hin]; [discriminate E|].
    apply (in_map tween_id), created_tweens_ids in Hin. cbn in Hin. lia.
  - constructor; [|apply IH].
    intros Hin. apply (in_map tween_id), created_tweens_ids in Hin.
    cbn in Hin. lia.
Qed.

Lemma created_tweens_ids_NoDup store now d items ts id :
  NoDup (map tween_id (created_tweens store now d id items ts)).
Proof.
  revert ts id. induction items as [|o items IH]; intros [|t ts] id;
    try constructor.
  - cbn [created_tweens map tween_id]. intros [E|Hin]; [lia|].
    apply created_tweens_ids in Hin. lia.
  - cbn [created_tweens map tween_id]. constructor; [|apply IH].
    intros Hin. apply created_tweens_ids in Hin. lia.
Qed.

Lemma Group_update_loop_clock (time : R) (tws : list Tween) :
  forall w, clock (Group_update_loop time tws w) = clock w.
Proof.
  induction tws as [|tw tws IH]; intros w; [reflexivity|].
  cbn [Group_update_loop].
  assert (Hstep : clock (if snd (Tween_update time tw w)
                         then fst (Tween_update time tw w)
                         else Group_remove (tween_id tw)
                                           (fst (Tween_update time tw w)))
                  = clock w).
  { unfold Tween_update. destruct (Rlt_dec time (startTime tw)); [reflexivity|].
    now destruct (finished _ _). }
  destruct (Tween_update time tw w) as [w1 playing]. cbn [fst snd] in Hstep.
  now rewrite IH.
Qed.

Lemma animate_clock (dts : list R) :
  forall w, clock (animate dts w) = clock w + sum_R dts.
Proof.
  induction dts as [|dt dts IH]; intros w; cbn [animate fold_left sum_R fold_right].
  - lra.
  - fold (animate dts (animate_frame dt w)). rewrite IH.
    unfold animate_frame, update, TWEEN_update.
    rewrite Group_update_loop_clock. cbn [clock elapse].
    fold (sum_R dts). lra.
Qed.

Lemma animate_synced (dts : list R) :
  forall w, Synced w -> Synced (animate dts w).
Proof.
  induction dts as [|dt dts IH]; intros w Hs; [exact Hs|].
  cbn [animate fold_left]. apply IH. unfold animate_frame.
  now apply update_synced.
Qed.

Lemma animate_idle (dts : list R) :
  forall w,
    group w = [] ->
    poses (animate dts w) = poses w /\
    group (animate dts w) = [] /\
    activeTweens (animate dts w) = activeTweens w.
Proof.
  induction dts as [|dt dts IH]; intros w Hg; [now repeat split|].
  cbn [animate fold_left]. fold (animate dts (animate_frame dt w)).
  assert (E : animate_frame dt w = elapse dt w).
  { unfold animate_frame. now apply update_idle. }
  rewrite E. apply (IH (elapse dt w)). exact Hg.
Qed.

Lemma settled_poses store now d id (items : list ObjRef) (ts : list Pose)
    (w : World) (i : nat) (item : ObjRef) (t : Pose) :
  Settling (created_tweens store now d id items ts) w -> group w = [] ->
  nth_error items i = Some item -> nth_error ts i = Some t ->
  poses w item = t.
Proof.
  intros (_ & _ & Hcell) Hg Hi Ht.
  destruct (created_tweens_nth store now d items ts id i item t Hi Ht)
    as [Hpos Hrot].
  apply nth_error_In in Hpos. apply nth_error_In in Hrot.
  destruct (Hcell _ Hpos) as [Hin|Ep]; [rewrite Hg in Hin; destruct Hin|].
  destruct (Hcell _ Hrot) as [Hin|Er]; [rewrite Hg in Hin; destruct Hin|].
  cbn [tween_channel tween_object valuesEnd get_channel] in Ep, Er.
  rewrite <- (Pose_eta (poses w item)), Ep, Er. apply Pose_eta.
Qed.

(** The frames up to the first one at or after the duration. *)
Lemma frames_settle
    (w : World) (items : list ObjRef) (ts : list Pose) (duration : option R)
    (dts1 : list R) (dt : R) :
  World_ok w -> NoDup items -> items <> [] -> length ts = length items ->
  0 <= effective_duration duration <= sum_R dts1 + dt ->
  let w1 := snd (transform (arrayOf items) (arrayOf ts) duration w) in
  let wb := animate_frame dt (animate dts1 w1) in
  Settling (created_tweens (poses w) (clock w) (effective_duration duration)
                           (nextId w) items ts) wb /\
  group wb = [] /\ activeTweens wb = [].
Proof.
  intros Hok Hnd Hne Hl [Hd0 Hdt] w1 wb.
  set (d := effective_duration duration) in *.
  set (created := created_tweens (poses w) (clock w) d (nextId w) items ts).
  assert (Hw1 : w1 = mkWorld (poses w) (map tween_id created) created
                             (nextId w + 2 * length items) (clock w)
                             (console w)).
  { unfold w1. now rewrite transform_started. }
  assert (Hform : forall tw, In tw created ->
                    startTime tw = clock w /\ tween_duration tw = d).
  { intros tw Htw. apply created_tweens_in in Htw.
    destruct Htw as (i & o & t & _ & _ & [-> | ->]); now split. }
  assert (Hids : forall a b, In a created -> In b created ->
                   tween_id a = tween_id b -> a = b).
  { intros a b. apply created_tweens_distinct_ids. }
  assert (Hcells : forall a b, In a created -> In b created ->
                     tween_object a = tween_object b ->
                     tween_channel a = tween_channel b -> a = b).
  { intros a b. now apply created_tweens_distinct_cells. }
  assert (Hdur : forall a, In a created -> 0 <= tween_duration a).
  { intros a Ha. now rewrite (proj2 (Hform a Ha)). }
  assert (Hs1 : Settling created w1).
  { rewrite Hw1. split; [apply created_tweens_NoDup|].
    split; [apply incl_refl|]. intros tw Htw. now left. }
  assert (Hy1 : Synced w1).
  { rewrite Hw1. split; [reflexivity|]. split.
    - cbn [activeTweens]. apply created_tweens_ids_NoDup.
    - intros id Hin. cbn [activeTweens nextId] in *.
      apply created_tweens_ids in Hin. lia. }
  set (wa := animate dts1 w1) in *.
  assert (Hsa : Settling created wa)
    by (apply Settling_animate; assumption).
  assert (Hya : Synced wa) by now apply animate_synced.
  assert (Hca : clock wa = clock w + sum_R dts1).
  { unfold wa. rewrite animate_clock, Hw1. reflexivity. }
  assert (Hdue : Forall (due (clock wa + dt)) (group wa)).
  { apply Forall_forall. intros tw Htw.
    destruct (Hform tw (proj1 (proj2 Hsa) tw Htw)) as [Est Edu].
    unfold due. rewrite Est, Edu, Hca. lra. }
  split.
  { unfold wb, animate_frame. apply Settling_update; assumption. }
  unfold wb, animate_frame, update, TWEEN_update.
  cbn [clock group elapse]. rewrite Group_update_loop_due by exact Hdue.
  cbn [group activeTweens elapse]. split.
  - apply filter_none. intros tw Htw. apply not_among_false.
    now apply in_map.
  - rewrite (proj1 Hya), <- (app_nil_r (map tween_id (group wa))).
    apply remove_each_self.
Qed.

Lemma animate_app (dts1 dts2 : list R) (w : World) :
  animate (dts1 ++ dts2) w = animate dts2 (animate dts1 w).
Proof. unfold animate. apply fold_left_app. Qed.

(** X12.  Once [transform] has started a transition of a duration that is
    not negative, it does not matter how the frames of [animate] fall: as
    soon as one frame comes at or after the duration, every item is exactly
    at its target, no tween is left in the engine or in [activeTweens], and
    later frames change nothing.  (The frames before may have moved the
    items anywhere along the way.) *)
Theorem transition_completes_over_frames
    (w : World) (items : list ObjRef) (ts : list Pose) (duration : option R)
    (dts1 : list R) (dt : R) (dts2 : list R) :
  World_ok w -> NoDup items -> items <> [] -> length ts = length items ->
  0 <= effective_duration duration <= sum_R dts1 + dt ->
  let w1 := snd (transform (arrayOf items) (arrayOf ts) duration w) in
  let w' := animate (dts1 ++ dt :: dts2) w1 in
  (forall i item t,
     nth_error items i = Some item -> nth_error ts i = Some t ->
     poses w' item = t) /\
  group w' = [] /\ activeTweens w' = [].
Proof.
  intros Hok Hnd Hne Hl Hdt w1 w'.
  destruct (frames_settle w items ts duration dts1 dt Hok Hnd Hne Hl Hdt)
    as (Hsettled & Hg & Ha).
  fold w1 in Hsettled, Hg, Ha.
  set (wb := animate_frame dt (animate dts1 w1)) in *.
  assert (Hw' : w' = animate dts2 wb).
  { unfold w', wb. rewrite (animate_app dts1 (dt :: dts2)). reflexivity. }
  destruct (animate_idle dts2 wb Hg) as (Hp' & Hg' & Ha').
  rewrite Hw', Hp', Hg', Ha'. split; [|split; [reflexivity|exact Ha]].
  intros i item t Hi Ht.
  exact (settled_poses _ _ _ _ items ts wb i item t Hsettled Hg Hi Ht).
Qed.

Lemma transition_completes_over_frames_witness :
  let t := mkPose (mkVector3 1 2 3) (mkVector3 0 1 0) in
  let w1 := snd (transform (arrayOf [0%nat]) (arrayOf [t]) None
                           initial_world) in
  let w' := animate ([16; 700; 900] ++ 400 :: [16; 16]) w1 in
  poses w' 0%nat = t /\ group w' = [] /\ activeTweens w' = [].
Proof.
  intros t w1 w'.
  assert (Hok : World_ok initial_world) by (split; intros ? []).
  assert (Hnd : NoDup [0%nat]) by (constructor; [intros []|constructor]).
  assert (Hdt : 0 <= effective_duration None <= sum_R [16; 700; 900] + 400).
  { unfold effective_duration, DEFAULT_DURATION, sum_R.
    cbn [fold_right]. lra. }
  destruct (transition_completes_over_frames initial_world [0%nat] [t] None
              [16; 700; 900] 400 [16; 16] Hok Hnd ltac:(discriminate)
              eq_refl Hdt) as (Hp & Hg & Ha).
  split; [exact (Hp 0%nat 0%nat t eq_refl eq_refl)|]. split; assumption.
Defined.

(** ** ui.js: switching layouts *)

Lemma layout_eqb_eq (a b : LayoutName) : layout_eqb a b = true <-> a = b.
Proof. destruct a, b; cbn; split; intros H; try reflexivity; discriminate H. Qed.

Lemma layout_eqb_refl (a : LayoutName) : layout_eqb a a = true.
Proof. now apply layout_eqb_eq. Qed.

Lemma layout_eqb_neq (a b : LayoutName) : a <> b -> layout_eqb a b = false.
Proof.
  intros Hne. destruct (layout_eqb a b) eqn:E; [|reflexivity].
  apply layout_eqb_eq in E. contradiction.
Qed.

Lemma layout_get_length (count : Z) (r : LayoutTargets) (l : LayoutName) :
  (0 <= count)%Z -> generateLayoutTargets count = Return r ->
  length (layout_get r l) = Z.to_nat count.
Proof.
  intros Hc Hr. unfold generateLayoutTargets in Hr. injection Hr as <-.
  destruct l; cbn [layout_get lt_table lt_sphere lt_helix lt_grid lt_tetra];
    try apply for_push_length.
  pose proof (generateTetraLayout_length count Hc). lia.
Qed.

Lemma transform_returns (objects : JsArg ObjRef) (targets : JsArg Pose)
    (duration : option R) (w : World) :
  fst (transform objects targets duration w) = Return tt.
Proof.
  unfold transform. destruct objects as [|objs], targets as [|tgts];
    try reflexivity.
  destruct (Nat.eqb (length objs) 0); [reflexivity|].
  now destruct (negb (Nat.eqb (length objs) (length tgts))).
Qed.

Lemma switchLayout_started (l : LayoutName) (u : Ui) (w : World)
    (tg : LayoutName -> option (JsArg Pose)) (targets : JsArg Pose) :
  currentLayout u <> l -> layoutTargets u = Some tg -> tg l = Some targets ->
  no_objects (ui_objects u) = false ->
  switchLayout l u w
  = (mkUi l (ui_objects u) (layoutTargets u) (buttons u)
          (fun l' => if buttons u l' then layout_eqb l' l else active u l')
          (ui_console u),
     snd (transform (ui_objects u) targets (Some TRANSITION_DURATION) w)).
Proof.
  intros Hne Htg Hl Hobjs. unfold switchLayout.
  rewrite layout_eqb_neq, Htg, Hl, Hobjs by exact Hne.
  pose proof (transform_returns (ui_objects u) targets
                                (Some TRANSITION_DURATION) w) as Hret.
  destruct (transform (ui_objects u) targets (Some TRANSITION_DURATION) w)
    as [r w'].
  cbn [fst snd] in *. rewrite Hret. unfold updateActiveButton.
  cbn [ui_objects layoutTargets buttons active ui_console]. now rewrite Htg.
Qed.

(** X13.  A click on the button of another layout, with the targets that
    [generateLayoutTargets] made for the loaded items, always gets past the
    guards of [transform] (the lengths agree for every layout): the layout
    becomes the current one, and once the frames of [animate] have covered
    [TRANSITION_DURATION] every item stands at its target of that layout,
    with nothing left to animate. *)
Theorem switchLayout_moves_tiles
    (euler : Vector3 -> Vector3 -> Vector3) (items : list ObjRef)
    (r : LayoutTargets) (l : LayoutName) (u : Ui) (w : World)
    (dts1 : list R) (dt : R) (dts2 : list R) :
  generateLayoutTargets (Z.of_nat (length items)) = Return r ->
  ui_objects u = arrayOf items ->
  layoutTargets u = Some (targets_of euler r) ->
  currentLayout u <> l -> items <> [] -> NoDup items -> World_ok w ->
  TRANSITION_DURATION <= sum_R dts1 + dt ->
  let s := switchLayout l u w in
  let w' := animate (dts1 ++ dt :: dts2) (snd s) in
  currentLayout (fst s) = l /\
  (forall i item target,
     nth_error items i = Some item ->
     nth_error (layout_get r l) i = Some target ->
     poses w' item = pose_of euler target) /\
  group w' = [] /\ activeTweens w' = [].
Proof.
  intros Hr Hobjs Htg Hne Hitems Hnd Hok Hdt s w'.
  assert (Hno : no_objects (ui_objects u) = false).
  { rewrite Hobjs. destruct items; [congruence|reflexivity]. }
  assert (Hs : s = switchLayout l u w) by reflexivity.
  rewrite (switchLayout_started l u w (targets_of euler r)
             (arrayOf (map (pose_of euler) (layout_get r l))))
    in Hs by (assumption || reflexivity).
  assert (Hlen : length (map (pose_of euler) (layout_get r l)) = length items).
  { rewrite length_map, (layout_get_length _ r l (Nat2Z.is_nonneg _) Hr). lia. }
  assert (Heff : 0 <= effective_duration (Some TRANSITION_DURATION)
                 <= sum_R dts1 + dt).
  { unfold effective_duration. split; [|exact Hdt].
    unfold TRANSITION_DURATION. lra. }
  destruct (frames_settle w items (map (pose_of euler) (layout_get r l))
              (Some TRANSITION_DURATION) dts1 dt
              Hok Hnd Hitems Hlen Heff) as (Hsettled & Hg & Ha).
  assert (Hw' : w' = animate dts2
                       (animate_frame dt
                          (animate dts1
                             (snd (transform (arrayOf items)
                                     (arrayOf (map (pose_of euler)
                                                   (layout_get r l)))
                                     (Some TRANSITION_DURATION) w))))).
  { unfold w'. rewrite Hs. cbn [snd]. rewrite Hobjs.
    rewrite (animate_app dts1 (dt :: dts2)). reflexivity. }
  destruct (animate_idle dts2 _ Hg) as (Hp' & Hg' & Ha').
  rewrite Hs at 1. cbn [fst currentLayout].
  rewrite Hw', Hp', Hg', Ha'.
  split; [reflexivity|]. split; [|split; [reflexivity|exact Ha]].
  intros i item target Hi Ht.
  apply (settled_poses _ _ _ _ items (map (pose_of euler) (layout_get r l))
           _ i item _ Hsettled Hg Hi).
  rewrite nth_error_map, Ht. reflexivity.
Qed.

Lemma switchLayout_moves_tiles_witness :
  let euler := fun _ _ : Vector3 => zero3 in
  let items := [0%nat; 1%nat; 2%nat] in
  let r := mkLayoutTargets (generateTableLayout 3) (generateSphereLayout 3)
                           (generateHelixLayout 3) (generateGridLayout 3)
                           (generateTetraLayout 3) in
  let u := mkUi table (arrayOf items) (Some (targets_of euler r))
                (fun _ => true) (fun l => layout_eqb l table) [] in
  let s := switchLayout helix u initial_world in
  let w' := animate ([16; 1000] ++ 1000 :: [16]) (snd s) in
  currentLayout (fst s) = helix /\
  poses w' 1%nat = pose_of euler (helixTarget 3 1) /\
  group w' = [].
Proof.
  intros euler items r u s w'.
  assert (Hok : World_ok initial_world) by (split; intros ? []).
  assert (Hnd : NoDup items).
  { unfold items. repeat constructor; cbn; intuition discriminate. }
  assert (Hdt : TRANSITION_DURATION <= sum_R [16; 1000] + 1000).
  { unfold TRANSITION_DURATION, sum_R. cbn [fold_right]. lra. }
  assert (Hne : table <> helix) by discriminate.
  destruct (switchLayout_moves_tiles euler items r helix u initial_world
              [16; 1000] 1000 [16] eq_refl eq_refl eq_refl Hne
              ltac:(discriminate) Hnd Hok Hdt) as (Hc & Hp & Hg & _).
  split; [exact Hc|]. split; [|exact Hg].
  apply (Hp 1%nat 1%nat (helixTarget 3 1)); [reflexivity|].
  apply (for_push_nth 3 1 (helixTarget 3)). lia.
Defined.

Lemma switchLayout_consistent (l : LayoutName) (u : Ui) (w : World) :
  Ui_consistent u -> Ui_consistent (fst (switchLayout l u w)).
Proof.
  intros Hc. unfold switchLayout.
  destruct (layout_eqb (currentLayout u) l); [exact Hc|].
  destruct (layoutTargets u) as [tg|]; [|exact Hc].
  destruct (tg l) as [targets|]; [|exact Hc].
  destruct (no_objects (ui_objects u)); [exact Hc|].
  pose proof (transform_returns (ui_objects u) targets
                                (Some TRANSITION_DURATION) w) as Hret.
  destruct (transform (ui_objects u) targets (Some TRANSITION_DURATION) w)
    as [r w'].
  cbn [fst] in Hret. rewrite Hret. cbn [fst].
  intros l' Hb. cbn [buttons active currentLayout updateActiveButton] in *.
  rewrite Hb. apply layout_eqb_eq.
Qed.

Lemma initUI_button_keeps (page_has page_active : LayoutName -> bool)
    (u : Ui) (l : LayoutName) :
  (currentLayout u = table /\
   (forall x, buttons u x = true -> page_has x = true) /\
   (forall x, active u x = true ->
              (x = table /\ buttons u x = true) \/ page_active x = true) /\
   (buttons u table = true -> active u table = true)) ->
  let u' := initUI_button page_has u l in
  currentLayout u' = table /\
  (forall x, buttons u' x = true -> page_has x = true) /\
  (forall x, active u' x = true ->
             (x = table /\ buttons u' x = true) \/ page_active x = true) /\
  (buttons u' table = true -> active u' table = true).
Proof.
  intros (Hc & Hb & Ha & Ht). unfold initUI_button.
  destruct (page_has l) eqn:Hhas; [|now repeat split].
  destruct l; cbn [layout_default layout_eqb currentLayout buttons active];
    (split; [assumption || reflexivity|]);
    (split; [intros x; destruct (layout_eqb x _) eqn:E;
             [apply layout_eqb_eq in E; now subst x|apply Hb]|]);
    (split; [|try (intros _; reflexivity)]).
  all: try (intros x Hx; destruct (layout_eqb x table) eqn:E;
            [apply layout_eqb_eq in E; left; split; [exact E|reflexivity]
            |destruct (Ha x Hx) as [[Ex _]|Hp];
             [subst x; discriminate E|now right]]).
  all: try (intros x Hx; destruct (Ha x Hx) as [[Ex Hbx]|Hp];
            [left; split; [exact Ex|]; subst x; cbn [layout_eqb]; exact Hbx
            |now right]).
  all: cbn [layout_eqb]; exact Ht.
Qed.

Lemma initUI_consistent (page_has page_active : LayoutName -> bool)
    (targets : option (LayoutName -> option (JsArg Pose)))
    (sceneObjects : option (JsArg ObjRef)) :
  (forall l, page_has l = true -> l <> table -> page_active l = false) ->
  Ui_consistent (initUI page_has targets sceneObjects (initial_ui page_active)).
Proof.
  intros Hpage. unfold initUI.
  destruct targets as [tg|]; [|intros l Hl; discriminate Hl].
  destruct sceneObjects as [objs|]; [|intros l Hl; discriminate Hl].
  assert (Hfold : forall ls u,
            (currentLayout u = table /\
             (forall x, buttons u x = true -> page_has x = true) /\
             (forall x, active u x = true ->
                (x = table /\ buttons u x = true) \/ page_active x = true) /\
             (buttons u table = true -> active u table = true)) ->
            let u' := fold_left (initUI_button page_has) ls u in
            currentLayout u' = table /\
            (forall x, buttons u' x = true -> page_has x = true) /\
            (forall x, active u' x = true ->
               (x = table /\ buttons u' x = true) \/ page_active x = true) /\
            (buttons u' table = true -> active u' table = true)).
  { induction ls as [|l ls IH]; intros u Hu; [exact Hu|].
    cbn [fold_left]. apply IH.
    exact (initUI_button_keeps page_has page_active u l Hu). }
  match goal with
  | |- Ui_consistent (fold_left _ ?ls ?u0) =>
      destruct (Hfold ls u0) as (Hc & Hb & Ha & Ht)
  end.
  { cbn [initial_ui currentLayout buttons active]. split; [reflexivity|].
    split; [intros x E; discriminate E|]. split; [now right|].
    intros E; discriminate E. }
  intros l Hl. rewrite Hc. split.
  - intros Hact. destruct (Ha l Hact) as [[E _]|Hp]; [exact E|].
    destruct l; try reflexivity;
      rewrite (Hpage _ (Hb _ Hl)) in Hp by discriminate; discriminate Hp.
  - intros ->. now apply Ht.
Qed.

(** X14.  The buttons and the current layout never disagree.  If no button
    other than the table's is [active] on the page, then after [initUI] a
    registered button is [active] exactly when it is the button of
    [currentLayout]; and every click keeps it so, whichever way
    [switchLayout] takes (the [catch] that would leave them apart cannot be
    entered, as [transform] does not throw). *)
Theorem ui_buttons_follow_layout :
  (forall page_has page_active targets sceneObjects,
     (forall l, page_has l = true -> l <> table -> page_active l = false) ->
     Ui_consistent (initUI page_has targets sceneObjects
                           (initial_ui page_active))) /\
  (forall l u w,
     Ui_consistent u -> Ui_consistent (fst (switchLayout l u w))) /\
  (forall l u w e,
     In (ErrorSwitching l e) (ui_console (fst (switchLayout l u w))) ->
     In (ErrorSwitching l e) (ui_console u)).
Proof.
  split; [exact initUI_consistent|]. split; [exact switchLayout_consistent|].
  intros l u w e. unfold switchLayout.
  destruct (layout_eqb (currentLayout u) l); [auto|].
  assert (Hlog : forall x, x <> ErrorSwitching l e ->
                   In (ErrorSwitching l e) (ui_console (ui_log x u)) ->
                   In (ErrorSwitching l e) (ui_console u)).
  { intros x Hx Hin. cbn in Hin. apply in_app_iff in Hin.
    destruct Hin as [Hin|[E|[]]]; [exact Hin|congruence]. }
  destruct (layoutTargets u) as [tg|]; [|apply Hlog; discriminate].
  destruct (tg l) as [targets|]; [|apply Hlog; discriminate].
  destruct (no_objects (ui_objects u)); [apply Hlog; discriminate|].
  pose proof (transform_returns (ui_objects u) targets
                                (Some TRANSITION_DURATION) w) as Hret.
  destruct (transform (ui_objects u) targets (Some TRANSITION_DURATION) w)
    as [r w'].
  cbn [fst] in Hret. rewrite Hret. cbn. auto.
Qed.

(** X15.  [switchLayout] records the new layout before it knows whether the
    transition started.  When [transform] turns the call down (here: the
    targets of the layout are not as many as the objects), nothing moves
    and no tween starts, yet the layout is now the current one and its
    button the active one, so that a second click on it is ignored. *)
Theorem switchLayout_marks_rejected
    (l : LayoutName) (u : Ui) (w : World)
    (tg : LayoutName -> option (JsArg Pose))
    (objs : list (option ObjRef)) (tgts : list (option Pose)) :
  currentLayout u <> l ->
  layoutTargets u = Some tg -> tg l = Some (JsArray tgts) ->
  ui_objects u = JsArray objs -> objs <> [] -> length objs <> length tgts ->
  let s := switchLayout l u w in
  currentLayout (fst s) = l /\
  (buttons u l = true -> active (fst s) l = true) /\
  poses (snd s) = poses w /\ group (snd s) = group w /\
  activeTweens (snd s) = activeTweens w /\
  switchLayout l (fst s) (snd s) = s.
Proof.
  intros Hne Htg Hl Hobjs Hnonempty Hlen s.
  assert (Hno : no_objects (ui_objects u) = false).
  { rewrite Hobjs. destruct objs; [congruence|reflexivity]. }
  assert (Hs : s = switchLayout l u w) by reflexivity.
  rewrite (switchLayout_started l u w tg (JsArray tgts)) in Hs by assumption.
  assert (Hw : snd (transform (ui_objects u) (JsArray tgts)
                              (Some TRANSITION_DURATION) w)
               = log (WarnMismatch (length objs) (length tgts)) w).
  { rewrite Hobjs. unfold transform.
    destruct (Nat.eqb_spec (length objs) 0) as [E|_].
    { destruct objs; [congruence|discriminate]. }
    destruct (Nat.eqb_spec (length objs) (length tgts)); [contradiction|].
    reflexivity. }
  rewrite Hw in Hs. rewrite Hs. cbn [fst snd currentLayout active].
  split; [reflexivity|]. split.
  { intros Hb. rewrite Hb. apply layout_eqb_refl. }
  split; [reflexivity|]. split; [reflexivity|]. split; [reflexivity|].
  unfold switchLayout. cbn [currentLayout]. now rewrite layout_eqb_refl.
Qed.

Lemma switchLayout_marks_rejected_witness :
  let t := mkPose (mkVector3 1 2 3) zero3 in
  let tg := fun _ : LayoutName => Some (JsArray [Some t]) in
  let u := mkUi table (JsArray [Some 0%nat; Some 1%nat]) (Some tg)
                (fun _ => true) (fun l => layout_eqb l table) [] in
  let s := switchLayout sphere u initial_world in
  currentLayout (fst s) = sphere /\
  group (snd s) = [] /\
  switchLayout sphere (fst s) (snd s) = s.
Proof.
  intros t tg u s.
  assert (Hne : currentLayout u <> sphere) by discriminate.
  assert (Hlen : length [Some 0%nat; Some 1%nat] <> length [Some t])
    by (cbn; lia).
  destruct (switchLayout_marks_rejected sphere u initial_world tg
              [Some 0%nat; Some 1%nat] [Some t] Hne eq_refl eq_refl eq_refl
              ltac:(discriminate) Hlen) as (Hc & _ & _ & Hg & _ & Hagain).
  split; [exact Hc|]. split; [exact Hg|exact Hagain].
Defined.

(** ** main.js: the first layout *)

(** X16.  The start of [initializeVisualization]: with the layouts
    generated for the [n] loaded tiles, [transform(objects,
    layoutTargets.table, 0)] is accepted (the table has [n] targets), and
    the first frame after it, however soon, finds tile [i] on its cell of
    the table, unrotated. *)
Theorem initial_layout_is_table
    (euler : Vector3 -> Vector3 -> Vector3) (n : nat) (w : World) (dt : R)
    (i : Z) :
  World_ok w -> (0 <= i < Z.of_nat n)%Z -> 0 <= dt ->
  let objects := seq 0 n in
  let targets := map (pose_of euler) (generateTableLayout (Z.of_nat n)) in
  let w1 := snd (transform (arrayOf objects) (arrayOf targets) (Some 0) w) in
  poses (animate_frame dt w1) (Z.to_nat i)
  = mkPose (mkVector3 ((IZR (i mod 20) - 20 / 2 + 0.5) * 250)
                      ((10 / 2 - IZR (i / 20) - 0.5) * 320) 0)
           zero3.
Proof.
  intros Hok Hi Hdt objects targets w1.
  pose proof (initial_table_layout_reached euler n w dt i Hok Hi Hdt) as H.
  cbv zeta in H. etransitivity; [exact H|].
  now rewrite tableTarget_position by lia.
Qed.

Lemma initial_layout_is_table_witness :
  let euler := fun _ _ : Vector3 => zero3 in
  let objects := seq 0 25 in
  let targets := map (pose_of euler) (generateTableLayout (Z.of_nat 25)) in
  let w1 := snd (transform (arrayOf objects) (arrayOf targets) (Some 0)
                           initial_world) in
  poses (animate_frame 16 w1) (Z.to_nat 21)
  = mkPose (mkVector3 ((IZR (21 mod 20) - 20 / 2 + 0.5) * 250)
                      ((10 / 2 - IZR (21 / 20) - 0.5) * 320) 0)
           zero3.
Proof.
  intros euler.
  apply (initial_layout_is_table euler 25 initial_world 16 21).
  - split; intros ? [].
  - lia.
  - lra.
Defined.

(** ** transform.js: no jump at the start of a transition *)

Lemma Cubic_InOut_zero : Cubic_InOut 0 = 0.
Proof.
  unfold Cubic_InOut. destruct (Rlt_dec (0 * 2) 1); cbv zeta; lra.
Qed.

Lemma interpolate_start (s e : Vector3) : interpolate s e 0 = s.
Proof. destruct s, e. unfold interpolate. cbn. f_equal; ring. Qed.

Lemma Tween_update_at_start (tw : Tween) (w : World) :
  0 < tween_duration tw ->
  Tween_update (startTime tw) tw w
  = (set_poses
       (write_pose (tween_object tw)
          (set_channel (tween_channel tw) (valuesStart tw)
                       (poses w (tween_object tw)))
          (poses w)) w,
     true).
Proof.
  intros Hd. unfold Tween_update.
  destruct (Rlt_dec (startTime tw) (startTime tw)) as [H|_]; [lra|].
  assert (Hf : finished (tween_duration tw) (startTime tw - startTime tw)
               = false).
  { unfold finished. destruct (Req_dec_T (tween_duration tw) 0); [lra|].
    destruct (Rle_dec (tween_duration tw) (startTime tw - startTime tw));
      [lra|reflexivity]. }
  rewrite Hf.
  destruct (Req_dec_T (tween_duration tw) 0) as [E|_]; [lra|].
  replace (Rmin 1 ((startTime tw - startTime tw) / tween_duration tw)) with 0.
  - now rewrite Cubic_InOut_zero, interpolate_start.
  - replace ((startTime tw - startTime tw) / tween_duration tw) with 0
      by (field; lra).
    symmetry. apply Rmin_right. lra.
Qed.

Lemma set_channel_same (ch : Channel) (p : Pose) :
  set_channel ch (get_channel ch p) p = p.
Proof. now destruct ch, p. Qed.

Lemma Group_update_loop_at_start (time : R) (store : ObjRef -> Pose)
    (tws : list Tween) :
  (forall tw, In tw tws ->
     startTime tw = time /\ 0 < tween_duration tw /\
     valuesStart tw
     = get_channel (tween_channel tw) (store (tween_object tw))) ->
  forall w,
    (forall o, poses w o = store o) ->
    (forall o, poses (Group_update_loop time tws w) o = store o) /\
    group (Group_update_loop time tws w) = group w /\
    activeTweens (Group_update_loop time tws w) = activeTweens w.
Proof.
  induction tws as [|tw tws IH]; intros Htws w Hw; [now repeat split|].
  cbn [Group_update_loop].
  destruct (Htws tw (or_introl eq_refl)) as (Est & Hd & Hv).
  rewrite <- Est, Tween_update_at_start by exact Hd. rewrite Est.
  match goal with
  | |- context [Group_update_loop time tws ?w1] =>
      destruct (IH (fun x Hx => Htws x (or_intror Hx)) w1) as (Hp & Hg & Ha)
  end.
  - intros o. cbn [poses set_poses]. unfold write_pose.
    destruct (Nat.eqb_spec o (tween_object tw)) as [->|_]; [|apply Hw].
    rewrite Hv, Hw. apply set_channel_same.
  - now repeat split.
Qed.

(** X17.  Starting a transition of non-zero duration does not make any item
    jump: whatever was going on before (the items may be in mid-flight of
    the transition this call cancels), a frame at the very instant of the
    call leaves every pose where it was, with the new tweens all playing. *)
Theorem transform_does_not_jump
    (w : World) (items : list ObjRef) (ts : list Pose) (duration : option R) :
  World_ok w -> items <> [] -> length ts = length items ->
  0 < effective_duration duration ->
  let w1 := snd (transform (arrayOf items) (arrayOf ts) duration w) in
  let w2 := animate_frame 0 w1 in
  (forall o, poses w2 o = poses w o) /\
  group w2 = group w1 /\
  length (group w2) = (2 * length items)%nat.
Proof.
  intros Hok Hne Hl Hd w1 w2.
  assert (Hw1 : w1 = mkWorld (poses w)
                  (map tween_id
                       (created_tweens (poses w) (clock w)
                          (effective_duration duration) (nextId w) items ts))
                  (created_tweens (poses w) (clock w)
                     (effective_duration duration) (nextId w) items ts)
                  (nextId w + 2 * length items) (clock w) (console w)).
  { unfold w1. now rewrite transform_started. }
  unfold w2, animate_frame, update, TWEEN_update. rewrite Hw1.
  cbn [clock group elapse].
  match goal with
  | |- context [Group_update_loop ?time ?tws ?w0] =>
      destruct (Group_update_loop_at_start time (poses w) tws) with (w := w0)
        as (Hp & Hg & _)
  end.
  - intros tw Htw. apply created_tweens_in in Htw.
    destruct Htw as (i & o & t & _ & _ & [-> | ->]); cbn; repeat split; lra.
  - reflexivity.
  - split; [exact Hp|]. rewrite Hg. cbn [group]. split; [reflexivity|].
    now apply created_tweens_length.
Qed.

Lemma transform_does_not_jump_witness :
  let a := mkPose (mkVector3 10 0 0) zero3 in
  let b := mkPose (mkVector3 0 10 0) zero3 in
  let flying := animate [300]
                  (snd (transform (arrayOf [0%nat]) (arrayOf [a]) None
                                  initial_world)) in
  let w1 := snd (transform (arrayOf [0%nat]) (arrayOf [b]) (Some 500)
                           flying) in
  poses (animate_frame 0 w1) 0%nat = poses flying 0%nat /\
  length (group (animate_frame 0 w1)) = 2%nat.
Proof.
  intros a b flying w1.
  assert (Hok : World_ok flying).
  { unfold flying, animate. cbn [fold_left]. unfold animate_frame.
    apply update_ok, elapse_ok, transform_ok. split; intros ? []. }
  assert (Hd : 0 < effective_duration (Some 500)).
  { unfold effective_duration. lra. }
  destruct (transform_does_not_jump flying [0%nat] [b] (Some 500) Hok
              ltac:(discriminate) eq_refl Hd) as (Hp & _ & Hlen).
  split; [exact (Hp 0%nat)|exact Hlen].
Defined.

(** ** sheets.js: findColumnIndex *)

Lemma string_eqb_eq (a b : JsString) : string_eqb a b = true <-> a = b.
Proof.
  revert b. induction a as [|x a IH]; intros [|y b]; cbn;
    try (split; [discriminate|discriminate]); [tauto|].
  rewrite andb_true_iff, Nat.eqb_eq, IH. split.
  - intros [-> ->]. reflexivity.
  - intros E. injection E as -> ->. now split.
Qed.

Lemma starts_with_refl (s : JsString) : starts_with s s = true.
Proof. induction s as [|c s IH]; cbn; [reflexivity|]. now rewrite Nat.eqb_refl. Qed.

Lemma includes_refl (s : JsString) : includes s s = true.
Proof. destruct s; cbn; [reflexivity|]. now rewrite Nat.eqb_refl, starts_with_refl. Qed.

Lemma includes_empty (s : JsString) : includes s [] = true.
Proof. now destruct s. Qed.

Lemma findIndex_from_spec {A : Type} (p : A -> bool) (l : list A) :
  forall i,
    (findIndex_from p l i = (-1)%Z /\ (forall x, In x l -> p x = false)) \/
    (exists k x,
       findIndex_from p l i = (i + Z.of_nat k)%Z /\
       nth_error l k = Some x /\ p x = true /\
       (forall k' y, (k' < k)%nat -> nth_error l k' = Some y -> p y = false)).
Proof.
  induction l as [|a l IH]; intros i.
  - left. split; [reflexivity|intros x []].
  - cbn [findIndex_from]. destruct (p a) eqn:Ea.
    + right. exists 0%nat, a. repeat split; [lia|assumption|].
      intros k' y Hk'. lia.
    + destruct (IH (i + 1)%Z) as [[E Hall]|(k & x & E & Hn & Hp & Hmin)].
      * left. split; [exact E|]. intros x [<-|Hx]; auto.
      * right. exists (S k), x. repeat split; [lia|assumption..|].
        intros [|k'] y Hk' Hy; cbn in Hy.
        -- injection Hy as <-. exact Ea.
        -- apply (Hmin k' y); [lia|exact Hy].
Qed.

Lemma findIndex_found {A : Type} (p : A -> bool) (l : list A) (x : A) :
  In x l -> p x = true -> (0 <= findIndex p l)%Z.
Proof.
  intros Hx Hp. unfold findIndex.
  destruct (findIndex_from_spec p l 0) as [[_ Hall]|(k & y & E & _)].
  - rewrite (Hall x Hx) in Hp. discriminate Hp.
  - rewrite E. lia.
Qed.

Lemma first_index_spec (f : JsString -> Z) (names : list JsString) :
  (first_index f names = (-1)%Z /\ (forall n, In n names -> f n = (-1)%Z)) \/
  (exists pre n post,
     names = pre ++ n :: post /\ (forall m, In m pre -> f m = (-1)%Z) /\
     f n <> (-1)%Z /\ first_index f names = f n).
Proof.
  induction names as [|n names IH].
  - left. split; [reflexivity|intros n []].
  - cbn [first_index]. destruct (Z.eqb_spec (f n) (-1)) as [E|Hne].
    + destruct IH as [[E' Hall]|(pre & m & post & -> & Hpre & Hm & E')].
      * left. split; [exact E'|]. intros x [<-|Hx]; auto.
      * right. exists (n :: pre), m, post. repeat split; try assumption.
        intros x [<-|Hx]; auto.
    + right. exists [], n, names. repeat split; [intros m []|exact Hne].
Qed.

(** X18.  What [findColumnIndex] returns is [-1] or the index of a header
    that equals, contains, or is contained in one of the possible names.
    It returns [-1] exactly when no header does so for any of the names. *)
Theorem findColumnIndex_found_or_absent
    (headers possibleNames : list JsString) :
  let r := findColumnIndex headers possibleNames in
  (r = (-1)%Z \/
   exists i h name,
     r = Z.of_nat i /\ nth_error headers i = Some h /\ In name possibleNames /\
     (h = name \/ includes h name = true \/ includes name h = true)) /\
  (r = (-1)%Z <->
   forall h name, In h headers -> In name possibleNames ->
                  includes h name = false /\ includes name h = false).
Proof.
  intros r. unfold r, findColumnIndex.
  destruct (first_index_spec (indexOf headers) possibleNames)
    as [[Ex Hex]|(pre & n & post & Hnames & _ & Hn & Ex)].
  - rewrite Ex, Z.eqb_refl.
    destruct (first_index_spec
                (fun name => findIndex (partial_match name) headers)
                possibleNames)
      as [[Ep Hpa]|(pre & n & post & Hnames & _ & Hn & Ep)].
    + rewrite Ep. split; [now left|]. split; [|reflexivity]. intros _ h name Hh Hname.
      specialize (Hpa name Hname). cbn beta in Hpa. unfold findIndex in Hpa.
      destruct (findIndex_from_spec (partial_match name) headers 0)
        as [[_ Hall]|(k & x & E & _)]; [|lia].
      specialize (Hall h Hh). unfold partial_match in Hall.
      apply orb_false_iff in Hall. destruct Hall as [Hall _].
      now apply orb_false_iff in Hall.
    + rewrite Ep. unfold findIndex in *.
      destruct (findIndex_from_spec (partial_match n) headers 0)
        as [[E _]|(k & x & E & Hk & Hp & _)]; [contradiction|].
      assert (Hin : In n possibleNames).
      { rewrite Hnames. apply in_app_iff. right. now left. }
      rewrite E. split.
      * right. exists k, x, n.
        split; [lia|]. split; [exact Hk|]. split; [exact Hin|].
        unfold partial_match in Hp. apply orb_true_iff in Hp.
        destruct Hp as [Hp|Hp]; [apply orb_true_iff in Hp; tauto|].
        left. now apply string_eqb_eq.
      * split; [lia|]. intros Hnone. exfalso.
        destruct (Hnone x n (nth_error_In _ _ Hk) Hin) as [H1 H2].
        unfold partial_match in Hp. rewrite H1, H2 in Hp. cbn in Hp.
        apply string_eqb_eq in Hp. subst x.
        rewrite includes_refl in H1. discriminate H1.
  - destruct (Z.eqb_spec (first_index (indexOf headers) possibleNames) (-1))
      as [E|_]; [congruence|].
    rewrite Ex. unfold indexOf, findIndex in *.
    destruct (findIndex_from_spec (fun h => string_eqb h n) headers 0)
      as [[E _]|(k & x & E & Hk & Hp & _)]; [contradiction|].
    assert (Hin : In n possibleNames).
    { rewrite Hnames. apply in_app_iff. right. now left. }
    apply string_eqb_eq in Hp. subst x. rewrite E. split.
    + right. exists k, n, n.
      split; [lia|]. split; [exact Hk|]. split; [exact Hin|now left].
    + split; [lia|]. intros Hnone. exfalso.
      destruct (Hnone n n (nth_error_In _ _ Hk) Hin) as [H1 _].
      rewrite includes_refl in H1. discriminate H1.
Qed.

Lemma indexOf_absent (headers : list JsString) (name : JsString) :
  ~ In name headers -> indexOf headers name = (-1)%Z.
Proof.
  intros Hno. unfold indexOf, findIndex.
  destruct (findIndex_from_spec (fun h => string_eqb h name) headers 0)
    as [[E _]|(k & x & _ & Hk & Hp & _)]; [exact E|].
  apply string_eqb_eq in Hp. subst x. exfalso. apply Hno.
  exact (nth_error_In _ _ Hk).
Qed.

Lemma indexOf_present (headers : list JsString) (name : JsString) :
  In name headers ->
  exists i,
    indexOf headers name = Z.of_nat i /\ nth_error headers i = Some name /\
    (forall j h, (j < i)%nat -> nth_error headers j = Some h -> h <> name).
Proof.
  intros Hin. unfold indexOf, findIndex.
  destruct (findIndex_from_spec (fun h => string_eqb h name) headers 0)
    as [[_ Hall]|(k & x & E & Hk & Hp & Hmin)].
  - specialize (Hall name Hin). cbn beta in Hall.
    rewrite (proj2 (string_eqb_eq name name) eq_refl) in Hall.
    discriminate Hall.
  - apply string_eqb_eq in Hp. subst x. exists k.
    split; [rewrite E; lia|]. split; [exact Hk|].
    intros j h Hj Hh E'. specialize (Hmin j h Hj Hh). cbn beta in Hmin.
    rewrite (proj2 (string_eqb_eq h name) E') in Hmin. discriminate Hmin.
Qed.

Lemma first_index_skip (f : JsString -> Z) (pre rest : list JsString) :
  (forall m, In m pre -> f m = (-1)%Z) ->
  first_index f (pre ++ rest) = first_index f rest.
Proof.
  induction pre as [|m pre IH]; intros Hpre; [reflexivity|].
  cbn [app first_index]. rewrite (Hpre m (or_introl eq_refl)), Z.eqb_refl.
  apply IH. intros x Hx. apply Hpre. now right.
Qed.

(** X19.  A header that equals one of the possible names wins over every
    header that is merely similar, wherever the columns are: the earliest
    possible name that occurs as a header decides, and the result is the
    leftmost column with that header. *)
Theorem findColumnIndex_prefers_exact
    (headers pre : list JsString) (name : JsString) (post : list JsString) :
  (forall n, In n pre -> ~ In n headers) -> In name headers ->
  exists i,
    findColumnIndex headers (pre ++ name :: post) = Z.of_nat i /\
    nth_error headers i = Some name /\
    (forall j h, (j < i)%nat -> nth_error headers j = Some h -> h <> name).
Proof.
  intros Hpre Hin. destruct (indexOf_present headers name Hin) as (i & E & Hi & Hmin).
  exists i. split; [|split; assumption].
  unfold findColumnIndex.
  rewrite first_index_skip by (intros m Hm; apply indexOf_absent; auto).
  cbn [first_index]. rewrite E.
  destruct (Z.eqb_spec (Z.of_nat i) (-1)) as [Hneg|_]; [lia|].
  destruct (Z.eqb_spec (Z.of_nat i) (-1)) as [Hneg|_]; [lia|reflexivity].
Qed.

Lemma findColumnIndex_prefers_exact_witness :
  (* headers: a, net worth, worth; possible names: wealth, worth *)
  let a : JsString := [97]%nat in
  let net_worth : JsString := [110; 101; 116; 32; 119; 111; 114; 116; 104]%nat in
  let worth : JsString := [119; 111; 114; 116; 104]%nat in
  let wealth : JsString := [119; 101; 97; 108; 116; 104]%nat in
  exists i,
    findColumnIndex [a; net_worth; worth] ([wealth] ++ worth :: [])
    = Z.of_nat i /\
    nth_error [a; net_worth; worth] i = Some worth /\
    (forall j h, (j < i)%nat -> nth_error [a; net_worth; worth] j = Some h ->
                 h <> worth).
Proof.
  intros a net_worth worth wealth.
  apply (findColumnIndex_prefers_exact [a; net_worth; worth] [wealth] worth []).
  - intros n [<-|[]] [E|[E|[E|[]]]]; discriminate E.
  - right. right. now left.
Defined.

(** X20.  A blank header cell counts as a match for any list of possible
    names, because every name includes the empty string: when no header
    equals a possible name and the header row has a blank cell, the result
    is never [-1]; it is a column at or before the first blank one. *)
Theorem findColumnIndex_blank_header
    (headers : list JsString) (name : JsString) (rest : list JsString)
    (j : nat) :
  (forall n, In n (name :: rest) -> ~ In n headers) ->
  nth_error headers j = Some [] ->
  exists i,
    findColumnIndex headers (name :: rest) = Z.of_nat i /\ (i <= j)%nat.
Proof.
  intros Hno Hblank. unfold findColumnIndex.
  assert (Hex : first_index (indexOf headers) (name :: rest) = (-1)%Z).
  { rewrite <- (app_nil_r (name :: rest)).
    rewrite first_index_skip; [reflexivity|].
    intros m Hm. apply indexOf_absent. now apply Hno. }
  rewrite Hex, Z.eqb_refl. cbn [first_index]. unfold findIndex.
  destruct (findIndex_from_spec (partial_match name) headers 0)
    as [[_ Hall]|(k & x & E & Hk & Hp & Hmin)].
  - specialize (Hall [] (nth_error_In _ _ Hblank)).
    unfold partial_match in Hall. rewrite includes_empty in Hall.
    rewrite orb_true_r in Hall. discriminate Hall.
  - rewrite E. destruct (Z.eqb_spec (0 + Z.of_nat k) (-1)) as [Hneg|_]; [lia|].
    exists k. split; [lia|].
    destruct (Nat.le_gt_cases k j) as [Hle|Hgt]; [exact Hle|].
    specialize (Hmin j [] Hgt Hblank). unfold partial_match in Hmin.
    rewrite includes_empty, orb_true_r in Hmin. discriminate Hmin.
Qed.

Lemma findColumnIndex_blank_header_witness :
  (* headers: a blank cell, country; possible names: name, nama *)
  let country : JsString := [99; 111; 117; 110; 116; 114; 121]%nat in
  let name : JsString := [110; 97; 109; 101]%nat in
  let nama : JsString := [110; 97; 109; 97]%nat in
  exists i,
    findColumnIndex [[]; country] (name :: [nama]) = Z.of_nat i /\ (i <= 0)%nat.
Proof.
  intros country name nama.
  apply (findColumnIndex_blank_header [[]; country] name [nama] 0).
  - intros n [<-|[<-|[]]] [E|[E|[]]]; discriminate E.
  - reflexivity.
Defined.

(** ** layouts.js: the sphere, continued *)

Lemma sphereTarget_height (count i : Z) :
  (0 <= i < count)%Z ->
  vz (position (sphereTarget count i))
  = SPHERE.RADIUS * (-1 + 2 * (IZR i / IZR count)).
Proof.
  intros Hi. unfold sphereTarget. cbn [position vz].
  assert (Hc : 0 < IZR count) by (apply IZR_lt; lia).
  assert (Hi0 : 0 <= IZR i) by (apply IZR_le; lia).
  assert (Hic : IZR i < IZR count) by (apply IZR_lt; lia).
  assert (Hq : 0 <= IZR i / IZR count < 1).
  { split.
    - apply Rmult_le_pos; [exact Hi0|]. left. now apply Rinv_0_lt_compat.
    - apply Rmult_lt_reg_r with (IZR count); [exact Hc|].
      unfold Rdiv. rewrite Rmult_assoc, Rinv_l by lra. lra. }
  replace (2 * IZR i / IZR count) with (2 * (IZR i / IZR count))
    by (unfold Rdiv; ring).
  rewrite cos_acos by lra. reflexivity.
Qed.

(** X21.  The sphere layout puts no two items at the same place: the
    heights of two different items already differ. *)
Theorem sphere_layout_injective (count i j : Z) (a b : Object3D) :
  (0 <= i < count)%Z -> (0 <= j < count)%Z -> i <> j ->
  nth_error (generateSphereLayout count) (Z.to_nat i) = Some a ->
  nth_error (generateSphereLayout count) (Z.to_nat j) = Some b ->
  vz (position a) <> vz (position b) /\ position a <> position b.
Proof.
  intros Hi Hj Hne Ha Hb. unfold generateSphereLayout in Ha, Hb.
  rewrite for_push_nth in Ha, Hb by assumption.
  injection Ha as <-. injection Hb as <-.
  assert (Hz : vz (position (sphereTarget count i))
               <> vz (position (sphereTarget count j))).
  { rewrite !sphereTarget_height by assumption. unfold SPHERE.RADIUS.
    intros E. apply Hne. apply eq_IZR.
    assert (Hc : 0 < IZR count) by (apply IZR_lt; lia).
    assert (Hq : IZR i / IZR count = IZR j / IZR count) by lra.
    apply (Rmult_eq_reg_r (/ IZR count)); [exact Hq|].
    apply Rinv_neq_0_compat. lra. }
  split; [exact Hz|]. intros E. apply Hz. now rewrite E.
Qed.

Lemma sphere_layout_injective_witness :
  (2 <> 9)%Z /\
  vz (position (sphereTarget 12 2)) <> vz (position (sphereTarget 12 9)).
Proof.
  split; [lia|].
  apply (sphere_layout_injective 12 2 9); try lia.
  - apply (for_push_nth 12 2 (sphereTarget 12)). lia.
  - apply (for_push_nth 12 9 (sphereTarget 12)). lia.
Defined.

(** ** transform.js and scene.js: where an item is during a transition *)

Lemma progress_done (d e : R) : 0 <= d <= e -> progress d e = 1.
Proof.
  intros H. unfold progress.
  destruct (Req_dec_T d 0) as [|Hn]; [apply Cubic_InOut_end|].
  rewrite Rmin_left; [apply Cubic_InOut_end|].
  apply Rmult_le_reg_r with d; [lra|].
  unfold Rdiv. rewrite Rmult_assoc, Rinv_l by exact Hn. lra.
Qed.

Lemma pose_between_end (from to : Pose) : pose_between from to 1 = to.
Proof.
  unfold pose_between. rewrite !interpolate_end. apply Pose_eta.
Qed.

Lemma Tween_update_playing (time : R) (tw : Tween) (w : World) :
  startTime tw <= time -> time - startTime tw < tween_duration tw ->
  Tween_update time tw w
  = (set_poses
       (write_pose (tween_object tw)
          (set_channel (tween_channel tw)
             (interpolate (valuesStart tw) (valuesEnd tw)
                (progress (tween_duration tw) (time - startTime tw)))
             (poses w (tween_object tw)))
          (poses w)) w,
     true).
Proof.
  intros Hs Hd. unfold Tween_update, progress.
  destruct (Rlt_dec time (startTime tw)) as [H|_]; [lra|].
  assert (Hf : finished (tween_duration tw) (time - startTime tw) = false).
  { unfold finished. destruct (Req_dec_T (tween_duration tw) 0); [lra|].
    destruct (Rle_dec (tween_duration tw) (time - startTime tw));
      [lra|reflexivity]. }
  now rewrite Hf.
Qed.

Lemma Group_update_loop_playing (time v : R) (tws : list Tween) :
  (forall tw, In tw tws ->
     startTime tw <= time /\ time - startTime tw < tween_duration tw /\
     progress (tween_duration tw) (time - startTime tw) = v) ->
  forall w,
    Group_update_loop time tws w
    = mkWorld
        (writes (map (fun tw =>
                        mkTween (tween_id tw) (tween_object tw)
                                (tween_channel tw) (valuesStart tw)
                                (interpolate (valuesStart tw) (valuesEnd tw) v)
                                (tween_duration tw) (startTime tw)) tws)
                (poses w))
        (activeTweens w) (group w) (nextId w) (clock w) (console w).
Proof.
  induction tws as [|tw tws IH]; intros Htws w.
  - cbn. symmetry. apply World_eta.
  - cbn [Group_update_loop].
    destruct (Htws tw (or_introl eq_refl)) as (Hs & Hd & Hv).
    rewrite Tween_update_playing, Hv by assumption.
    rewrite IH by (intros x Hx; apply Htws; now right). reflexivity.
Qed.

Lemma created_tweens_retarget store now d (v : R) (items : list ObjRef) :
  forall (ts : list Pose) (id : nat),
    map (fun tw =>
           mkTween (tween_id tw) (tween_object tw) (tween_channel tw)
                   (valuesStart tw)
                   (interpolate (valuesStart tw) (valuesEnd tw) v)
                   (tween_duration tw) (startTime tw))
        (created_tweens store now d id items ts)
    = created_tweens store now d id items
        (map (fun ot => pose_between (store (fst ot)) (snd ot) v)
             (combine items ts)).
Proof.
  induction items as [|o items IH]; intros [|t ts] id; try reflexivity.
  cbn [created_tweens map combine fst snd tween_id tween_object tween_channel
       valuesStart valuesEnd tween_duration startTime pose_between
       pose_position pose_rotation].
  now rewrite IH.
Qed.

Lemma nth_error_combine_both {A B : Type} (l : list A) (l' : list B) :
  forall i a b,
    nth_error l i = Some a -> nth_error l' i = Some b ->
    nth_error (combine l l') i = Some (a, b).
Proof.
  revert l'.
  induction l as [|x l IH]; intros l' [|i] a b Ha Hb; try discriminate Ha;
    destruct l' as [|y l']; try discriminate Hb; cbn in *.
  - now injection Ha as <-; injection Hb as <-.
  - now apply IH.
Qed.

(** One frame on a world in which exactly the tweens of the last call of
    [transform] play. *)
Lemma frame_of_transition
    (w wa : World) (items : list ObjRef) (ts : list Pose) (d e0 dt : R) :
  let created := created_tweens (poses w) (clock w) d (nextId w) items ts in
  NoDup items -> length ts = length items -> 0 <= d -> 0 <= e0 + dt ->
  group wa = created -> activeTweens wa = map tween_id created ->
  clock wa = clock w + e0 ->
  let wb := animate_frame dt wa in
  clock wb = clock w + (e0 + dt) /\
  ((group wb = created /\ activeTweens wb = map tween_id created) \/
   (group wb = [] /\ d <= e0 + dt)) /\
  (forall i item t,
     nth_error items i = Some item -> nth_error ts i = Some t ->
     poses wb item = pose_between (poses w item) t (progress d (e0 + dt))).
Proof.
  intros created Hnd Hl Hd0 He Hg Ha Hc wb.
  assert (Hclock : clock wb = clock w + (e0 + dt)).
  { unfold wb, animate_frame, update, TWEEN_update.
    rewrite Group_update_loop_clock. cbn [clock elapse]. lra. }
  split; [exact Hclock|].
  assert (Hform : forall tw, In tw created ->
                    startTime tw = clock w /\ tween_duration tw = d).
  { intros tw Htw. apply created_tweens_in in Htw.
    destruct Htw as (i & o & t & _ & _ & [-> | ->]); now split. }
  unfold wb, animate_frame, update, TWEEN_update. cbn [clock group elapse].
  rewrite Hg, Hc.
  destruct (Rle_dec d (e0 + dt)) as [Hdue|Hplay].
  - rewrite Group_update_loop_due.
    2:{ apply Forall_forall. intros tw Htw.
        destruct (Hform tw Htw) as [Es Ed]. unfold due. rewrite Es, Ed. lra. }
    cbn [poses group activeTweens elapse]. split.
    + right. split; [|exact Hdue]. rewrite Hg. apply filter_none.
      intros tw Htw. apply not_among_false. now apply in_map.
    + intros i item t Hi Ht. rewrite progress_done, pose_between_end by lra.
      now apply (proj2 (writes_created _ _ _ items ts _ _ Hl) Hnd i).
  - rewrite (Group_update_loop_playing _ (progress d (e0 + dt))).
    2:{ intros tw Htw. destruct (Hform tw Htw) as [Es Ed]. rewrite Es, Ed.
        split; [lra|]. split; [lra|]. f_equal. lra. }
    cbn [poses group activeTweens elapse]. split; [left; now split|].
    intros i item t Hi Ht. unfold created. rewrite created_tweens_retarget.
    set (ts' := map (fun ot : ObjRef * Pose =>
                       pose_between (poses w (fst ot)) (snd ot)
                                    (progress d (e0 + dt)))
                    (combine items ts)).
    assert (Hl' : length ts' = length items).
    { unfold ts'. rewrite length_map, length_combine, Hl. apply Nat.min_id. }
    apply (proj2 (writes_created (poses w) (clock w) d items ts' (nextId w)
                    (poses wa) Hl') Hnd i item); [exact Hi|].
    unfold ts'.
    rewrite nth_error_map, (nth_error_combine_both items ts i item t Hi Ht).
    reflexivity.
Qed.

(** The pose of an item after some frames of a transition, in closed
    form. *)
Lemma pose_after_frames
    (w : World) (items : list ObjRef) (ts : list Pose) (duration : option R)
    (dts : list R) :
  World_ok w -> NoDup items -> items <> [] -> length ts = length items ->
  0 <= effective_duration duration ->
  dts <> [] -> Forall (fun dt => 0 <= dt) dts ->
  let w1 := snd (transform (arrayOf items) (arrayOf ts) duration w) in
  forall i item t,
    nth_error items i = Some item -> nth_error ts i = Some t ->
    poses (animate dts w1) item
    = pose_between (poses w item) t
                   (progress (effective_duration duration) (sum_R dts)).
Proof.
  intros Hok Hnd Hne Hl Hd0 Hdts Hpos w1.
  set (d := effective_duration duration) in *.
  set (created := created_tweens (poses w) (clock w) d (nextId w) items ts).
  assert (Hw1 : w1 = mkWorld (poses w) (map tween_id created) created
                             (nextId w + 2 * length items) (clock w)
                             (console w)).
  { unfold w1. now rewrite transform_started. }
  assert (Hgen : forall l e wa,
            l <> [] -> Forall (fun dt => 0 <= dt) l -> 0 <= e ->
            clock wa = clock w + e ->
            ((group wa = created /\ activeTweens wa = map tween_id created) \/
             (group wa = [] /\ d <= e /\
              forall i item t, nth_error items i = Some item ->
                               nth_error ts i = Some t -> poses wa item = t)) ->
            forall i item t,
              nth_error items i = Some item -> nth_error ts i = Some t ->
              poses (animate l wa) item
              = pose_between (poses w item) t (progress d (e + sum_R l))).
  { induction l as [|dt l IH]; intros e wa Hl0 Hall He Hc Hstate i item t Hi Ht;
      [congruence|].
    inversion Hall as [|? ? Hdt Hall']; subst.
    cbn [animate fold_left sum_R fold_right].
    fold (animate l (animate_frame dt wa)). fold (sum_R l).
    assert (Hframe :
              clock (animate_frame dt wa) = clock w + (e + dt) /\
              ((group (animate_frame dt wa) = created /\
                activeTweens (animate_frame dt wa) = map tween_id created) \/
               (group (animate_frame dt wa) = [] /\ d <= e + dt /\
                forall i item t, nth_error items i = Some item ->
                  nth_error ts i = Some t ->
                  poses (animate_frame dt wa) item = t)) /\
              (forall i item t, nth_error items i = Some item ->
                 nth_error ts i = Some t ->
                 poses (animate_frame dt wa) item
                 = pose_between (poses w item) t (progress d (e + dt)))).
    { destruct Hstate as [[Hg Ha]|(Hg & Hde & Hp)].
      - destruct (frame_of_transition w wa items ts d e dt Hnd Hl Hd0
                    ltac:(lra) Hg Ha Hc) as (Hc' & Hst & Hp').
        split; [exact Hc'|]. split; [|exact Hp'].
        destruct Hst as [Hplay|[Hg' Hde']]; [now left|right].
        split; [exact Hg'|]. split; [exact Hde'|].
        intros i' item' t' Hi' Ht'. rewrite (Hp' i' item' t' Hi' Ht').
        now rewrite progress_done, pose_between_end by lra.
      - assert (E : animate_frame dt wa = elapse dt wa).
        { unfold animate_frame. now apply update_idle. }
        rewrite E. cbn [clock group poses elapse]. split; [lra|].
        split.
        + right. split; [exact Hg|]. split; [lra|exact Hp].
        + intros i' item' t' Hi' Ht'. rewrite (Hp i' item' t' Hi' Ht').
          now rewrite progress_done, pose_between_end by lra. }
    destruct Hframe as (Hc' & Hst & Hp').
    destruct l as [|dt' l].
    - unfold animate, sum_R. cbn [fold_left fold_right]. rewrite Rplus_0_r.
      exact (Hp' i item t Hi Ht).
    - replace (e + (dt + sum_R (dt' :: l))) with (e + dt + sum_R (dt' :: l))
        by ring.
      apply (IH (e + dt) (animate_frame dt wa) ltac:(discriminate) Hall'
                ltac:(lra) Hc' Hst i item t Hi Ht). }
  assert (Hstart : (group w1 = created /\ activeTweens w1 = map tween_id created) \/
                   (group w1 = [] /\ d <= 0 /\
                    forall i item t, nth_error items i = Some item ->
                      nth_error ts i = Some t -> poses w1 item = t)).
  { left. rewrite Hw1. now split. }
  assert (Hc1 : clock w1 = clock w + 0) by (rewrite Hw1; cbn; lra).
  intros i item t Hi Ht.
  pose proof (Hgen dts 0 w1 Hdts Hpos ltac:(lra) Hc1 Hstart i item t Hi Ht)
    as Hmany.
  now rewrite Rplus_0_l in Hmany.
Qed.


Lemma sum_R_nonneg (l : list R) :
  Forall (fun dt => 0 <= dt) l -> 0 <= sum_R l.
Proof.
  induction 1 as [|x l Hx _ IH]; unfold sum_R in *; cbn; lra.
Qed.

Lemma Cubic_InOut_range (k : R) : 0 <= k <= 1 -> 0 <= Cubic_InOut k <= 1.
Proof.
  intros [H0 H1]. unfold Cubic_InOut. cbv zeta.
  destruct (Rlt_dec (k * 2) 1) as [Hlt|Hge].
  - assert (Ha : 0 <= k * 2 <= 1) by lra.
    assert (Hsq : 0 <= k * 2 * (k * 2) <= 1) by nra.
    assert (Hcu : 0 <= k * 2 * (k * 2) * (k * 2) <= 1) by nra.
    lra.
  - assert (Ha : 0 <= 2 - k * 2 <= 1) by lra.
    assert (Hsq : 0 <= (2 - k * 2) * (2 - k * 2) <= 1) by nra.
    assert (Hcu : 0 <= (2 - k * 2) * (2 - k * 2) * (2 - k * 2) <= 1) by nra.
    replace ((k * 2 - 2) * (k * 2 - 2) * (k * 2 - 2))
      with (- ((2 - k * 2) * (2 - k * 2) * (2 - k * 2))) by ring.
    lra.
Qed.

Lemma progress_range (d e : R) : 0 <= d -> 0 <= e -> 0 <= progress d e <= 1.
Proof.
  intros Hd He. unfold progress. apply Cubic_InOut_range.
  destruct (Req_dec_T d 0) as [_|Hd']; [lra|].
  assert (0 <= e / d).
  { unfold Rdiv. apply Rmult_le_pos; [exact He|].
    left. apply Rinv_0_lt_compat. lra. }
  unfold Rmin. destruct (Rle_dec 1 (e / d)); lra.
Qed.

Lemma between_interpolated (a b v : R) :
  0 <= v <= 1 -> between a b (a + (b - a) * v).
Proof.
  intros [H0 H1]. unfold between, Rmin, Rmax.
  destruct (Rle_dec a b); split; nra.
Qed.

Lemma interpolate_in_box (s e : Vector3) (v : R) :
  0 <= v <= 1 -> in_box s e (interpolate s e v).
Proof.
  intros Hv. unfold in_box, interpolate. cbn [vx vy vz].
  repeat split; apply between_interpolated; exact Hv.
Qed.

(** X22.  During a transition of a duration that is not negative, the pose
    of an item depends on the time elapsed since the call of [transform]
    only, not on how many frames there were or when they fell: after
    frames that cover [e] milliseconds
    in all, the item is at the eased share [progress d e] of the way from
    where it was at the call to its target, in position and in rotation.
    In particular any two schedules of frames of the same total length
    leave it at the same pose. *)
Theorem pose_depends_on_elapsed_time_only
    (w : World) (items : list ObjRef) (ts : list Pose) (duration : option R)
    (dts dts' : list R) :
  World_ok w -> NoDup items -> items <> [] -> length ts = length items ->
  0 <= effective_duration duration ->
  dts <> [] -> Forall (fun dt => 0 <= dt) dts ->
  dts' <> [] -> Forall (fun dt => 0 <= dt) dts' ->
  sum_R dts = sum_R dts' ->
  let w1 := snd (transform (arrayOf items) (arrayOf ts) duration w) in
  forall i item t,
    nth_error items i = Some item -> nth_error ts i = Some t ->
    poses (animate dts w1) item
    = pose_between (poses w item) t
                   (progress (effective_duration duration) (sum_R dts)) /\
    poses (animate dts w1) item = poses (animate dts' w1) item.
Proof.
  intros Hok Hnd Hne Hl Hd0 Hdts Hpos Hdts' Hpos' Hsum w1 i item t Hi Ht.
  pose proof (pose_after_frames w items ts duration dts Hok Hnd Hne Hl Hd0
                Hdts Hpos i item t Hi Ht) as Hmany.
  pose proof (pose_after_frames w items ts duration dts' Hok Hnd Hne Hl Hd0
                Hdts' Hpos' i item t Hi Ht) as Hother.
  cbv zeta in Hmany, Hother. fold w1 in Hmany, Hother.
  split; [exact Hmany|]. now rewrite Hmany, Hother, Hsum.
Qed.

Lemma pose_depends_on_elapsed_time_only_witness :
  let t := mkPose (mkVector3 10 20 30) zero3 in
  let w1 := snd (transform (arrayOf [0%nat]) (arrayOf [t]) (Some 1000)
                           initial_world) in
  poses (animate [100; 250; 150] w1) 0%nat
  = pose_between (poses initial_world 0%nat) t
                 (progress (effective_duration (Some 1000))
                           (sum_R [100; 250; 150])) /\
  poses (animate [100; 250; 150] w1) 0%nat
  = poses (animate [500] w1) 0%nat.
Proof.
  intros t w1.
  assert (Hok : World_ok initial_world) by (split; intros ? []).
  assert (Hnd : NoDup [0%nat]) by (constructor; [intros []|constructor]).
  assert (Hpos : Forall (fun dt => 0 <= dt) [100; 250; 150]).
  { repeat constructor; lra. }
  assert (Hpos' : Forall (fun dt => 0 <= dt) [500]).
  { repeat constructor; lra. }
  assert (Hsum : sum_R [100; 250; 150] = sum_R [500]).
  { unfold sum_R. cbn [fold_right]. lra. }
  assert (Hd0 : 0 <= effective_duration (Some 1000)).
  { unfold effective_duration. lra. }
  exact (pose_depends_on_elapsed_time_only initial_world [0%nat] [t]
           (Some 1000) [100; 250; 150] [500] Hok Hnd ltac:(discriminate)
           eq_refl Hd0 ltac:(discriminate) Hpos ltac:(discriminate) Hpos'
           Hsum 0%nat 0%nat t eq_refl eq_refl).
Defined.

(** X23.  A transition of a duration that is not negative never
    overshoots: after any frames, every coordinate of an item's position and of its rotation lies between the
    value it had when [transform] was called and the value of its
    target. *)
Theorem transition_stays_between_start_and_target
    (w : World) (items : list ObjRef) (ts : list Pose) (duration : option R)
    (dts : list R) :
  World_ok w -> NoDup items -> items <> [] -> length ts = length items ->
  0 <= effective_duration duration ->
  dts <> [] -> Forall (fun dt => 0 <= dt) dts ->
  let w1 := snd (transform (arrayOf items) (arrayOf ts) duration w) in
  forall i item t,
    nth_error items i = Some item -> nth_error ts i = Some t ->
    in_box (pose_position (poses w item)) (pose_position t)
           (pose_position (poses (animate dts w1) item)) /\
    in_box (pose_rotation (poses w item)) (pose_rotation t)
           (pose_rotation (poses (animate dts w1) item)).
Proof.
  intros Hok Hnd Hne Hl Hd0 Hdts Hpos w1 i item t Hi Ht.
  pose proof (pose_after_frames w items ts duration dts Hok Hnd Hne Hl Hd0
                Hdts Hpos i item t Hi Ht) as Hpose.
  cbv zeta in Hpose. fold w1 in Hpose. rewrite Hpose.
  assert (Hv : 0 <= progress (effective_duration duration) (sum_R dts) <= 1).
  { apply progress_range; [exact Hd0|now apply sum_R_nonneg]. }
  unfold pose_between. cbn [pose_position pose_rotation].
  split; apply interpolate_in_box; exact Hv.
Qed.

Lemma transition_stays_between_start_and_target_witness :
  let t := mkPose (mkVector3 10 (-20) 30) zero3 in
  let w1 := snd (transform (arrayOf [0%nat]) (arrayOf [t]) (Some 1000)
                           initial_world) in
  in_box (pose_position (poses initial_world 0%nat)) (pose_position t)
         (pose_position (poses (animate [100; 250] w1) 0%nat)) /\
  in_box (pose_rotation (poses initial_world 0%nat)) (pose_rotation t)
         (pose_rotation (poses (animate [100; 250] w1) 0%nat)).
Proof.
  intros t w1.
  assert (Hok : World_ok initial_world) by (split; intros ? []).
  assert (Hnd : NoDup [0%nat]) by (constructor; [intros []|constructor]).
  assert (Hpos : Forall (fun dt => 0 <= dt) [100; 250]).
  { repeat constructor; lra. }
  assert (Hd0 : 0 <= effective_duration (Some 1000)).
  { unfold effective_duration. lra. }
  exact (transition_stays_between_start_and_target initial_world [0%nat] [t]
           (Some 1000) [100; 250] Hok Hnd ltac:(discriminate) eq_refl Hd0
           ltac:(discriminate) Hpos 0%nat 0%nat t eq_refl eq_refl).
Defined.

(** ** transform.js: a transition that is superseded *)

Lemma progress_half_way : progress 500 250 = 1 / 2.
Proof.
  unfold progress. destruct (Req_dec_T 500 0) as [E|_]; [lra|].
  replace (Rmin 1 (250 / 500)) with (1 / 2); [apply Cubic_InOut_middle|].
  unfold Rmin. destruct (Rle_dec 1 (250 / 500)); lra.
Qed.

(** C2, as the code has it.  A transition of the items toward [B] (of any
    duration) is begun and then, with no update in between, one toward [C]
    of 500 ms.  Neither call moves an item, and after the second call the
    tweens toward [C] are the only ones playing.  From then on [B] plays no
    part: after frames that cover [e] milliseconds in all, every item is at
    the eased share [progress 500 e] of the way from the pose it had at the
    calls to its [C] target, hence exactly at its [C] target once 500 ms
    are covered.  The superseded transition is discarded, not completed;
    an item is found at its [B] target only where this way to [C] passes
    through it. *)
Theorem superseded_transition_leaves_no_trace
    (w0 : World) (items : list ObjRef) (B C : list Pose)
    (durationB : option R) (d1 : R) (dts : list R) :
  World_ok w0 -> NoDup items -> items <> [] ->
  length B = length items -> length C = length items ->
  dts <> [] -> Forall (fun dt => 0 <= dt) dts ->
  let w1 := snd (transform (arrayOf items) (arrayOf B) durationB w0) in
  let w2 := snd (transform (arrayOf items) (arrayOf C) (Some 500)
                           (elapse d1 w1)) in
  poses w1 = poses w0 /\
  poses w2 = poses w0 /\
  group w2 = created_tweens (poses w0) (clock w0 + d1) 500
                            (nextId w0 + 2 * length items) items C /\
  forall i item c,
    nth_error items i = Some item -> nth_error C i = Some c ->
    poses (animate dts w2) item
    = pose_between (poses w0 item) c (progress 500 (sum_R dts)) /\
    (500 <= sum_R dts -> poses (animate dts w2) item = c).
Proof.
  intros Hok Hnd Hne HB HC Hdts Hpos w1 w2.
  assert (Hok1 : World_ok (elapse d1 w1)).
  { apply elapse_ok. unfold w1. now apply transform_ok. }
  assert (P1 : poses w1 = poses w0).
  { unfold w1. now rewrite transform_started by assumption. }
  split; [exact P1|]. split.
  { unfold w2. rewrite transform_started by assumption. exact P1. }
  split.
  { unfold w2. rewrite transform_started by assumption. cbv zeta.
    cbn [snd group poses clock nextId elapse].
    unfold w1. rewrite transform_started by assumption. reflexivity. }
  intros i item c Hi Hc.
  assert (Hd0 : 0 <= effective_duration (Some 500)).
  { unfold effective_duration. lra. }
  pose proof (pose_after_frames (elapse d1 w1) items C (Some 500) dts
                Hok1 Hnd Hne HC Hd0 Hdts Hpos i item c Hi Hc) as Hpose.
  cbv zeta in Hpose. fold w2 in Hpose.
  cbn [poses elapse effective_duration] in Hpose. rewrite P1 in Hpose.
  split; [exact Hpose|].
  intros Hdone. rewrite Hpose, progress_done by lra. apply pose_between_end.
Qed.

Lemma superseded_transition_leaves_no_trace_witness :
  let b := mkPose (mkVector3 1 0 0) zero3 in
  let c := mkPose (mkVector3 0 2 0) zero3 in
  let w1 := snd (transform (arrayOf [0%nat]) (arrayOf [b]) (Some 1000)
                           initial_world) in
  let w2 := snd (transform (arrayOf [0%nat]) (arrayOf [c]) (Some 500)
                           (elapse 100 w1)) in
  poses w1 = poses initial_world /\
  poses w2 = poses initial_world /\
  poses (animate [200; 300] w2) 0%nat
  = pose_between (poses initial_world 0%nat) c
                 (progress 500 (sum_R [200; 300])) /\
  poses (animate [200; 300] w2) 0%nat = c.
Proof.
  intros b c w1 w2.
  assert (Hok : World_ok initial_world) by (split; intros ? []).
  assert (Hnd : NoDup [0%nat]) by (constructor; [intros []|constructor]).
  assert (Hpos : Forall (fun dt => 0 <= dt) [200; 300]).
  { repeat constructor; lra. }
  destruct (superseded_transition_leaves_no_trace initial_world [0%nat] [b]
              [c] (Some 1000) 100 [200; 300] Hok Hnd ltac:(discriminate)
              eq_refl eq_refl ltac:(discriminate) Hpos)
    as (H1 & H2 & _ & H).
  destruct (H 0%nat 0%nat c eq_refl eq_refl) as [Hpath Hend].
  split; [exact H1|]. split; [exact H2|]. split; [exact Hpath|].
  apply Hend. unfold sum_R. cbn [fold_right]. lra.
Defined.

(** C2, as stated, fails: on its way from the origin to the [C] target
    (10, 20, 30) the item is exactly at the [B] target (5, 10, 15) after a
    frame at 250 ms, before the frame at 500 ms leaves it at [C]. *)
Lemma superseded_target_visited :
  let b := mkPose (mkVector3 5 10 15) zero3 in
  let c := mkPose (mkVector3 10 20 30) zero3 in
  let w1 := snd (transform (arrayOf [0%nat]) (arrayOf [b]) (Some 1000)
                           initial_world) in
  let w2 := snd (transform (arrayOf [0%nat]) (arrayOf [c]) (Some 500) w1) in
  poses (animate [250] w2) 0%nat = b /\
  poses (animate [250; 250] w2) 0%nat = c.
Proof.
  intros b c w1 w2.
  assert (Hok : World_ok initial_world) by (split; intros ? []).
  assert (Hok1 : World_ok w1) by (unfold w1; now apply transform_ok).
  assert (Hnd : NoDup [0%nat]) by (constructor; [intros []|constructor]).
  assert (Hd0 : 0 <= effective_duration (Some 500)).
  { unfold effective_duration. lra. }
  assert (P1 : poses w1 0%nat = mkPose zero3 zero3).
  { unfold w1. now rewrite transform_started. }
  assert (Hat : forall dts, dts <> [] -> Forall (fun dt => 0 <= dt) dts ->
            poses (animate dts w2) 0%nat
            = pose_between (mkPose zero3 zero3) c (progress 500 (sum_R dts))).
  { intros dts Hdts Hpos. rewrite <- P1.
    exact (pose_after_frames w1 [0%nat] [c] (Some 500) dts Hok1 Hnd
             ltac:(discriminate) eq_refl Hd0 Hdts Hpos 0%nat 0%nat c
             eq_refl eq_refl). }
  split.
  - rewrite (Hat [250]) by (try discriminate; repeat constructor; lra).
    unfold sum_R. cbn [fold_right]. rewrite Rplus_0_r, progress_half_way.
    unfold pose_between, interpolate, b, c, zero3.
    cbn [pose_position pose_rotation vx vy vz]. f_equal; f_equal; lra.
  - rewrite (Hat [250; 250]) by (try discriminate; repeat constructor; lra).
    rewrite progress_done by (unfold sum_R; cbn [fold_right]; lra).
    apply pose_between_end.
Qed.
